(** * openanime-cli: the watch-session continuity subsystem

    A shallow embedding of the history store ([historyUtils.ts]), the
    playback controller ([player.ts]), the mpv progress script
    ([mpv-progress.lua]) and the continuity decisions of [core/index.ts],
    followed by the properties established about them.

    Conventions of the embedding:
    - JavaScript and Lua numbers are IEEE 754 doubles.  Those that the
      program only ever produces through [Math.round], [math.floor] or
      integer literals are integers ([Z]); the others are rationals ([Q]).
      A division or a multiplication of two numbers is rounded to the
      nearest double ([Double.div], [Double.mul]); comparisons, [floor],
      [round], [min] and [max] are exact, as they are on doubles.  Every
      number is finite: [NaN] and the infinities do not occur, and neither
      do integers beyond [2^53].
    - A [Date] is its [getTime()] value, in milliseconds.
    - A file is the outcome that reading and parsing it has; writing a JSON
      value and parsing it back is taken to give the same value, and a write
      to the history file is taken to succeed.
    - [await] is sequential composition: the CLI has one thread of control. *)

From Stdlib Require Import ZArith QArith Qround Qminmax Qabs Qpower Lqa.
From Stdlib Require PrimFloat FloatOps SpecFloat Uint63.
From stdpp Require Import base decidable option list sorting strings pretty.

Local Open Scope Z_scope.

(** ** IEEE 754 double precision *)

Module Double.

Definition pow2 (e : Z) : Q := (2 ^ e)%Q.

(** The exponent [k] with [2^k <= x < 2^(k+1)], for a positive [x]. *)
Definition ilog2 (x : Q) : Z :=
  let k := Z.log2 (Qnum x) - Z.log2 (Zpos (Qden x)) in
  if Qle_bool (pow2 k) x then k else k - 1.

(** The nearest integer; halfway between two, the even one. *)
Definition nearest_even (y : Q) : Z :=
  let f := Qfloor y in
  match (y - inject_Z f ?= 1 # 2)%Q with
  | Lt => f
  | Gt => f + 1
  | Eq => if Z.even f then f else f + 1
  end.

(** The exponent of the unit in the last place of the doubles around
    [x]: significands have 53 bits, and no unit is below [2^-1074], the
    smallest subnormal number. *)
Definition ulp_exponent (x : Q) : Z := Z.max (ilog2 (Qabs x) - 52) (-1074).

(** roundTiesToEven: the double nearest to [x], the one with the even
    significand when [x] is halfway between two. *)
Definition round (x : Q) : Q :=
  (inject_Z (nearest_even (x / pow2 (ulp_exponent x))) * pow2 (ulp_exponent x))%Q.

(** [x / y] and [x * y] on doubles. *)
Definition div (x y : Q) : Q := round (x / y).
Definition mul (x y : Q) : Q := round (x * y).

End Double.

(** The primitive floats of Rocq are the doubles of the machine.  They
    are used to test [Double] on concrete numbers, and nowhere else. *)
Module Machine.

Definition of_Z (z : Z) : PrimFloat.float :=
  PrimFloat.of_uint63 (Uint63.of_Z z).

(** The value of a finite float. *)
Definition to_Q (f : PrimFloat.float) : option Q :=
  match FloatOps.Prim2SF f with
  | SpecFloat.S754_zero _ => Some 0%Q
  | SpecFloat.S754_finite s m e =>
      Some ((if s then -1 else 1) * inject_Z (Zpos m) * Double.pow2 e)%Q
  | _ => None
  end.

(** [(t / d) * 100] on the machine and in [Double] give the same
    number. *)
Definition same_percent (t d : PrimFloat.float) : bool :=
  match to_Q t, to_Q d,
        to_Q (PrimFloat.mul (PrimFloat.div t d) (of_Z 100)) with
  | Some qt, Some qd, Some q =>
      Qeq_bool q (Double.mul (Double.div qt qd) 100)
  | _, _, _ => false
  end.

End Machine.

(** ** JavaScript runtime: completions, state, arrays *)

Module Js.

Inductive Error : Set :=
| SyntaxError   (* JSON.parse on text that is not JSON *)
| TypeError     (* property access on null, call of a non-function *)
| SystemError.  (* a failing fs call *)

Inductive Completion (A : Type) : Type :=
| Normal (a : A)
| Abrupt (e : Error).
Arguments Normal {A} a.
Arguments Abrupt {A} e.

(** A computation over a store [S]: it returns normally or throws, and
    the effects it had before throwing stay. *)
Definition M (S A : Type) : Type := S → Completion A * S.

Section Monad.
Context {S : Type}.

Definition ret {A} (a : A) : M S A := λ s, (Normal a, s).

Definition throw {A} (e : Error) : M S A := λ s, (Abrupt e, s).

Definition bind {A B} (k : A → M S B) (m : M S A) : M S B :=
  λ s, match m s with
       | (Normal a, s') => k a s'
       | (Abrupt e, s') => (Abrupt e, s')
       end.

(** [try { body } catch (error) { handler }] *)
Definition try_catch {A} (body : M S A) (handler : Error → M S A) : M S A :=
  λ s, match body s with
       | (Normal a, s') => (Normal a, s')
       | (Abrupt e, s') => handler e s'
       end.

Definition gets {A} (f : S → A) : M S A := λ s, (Normal (f s), s).

Definition modify (f : S → S) : M S unit := λ s, (Normal tt, f s).
End Monad.

#[global] Instance M_ret {S} : MRet (M S) := λ A, @ret S A.
#[global] Instance M_bind {S} : MBind (M S) := λ A B, @bind S A B.

(** [x || 0] on a number: [0] (and a missing field, read as [0]) is
    falsy. *)
Definition or0 (x : Z) : Z := if Z.eqb x 0 then 0 else x.

(** [Math.round]: the nearest integer, halves towards +infinity; the
    result is exact. *)
Definition Math_round (x : Q) : Z := Qfloor (x + (1 # 2))%Q.

(** [array.slice(0, n)], with JavaScript's reading of a negative [n]. *)
Definition slice0 {A} (l : list A) (n : Z) : list A :=
  if Z.ltb n 0 then take (length l - Z.to_nat (- n))%nat l
  else take (Z.to_nat n) l.

(** [array.sort(cmp)]: the sort is stable; [cmp a b <= 0] keeps [a]
    in front of [b]. *)
Section Sort.
Context {A : Type} (cmp : A → A → Z).

Fixpoint sort_insert (x : A) (l : list A) : list A :=
  match l with
  | [] => [x]
  | y :: l' => if Z.leb (cmp x y) 0 then x :: y :: l'
               else y :: sort_insert x l'
  end.

Definition sort (l : list A) : list A := foldr sort_insert [] l.
End Sort.

End Js.

(** ** utils/historyUtils.ts *)

Module HistoryUtils.

Record WatchHistoryEntry : Type := {
  animeId : string;
  animeTitle : string;
  animeSlug : string;
  seasonNumber : Z;
  episodeNumber : Z;
  episodeTitle : string;
  fansubName : string;
  watchedAt : Z;     (* Date, as getTime() *)
  progress : Z;      (* percentage watched *)
  timePos : Z;       (* seconds watched *)
  duration : Z       (* total duration in seconds *)
}.

(** What [JSON.parse] makes of the text of the history file. *)
Inductive FileData : Type :=
| NotJson                                   (* JSON.parse throws *)
| JsonOther                                 (* a value without entries to map over *)
| JsonEntries (l : list WatchHistoryEntry).

(** The backing file [~/.openanime-cli/watch-history.json]. *)
Inductive HistoryFile : Type :=
| Absent                   (* fileExists is false *)
| Unreadable               (* readFileSync throws *)
| Holds (data : FileData).

(** The part of the world the CLI process acts on. *)
Record World : Type := {
  HISTORY_FILE : HistoryFile;
  writes : list (list WatchHistoryEntry);
                           (* every array written to the file, oldest first *)
  console : list string;   (* lines printed, oldest first *)
  clock : Z                (* what [new Date()] reads *)
}.

Abbreviation IO := (Js.M World).

Definition console_log (line : string) : IO unit :=
  Js.modify (λ w, {| HISTORY_FILE := HISTORY_FILE w;
                     writes := writes w;
                     console := console w ++ [line];
                     clock := clock w |}).

Definition console_error := console_log.

Definition fileExists : IO bool :=
  Js.gets (λ w, match HISTORY_FILE w with Absent => false | _ => true end).

Definition fs_readFileSync : IO FileData :=
  λ w, match HISTORY_FILE w with
       | Holds data => (Js.Normal data, w)
       | _ => (Js.Abrupt Js.SystemError, w)
       end.

Definition fs_writeFileSync (l : list WatchHistoryEntry) : IO unit :=
  Js.modify (λ w, {| HISTORY_FILE := Holds (JsonEntries l);
                     writes := writes w ++ [l];
                     console := console w;
                     clock := clock w |}).

Definition fs_unlinkSync : IO unit :=
  Js.modify (λ w, {| HISTORY_FILE := Absent;
                     writes := writes w;
                     console := console w;
                     clock := clock w |}).

(** [JSON.parse(data) as WatchHistoryEntry[]] followed by [history.map]:
    text that is not JSON throws in the parse, a parsed value that cannot
    be mapped over throws in the map. *)
Definition JSON_parse_entries (data : FileData) : IO (list WatchHistoryEntry) :=
  match data with
  | NotJson => Js.throw Js.SyntaxError
  | JsonOther => Js.throw Js.TypeError
  | JsonEntries l => Js.ret l
  end.

(** [{...entry, watchedAt: new Date(entry.watchedAt),
      timePos: entry.timePos || 0, duration: entry.duration || 0}] *)
Definition revive (entry : WatchHistoryEntry) : WatchHistoryEntry :=
  {| animeId := animeId entry;
     animeTitle := animeTitle entry;
     animeSlug := animeSlug entry;
     seasonNumber := seasonNumber entry;
     episodeNumber := episodeNumber entry;
     episodeTitle := episodeTitle entry;
     fansubName := fansubName entry;
     watchedAt := watchedAt entry;
     progress := progress entry;
     timePos := Js.or0 (timePos entry);
     duration := Js.or0 (duration entry) |}.

(** [(a, b) => b.watchedAt.getTime() - a.watchedAt.getTime()] *)
Definition newest_first (a b : WatchHistoryEntry) : Z :=
  watchedAt b - watchedAt a.

Definition getWatchHistory (limit : option Z) : IO (list WatchHistoryEntry) :=
  Js.try_catch
    (present ← fileExists;
     if negb present then mret []
     else
       data ← fs_readFileSync;
       history ← JSON_parse_entries data;
       let processedHistory := revive <$> history in
       let processedHistory := Js.sort newest_first processedHistory in
       mret (match limit with
             | Some n => if Z.eqb n 0 then processedHistory
                         else Js.slice0 processedHistory n
             | None => processedHistory
             end))
    (λ error,
       console_error "Error loading watch history:";;
       mret []).

(** The predicate of [findIndex] in [saveWatchHistory]. *)
Definition same_episode (entry h : WatchHistoryEntry) : Prop :=
  animeId h = animeId entry ∧
  seasonNumber h = seasonNumber entry ∧
  episodeNumber h = episodeNumber entry.

#[global] Instance same_episode_dec entry h : Decision (same_episode entry h).
Proof. unfold same_episode. apply _. Defined.

Definition saveWatchHistory (entry : WatchHistoryEntry) : IO unit :=
  Js.try_catch
    (history ← getWatchHistory None;
     let existingIndex := list_find (same_episode entry) history in
     let history :=
       match existingIndex with
       | Some (i, _) => delete i history      (* history.splice(i, 1) *)
       | None => history
       end in
     let history := entry :: history in        (* history.unshift(entry) *)
     let trimmedHistory := Js.slice0 history 50 in
     fs_writeFileSync trimmedHistory;;
     console_log "Saved to watch history")
    (λ error, console_error "Error saving watch history:").

Definition getLastWatchedAnime : IO (option WatchHistoryEntry) :=
  history ← getWatchHistory (Some 1);
  mret (head history).

Definition getAnimeWatchHistory (id : string) : IO (list WatchHistoryEntry) :=
  history ← getWatchHistory None;
  mret (filter (λ entry, animeId entry = id) history).

Definition clearWatchHistory : IO unit :=
  Js.try_catch
    (present ← fileExists;
     if (present : bool) then fs_unlinkSync;; console_log "Watch history cleared"
     else console_log "No watch history to clear")
    (λ error, console_error "Error clearing watch history:").

(** A [Map<string, WatchHistoryEntry>]: the pairs in insertion order,
    which is the order [values()] iterates in. *)
Definition AnimeMap := list (string * WatchHistoryEntry).

Definition Map_has (m : AnimeMap) (k : string) : bool :=
  bool_decide (k ∈ m.*1).

Fixpoint Map_set (m : AnimeMap) (k : string) (v : WatchHistoryEntry) : AnimeMap :=
  match m with
  | [] => [(k, v)]
  | (k', v') :: m' =>
      if decide (k' = k) then (k', v) :: m' else (k', v') :: Map_set m' k v
  end.

Definition Map_values (m : AnimeMap) : list WatchHistoryEntry := m.*2.

Definition getContinueWatchingSuggestions : IO (list WatchHistoryEntry) :=
  history ← getWatchHistory None;
  let animeMap : AnimeMap :=
    foldl (λ animeMap entry,
             if negb (Map_has animeMap (animeId entry))
             then Map_set animeMap (animeId entry) entry
             else animeMap)
          [] history in
  mret (Js.slice0 (Map_values animeMap) 5).

End HistoryUtils.

(** ** services/mpv-progress.lua: the script mpv runs during playback *)

Module MpvProgress.

(** The properties of the running player, which are doubles.  A
    property that mpv cannot give is [None];
    [mp.get_property_number(name, def)] then answers [def]. *)
Record Props : Type := {
  prop_time_pos : option Q;
  prop_duration : option Q;
  prop_length : option Q;
  prop_percent_pos : option Q
}.

Definition get_property_number (p : option Q) (def : Q) : Q := default def p.

(** The table written to [progress_file]; every number in it went
    through [math.floor]. *)
Record ProgressData : Type := {
  timestamp : Z;
  time_pos : Z;
  duration : Z;
  percent_pos : Z;
  status : string;
  estimated : bool
}.

(** [temp_progress.json], as the script and the controller find it. *)
Inductive ProgressFile : Type :=
| Missing                       (* io.open / existsSync fail *)
| Garbled                       (* the text does not parse *)
| Snapshot (data : ProgressData).

Definition Qis0 (x : Q) : bool := Qeq_bool x 0.
Definition Qpos (x : Q) : bool := negb (Qle_bool x 0).

(** The table that [write_progress(status)] builds. *)
Definition write_progress_data (status : string) (mp : Props) (os_time : Z)
  : ProgressData :=
  let time_pos := get_property_number (prop_time_pos mp) 0 in
  let duration := get_property_number (prop_duration mp) 0 in
  let percent_pos := get_property_number (prop_percent_pos mp) 0 in
  let duration :=
    if Qis0 duration then get_property_number (prop_length mp) 0
    else duration in
  let percent_pos :=
    if Qis0 percent_pos && Qpos duration && Qpos time_pos
    then Double.mul (Double.div time_pos duration) 100
    else percent_pos in
  let percent_pos :=
    if Qis0 duration && Qpos time_pos
    then let estimated_duration := Double.mul 24 60 in
         Qmin (Double.mul (Double.div time_pos estimated_duration) 100) 99
    else percent_pos in
  {| timestamp := os_time;
     time_pos := Qfloor time_pos;
     duration := Qfloor duration;
     percent_pos := Qfloor percent_pos;
     status := status;
     estimated := Qis0 duration && Qpos time_pos |}.

(** [write_progress]: the table replaces the file when the file can be
    opened for writing.  (The script then also calls [update_history],
    which touches the history file only; see [MpvHistory].) *)
Definition write_progress (writable : bool) (file : ProgressFile)
    (status : string) (mp : Props) (os_time : Z) : ProgressFile :=
  if writable then Snapshot (write_progress_data status mp os_time)
  else file.

(** The table that the [shutdown] handler builds from the live
    properties and the file it finds. *)
Definition shutdown_data (file : ProgressFile) (mp : Props) (os_time : Z)
  : ProgressData :=
  let current_time := get_property_number (prop_time_pos mp) 0 in
  let current_duration := get_property_number (prop_duration mp) 0 in
  let current_percent := get_property_number (prop_percent_pos mp) 0 in
  let '(current_time, current_duration, current_percent) :=
    if Qis0 current_time || Qis0 current_duration then
      match file with
      | Snapshot existing_data =>
          (Qmax current_time (inject_Z (time_pos existing_data)),
           Qmax current_duration (inject_Z (duration existing_data)),
           if Qis0 current_percent
           then inject_Z (percent_pos existing_data)
           else current_percent)
      | _ => (current_time, current_duration, current_percent)
      end
    else (current_time, current_duration, current_percent) in
  let current_percent :=
    if Qis0 current_percent && Qpos current_duration && Qpos current_time
    then Double.mul (Double.div current_time current_duration) 100
    else current_percent in
  {| timestamp := os_time;
     time_pos := Qfloor current_time;
     duration := Qfloor current_duration;
     percent_pos := Qfloor current_percent;
     status := "finished";
     estimated := false |}.

Definition shutdown (writable : bool) (file : ProgressFile)
    (mp : Props) (os_time : Z) : ProgressFile :=
  if writable then Snapshot (shutdown_data file mp os_time) else file.

(** One playback session as the script sees it: the handlers that fire,
    each with the properties mpv has at that moment, then the shutdown.
    The statuses are those the handlers pass: "playing" from the 5 second
    timer, "started", "metadata_ready", "restarted",
    "duration_detected". *)
Definition session (writable : bool) (file : ProgressFile)
    (writes : list (string * Props * Z)) (last : Props * Z) : ProgressFile :=
  let file :=
    foldl (λ file '(status, mp, os_time),
             write_progress writable file status mp os_time)
          file writes in
  shutdown writable file (fst last) (snd last).

End MpvProgress.

(** ** services/player.ts *)

Module Player.

Record PlaybackOptions : Type := {
  startTime : option Z;
  animeId : option string;
  animeTitle : option string;
  animeSlug : option string;
  seasonNumber : option Z;
  episodeNumber : option Z;
  episodeTitle : option string;
  fansubName : option string
}.

Record PlaybackProgress : Type := {
  progress : Z;
  timePos : Z;
  duration : Z
}.

Inductive MpvExit : Type :=
| Close (code : Z)     (* the 'close' event *)
| SpawnError.          (* the 'error' event: the promise rejects *)

(** What one call of [playVideo] meets: whether [which mpv] succeeds,
    how the child process ends, the progress file it leaves behind, and
    how long it ran. *)
Record MpvRun : Type := {
  mpv_found : bool;
  mpv_exit : MpvExit;
  progressFile : MpvProgress.ProgressFile;
  elapsed : Z
}.

Definition zero : PlaybackProgress :=
  {| progress := 0; timePos := 0; duration := 0 |}.

(** The body of the ['close'] listener: the final values it leaves in
    [finalProgress], [finalTimePos], [finalDuration].  A file that does
    not parse throws inside the inner [try], before any assignment. *)
Definition read_final_progress (file : MpvProgress.ProgressFile)
  : PlaybackProgress :=
  match file with
  | MpvProgress.Snapshot progressData =>
      let finalTimePos :=
        Js.Math_round (inject_Z (Js.or0 (MpvProgress.time_pos progressData))) in
      let finalDuration :=
        Js.Math_round (inject_Z (Js.or0 (MpvProgress.duration progressData))) in
      let finalProgress :=
        if Z.ltb 0 finalDuration && Z.ltb 0 finalTimePos
        then Js.Math_round
               (Double.mul
                  (Double.div (inject_Z finalTimePos) (inject_Z finalDuration))
                  100)
        else Js.Math_round
               (inject_Z (Js.or0 (MpvProgress.percent_pos progressData))) in
      {| progress := finalProgress;
         timePos := finalTimePos;
         duration := finalDuration |}
  | _ => zero
  end.

(** [playVideo(url, options)]: [url] and [options] only reach the mpv
    command line; the diagnostics printed on the way are left out. *)
Definition playVideo (url : string) (options : PlaybackOptions) (run : MpvRun)
  : PlaybackProgress :=
  if negb (mpv_found run) then zero
  else
    match mpv_exit run with
    | Close code => read_final_progress (progressFile run)
    | SpawnError => zero
    end.

End Player.

(** ** utils/config.ts *)

Module Config.

Record AppConfig : Type := {
  defaultQuality : string;
  preferredPlayer : string;
  downloadPath : string;
  autoPlay : bool;
  autoPlayNextEpisode : bool;
  enableHistory : bool;
  enableDiscordRPC : bool
}.

Definition DEFAULT_CONFIG : AppConfig :=
  {| defaultQuality := "720p";
     preferredPlayer := "mpv";
     downloadPath := "./downloads";
     autoPlay := false;
     autoPlayNextEpisode := true;
     enableHistory := true;
     enableDiscordRPC := true |}.

(** [getConfig()] answers [DEFAULT_CONFIG] ("TODO: Load config from
    file").  The flows of [Core] take the object it answers as an
    argument, so that they are stated for every configuration. *)
Definition getConfig : AppConfig := DEFAULT_CONFIG.

End Config.

(** ** services/api.ts: the catalog *)

Module Api.

Record Season : Type := {
  season_number : Z;
  episode_count : Z;
  season_name : string;
  hasEpisode : bool
}.

Record AnimeDetail : Type := {
  id : string;
  english : string;
  turkish : string;
  romaji : string;
  seasons : list Season
}.

Record Episode : Type := {
  title : string;
  number : Z;
  url : string;
  seasonNumber : Z;
  episodeNumber : Z
}.

Record Fansub : Type := {
  fansub_id : string;
  fansub_name : string
}.

Record VideoFile : Type := { resolution : Z }.

Record EpisodeData : Type := {
  fansub : Fansub;
  files : list VideoFile;
  hasNextEpisode : bool
}.

Record EpisodeDetail : Type := {
  episodeData : EpisodeData;
  fansubs : list Fansub
}.

(** The remote service behind [curl]: what a request answers, [None]
    when the request or the parse of its answer throws (the functions
    below catch that and return [null]). *)
Record Catalog : Type := {
  anime : string → option AnimeDetail;
  episode : string → Z → Z → option EpisodeDetail
}.

Definition getAnimeDetail (c : Catalog) (slug : string) : option AnimeDetail :=
  anime c slug.

Definition getEpisodeDetail (c : Catalog) (slug : string)
    (seasonNumber episodeNumber : Z) : option EpisodeDetail :=
  episode c slug seasonNumber episodeNumber.

Definition getAnimeEpisodes (c : Catalog) (slug : string) (seasonNumber : Z)
  : list Episode :=
  match getAnimeDetail c slug with
  | None => []
  | Some animeDetail =>
      match list_find (λ s, season_number s = seasonNumber)
                      (seasons animeDetail) with
      | None => []
      | Some (_, season) =>
          if negb (hasEpisode season) then []
          else
            (λ i, {| title := "Episode " +:+ pretty i;
                     number := i;
                     url := "https://openani.me/anime/" +:+ slug +:+ "/"
                            +:+ pretty seasonNumber +:+ "/" +:+ pretty i;
                     seasonNumber := seasonNumber;
                     episodeNumber := i |})
            <$> seqZ 1 (episode_count season)
      end
  end.

Definition getVideoUrl (c : Catalog) (slug : string)
    (seasonNumber episodeNumber : Z) (fansubId : string) : option string :=
  match getEpisodeDetail c slug seasonNumber episodeNumber with
  | None => None
  | Some episodeDetail =>
      let targetFansubId :=
        if decide (fansubId = "") then fansub_id (fansub (episodeData episodeDetail))
        else
          match list_find (λ f, fansub_id f = fansubId) (fansubs episodeDetail) with
          | Some _ => fansubId
          | None => fansub_id (fansub (episodeData episodeDetail))
          end in
      let sortedFiles :=
        Js.sort (λ a b, resolution b - resolution a)
                (files (episodeData episodeDetail)) in
      match sortedFiles with
      | [] => None
      | bestFile :: _ =>
          Some ("https://do7---ha-k8y3jyfa-8gcx.zyapbot.eu.org/animes/"
                +:+ slug +:+ "/" +:+ pretty seasonNumber +:+ "/"
                +:+ pretty episodeNumber +:+ "-" +:+ targetFansubId +:+ "-"
                +:+ pretty (resolution bestFile) +:+ "p.mp4?big=1")
      end
  end.

End Api.

(** ** core/index.ts: playback flow and main menu *)

Module Core.

Import HistoryUtils.

(** [a || b] on strings: the empty string is falsy. *)
Definition str_or (a b : string) : string :=
  if decide (a = "") then b else a.

Definition Date_now : IO Z := Js.gets clock.

(** Time passes while the player runs. *)
Definition wait (ms : Z) : IO unit :=
  Js.modify (λ w, {| HISTORY_FILE := HISTORY_FILE w;
                     writes := writes w;
                     console := console w;
                     clock := clock w + ms |}).

(** The [historyEntry] object that [saveToHistory] builds. *)
Definition historyEntry (animeDetail : Api.AnimeDetail)
    (episodeDetail : Api.EpisodeDetail) (slug : string)
    (episode : Api.Episode) (fansubId : string)
    (progress timePos duration : Z) (now : Z) : WatchHistoryEntry :=
  let fansub :=
    list_find (λ f, Api.fansub_id f = fansubId) (Api.fansubs episodeDetail) in
  {| animeId := Api.id animeDetail;
     animeTitle :=
       str_or (Api.english animeDetail)
         (str_or (Api.turkish animeDetail) (Api.romaji animeDetail));
     animeSlug := slug;
     seasonNumber := Api.seasonNumber episode;
     episodeNumber := Api.episodeNumber episode;
     episodeTitle := Api.title episode;
     fansubName :=
       match fansub with
       | Some (_, f) => str_or (Api.fansub_name f) "Unknown"
       | None => "Unknown"
       end;
     watchedAt := now;
     HistoryUtils.progress := Z.max 0 (Z.min 100 progress);
     HistoryUtils.timePos := Z.max 0 timePos;
     HistoryUtils.duration := Z.max 0 duration |}.

(** [saveToHistory(slug, episode, fansubId, progress, timePos, duration)];
    the defaults [progress = 100], [timePos = 0], [duration = 0] are
    written out at the call sites. *)
Definition saveToHistory (c : Api.Catalog) (slug : string)
    (episode : Api.Episode) (fansubId : string)
    (progress timePos duration : Z) : IO unit :=
  Js.try_catch
    (match Api.getAnimeDetail c slug with
     | None => mret tt
     | Some animeDetail =>
         match Api.getEpisodeDetail c slug (Api.seasonNumber episode)
                                    (Api.episodeNumber episode) with
         | None => mret tt
         | Some episodeDetail =>
             now ← Date_now;
             saveWatchHistory
               (historyEntry animeDetail episodeDetail slug episode fansubId
                             progress timePos duration now);;
             console_log "Saved to watch history"
         end
     end)
    (λ error, console_error "Error saving to history:").

(** The answer to the prompt "What would you like to do?" *)
Inductive PlayAction : Set := play | copy | download | browser.

(** How [handleVideoPlayback] ends. *)
Inductive Next : Type :=
| Returns                                  (* back to the caller *)
| EpisodeSelection (nextEpisode : Api.Episode)
    (* handleEpisodeSelection(slug, nextEpisode): no episode prompt; the
       fansub and action prompts of that flow follow *)
| Download                                 (* handleDownload *)
| Exit.                                    (* process.exit(0) *)

Definition playOptions (c : Api.Catalog) (slug : string)
    (episode : Api.Episode) (fansubId : string) (startTime : option Z)
  : Player.PlaybackOptions :=
  let startTime :=
    match startTime with
    | Some t => if Z.eqb t 0 then None else Some t
    | None => None
    end in
  match Api.getAnimeDetail c slug with
  | Some animeDetail =>
      let fansub :=
        match Api.getEpisodeDetail c slug (Api.seasonNumber episode)
                                   (Api.episodeNumber episode) with
        | Some episodeDetail =>
            list_find (λ f, Api.fansub_id f = fansubId)
                      (Api.fansubs episodeDetail)
        | None => None
        end in
      {| Player.startTime := startTime;
         Player.animeId := Some (Api.id animeDetail);
         Player.animeTitle :=
           Some (str_or (Api.english animeDetail)
                   (str_or (Api.turkish animeDetail) (Api.romaji animeDetail)));
         Player.animeSlug := Some slug;
         Player.seasonNumber := Some (Api.seasonNumber episode);
         Player.episodeNumber := Some (Api.episodeNumber episode);
         Player.episodeTitle := Some (Api.title episode);
         Player.fansubName :=
           Some match fansub with
                | Some (_, f) => str_or (Api.fansub_name f) "Unknown"
                | None => "Unknown"
                end |}
  | None =>
      {| Player.startTime := startTime;
         Player.animeId := None; Player.animeTitle := None;
         Player.animeSlug := None; Player.seasonNumber := None;
         Player.episodeNumber := None; Player.episodeTitle := None;
         Player.fansubName := None |}
  end.

(** [prompts({type: 'select', message, choices})]: the question is
    printed and the user answers it, or cancels ([None]). *)
Definition prompts {A} (message : string) (answer : option A) : IO (option A) :=
  console_log message;; mret answer.

(** [handleVideoPlayback(slug, episode, fansubId, startTime)], given the
    configuration [getConfig()] answers, the answer [action] to its
    prompt and what the player does when it is started.  The presence
    updates ([discordRPC]) feed nothing back and are left out, and of the
    lines it prints only the prompt and one line for each way it goes on
    are kept.  [Download] and [Exit] stand for what follows the choice:
    the call of [handleDownload], and the browser being opened. *)
Definition handleVideoPlayback_with (config : Config.AppConfig)
    (c : Api.Catalog) (slug : string) (episode : Api.Episode)
    (fansubId : string) (startTime : option Z)
    (action : option PlayAction) (run : Player.MpvRun) : IO Next :=
  match Api.getVideoUrl c slug (Api.seasonNumber episode)
                        (Api.episodeNumber episode) fansubId with
  | None => console_log "Could not get video URL.";; mret Returns
  | Some videoUrl =>
      let episodeDetail :=
        Api.getEpisodeDetail c slug (Api.seasonNumber episode)
                             (Api.episodeNumber episode) in
      playChoice ← prompts "What would you like to do?" action;
      match playChoice with
      | Some play =>
          console_log "Starting video playback...";;
          saveToHistory c slug episode fansubId 0 0 0;;
          wait (Player.elapsed run);;
          let playbackResult :=
            Player.playVideo videoUrl
              (playOptions c slug episode fansubId startTime) run in
          saveToHistory c slug episode fansubId
            (Player.progress playbackResult)
            (Player.timePos playbackResult)
            (Player.duration playbackResult);;
          if Config.autoPlayNextEpisode config
             && Z.leb 85 (Player.progress playbackResult)
             && match episodeDetail with
                | Some d => Api.hasNextEpisode (Api.episodeData d)
                | None => false
                end
          then
            let nextEpisodeNumber := Api.episodeNumber episode + 1 in
            let episodes :=
              Api.getAnimeEpisodes c slug (Api.seasonNumber episode) in
            match list_find (λ e, Api.episodeNumber e = nextEpisodeNumber)
                            episodes with
            | Some (_, nextEpisode) =>
                console_log "Automatically playing next episode";;
                mret (EpisodeSelection nextEpisode)
            | None =>
                console_log "Could not find next episode.";;
                mret Returns
            end
          else mret Returns
      | Some copy =>
          console_log ("Video URL: " +:+ videoUrl);;
          saveToHistory c slug episode fansubId 100 0 0;;
          mret Returns
      | Some download => mret Download
      | Some browser => mret Exit
      | None => mret Returns
      end
  end.

Definition handleVideoPlayback := handleVideoPlayback_with Config.getConfig.

(** [handleEpisodeSelection(slug, episode, startTime)], given the answers
    to the fansub prompt and to the action prompt of the
    [handleVideoPlayback] it goes on to; it ends as that call ends. *)
Definition handleEpisodeSelection_with (config : Config.AppConfig)
    (c : Api.Catalog) (slug : string) (episode : Api.Episode)
    (startTime : option Z) (fansubAnswer : option string)
    (action : option PlayAction) (run : Player.MpvRun) : IO Next :=
  match Api.getEpisodeDetail c slug (Api.seasonNumber episode)
                             (Api.episodeNumber episode) with
  | None => console_log "Could not get episode details.";; mret Returns
  | Some episodeDetail =>
      match Api.fansubs episodeDetail with
      | [] => console_log "No fansubs available for this episode.";; mret Returns
      | [only] =>
          handleVideoPlayback_with config c slug episode (Api.fansub_id only)
                                   startTime action run
      | _ :: _ :: _ =>
          fansubResponse ← prompts "Select a fansub:" fansubAnswer;
          match fansubResponse with
          | Some fansubId =>
              if decide (fansubId = "") then mret Returns
              else handleVideoPlayback_with config c slug episode fansubId
                                            startTime action run
          | None => mret Returns
          end
      end
  end.

Definition handleEpisodeSelection :=
  handleEpisodeSelection_with Config.getConfig.

(** The values of the choices that [showMainMenu] offers. *)
Inductive MenuChoice : Type :=
| continue_ (entry : WatchHistoryEntry)
| separator
| history
| clear_history
| search.

(** The [choices] array that [showMainMenu] hands to its prompt. *)
Definition showMainMenu_choices : IO (list MenuChoice) :=
  lastWatched ← getLastWatchedAnime;
  continueWatching ← getContinueWatchingSuggestions;
  recentHistory ← getWatchHistory (Some 5);
  let choices := [] in
  let choices :=
    match lastWatched with
    | Some entry => choices ++ [continue_ entry; separator]
    | None => choices
    end in
  let choices :=
    if Nat.ltb 0 (length recentHistory)
    then choices ++ [history; clear_history; separator]
    else choices in
  mret (choices ++ [search]).

End Core.

(** ** Observations used to state the properties *)

Import HistoryUtils.

(** The key of a record: (animeId, seasonNumber, episodeNumber). *)
Definition key (e : WatchHistoryEntry) : string * Z * Z :=
  (animeId e, seasonNumber e, episodeNumber e).

(** The entries the backing file holds, in file order. *)
Definition stored (w : World) : list WatchHistoryEntry :=
  match HISTORY_FILE w with
  | Holds (JsonEntries l) => l
  | _ => []
  end.

(** The world a computation leaves, and the value it returns. *)
Definition after {A} (m : IO A) (w : World) : World := snd (m w).
Definition returns {A} (m : IO A) (w : World) (a : A) : Prop :=
  fst (m w) = Js.Normal a.

(** A sequence of upserts, first to last. *)
Definition upserts (es : list WatchHistoryEntry) (w : World) : World :=
  foldl (λ w e, after (saveWatchHistory e) w) w es.

(** Newest first. *)
Definition newer (a b : WatchHistoryEntry) : Prop := watchedAt b ≤ watchedAt a.

(** What [getWatchHistory(limit)] computes from the file. *)
Definition listing (limit : option Z) (f : HistoryFile) : list WatchHistoryEntry :=
  match f with
  | Holds (JsonEntries l) =>
      let sorted := Js.sort newest_first (revive <$> l) in
      match limit with
      | Some n => if Z.eqb n 0 then sorted else Js.slice0 sorted n
      | None => sorted
      end
  | _ => []
  end.

(** What [getWatchHistory] prints. *)
Definition listing_log (f : HistoryFile) : list string :=
  match f with
  | Absent | Holds (JsonEntries _) => []
  | _ => ["Error loading watch history:"]
  end.

(** [history] after the [findIndex] / [splice] of [saveWatchHistory]. *)
Definition spliced (entry : WatchHistoryEntry) (history : list WatchHistoryEntry)
  : list WatchHistoryEntry :=
  match list_find (same_episode entry) history with
  | Some (i, _) => delete i history
  | None => history
  end.

(** The array [saveWatchHistory(entry)] writes. *)
Definition upserted (entry : WatchHistoryEntry) (f : HistoryFile)
  : list WatchHistoryEntry :=
  take 50 (entry :: spliced entry (listing None f)).

(** The first entry of each anime, in order: what the [Map] of
    [getContinueWatchingSuggestions] holds after the loop, started from
    [m]. *)
Definition collect (m : AnimeMap) (l : list WatchHistoryEntry) : AnimeMap :=
  foldl (λ animeMap entry,
           if negb (Map_has animeMap (animeId entry))
           then Map_set animeMap (animeId entry) entry
           else animeMap) m l.

(** ** Sample data for the concrete runs *)

Module Sample.

Definition entry (id : string) (episodeNumber watchedAt progress timePos
                  duration : Z) : WatchHistoryEntry :=
  {| animeId := id; animeTitle := "Title of " +:+ id; animeSlug := id;
     seasonNumber := 1; episodeNumber := episodeNumber;
     episodeTitle := "Episode " +:+ pretty episodeNumber;
     fansubName := "Subs"; watchedAt := watchedAt;
     progress := progress; timePos := timePos; duration := duration |}.

Definition world (f : HistoryFile) : World :=
  {| HISTORY_FILE := f; writes := []; console := []; clock := 5000 |}.

Definition holding (l : list WatchHistoryEntry) : World :=
  world (Holds (JsonEntries l)).

(** Fifty records of fifty anime, in no particular order of time. *)
Definition fifty : list WatchHistoryEntry :=
  (λ i, entry ("anime-" +:+ pretty i) 1 ((i * 37) `mod` 101) 100 1440 1440)
  <$> seqZ 1 50.

Definition subs : Api.Fansub :=
  {| Api.fansub_id := "f1"; Api.fansub_name := "Subs" |}.

(** A catalog with one anime of one season of 12 episodes; [hasNext] is
    what the episode details say of a next episode. *)
Definition catalog (hasNext : bool) : Api.Catalog :=
  {| Api.anime := λ slug,
       if decide (slug = "frieren")
       then Some {| Api.id := "a1"; Api.english := "Frieren";
                    Api.turkish := ""; Api.romaji := "Sousou no Frieren";
                    Api.seasons :=
                      [{| Api.season_number := 1; Api.episode_count := 12;
                          Api.season_name := "Season 1";
                          Api.hasEpisode := true |}] |}
       else None;
     Api.episode := λ slug s e,
       if decide (slug = "frieren")
       then Some {| Api.episodeData :=
                      {| Api.fansub := subs;
                         Api.files := [{| Api.resolution := 720 |};
                                       {| Api.resolution := 1080 |}];
                         Api.hasNextEpisode := hasNext |};
                    Api.fansubs := [subs] |}
       else None |}.

Definition episode (i : Z) : Api.Episode :=
  {| Api.title := "Episode " +:+ pretty i; Api.number := i;
     Api.url := "https://openani.me/anime/frieren/1/" +:+ pretty i;
     Api.seasonNumber := 1; Api.episodeNumber := i |}.

Definition snapshot (status : string) (time_pos duration percent_pos : Z)
  : MpvProgress.ProgressData :=
  {| MpvProgress.timestamp := 0; MpvProgress.time_pos := time_pos;
     MpvProgress.duration := duration; MpvProgress.percent_pos := percent_pos;
     MpvProgress.status := status; MpvProgress.estimated := false |}.

(** mpv is found, exits with code 0 and leaves the given snapshot. *)
Definition mpv (time_pos duration percent_pos : Z) : Player.MpvRun :=
  {| Player.mpv_found := true; Player.mpv_exit := Player.Close 0;
     Player.progressFile :=
       MpvProgress.Snapshot (snapshot "finished" time_pos duration percent_pos);
     Player.elapsed := 1000 * time_pos |}.

Definition no_options : Player.PlaybackOptions :=
  {| Player.startTime := None; Player.animeId := None;
     Player.animeTitle := None; Player.animeSlug := None;
     Player.seasonNumber := None; Player.episodeNumber := None;
     Player.episodeTitle := None; Player.fansubName := None |}.


(** The double nearest to 129.6, a position in seconds. *)
Definition seconds_129_6 : Q := Double.round (1296 # 10).

(** The live properties of a player at [time_pos] seconds of
    [duration]; [None] is a property mpv does not have. *)
Definition props (time_pos duration : option Q) : MpvProgress.Props :=
  {| MpvProgress.prop_time_pos := time_pos;
     MpvProgress.prop_duration := duration;
     MpvProgress.prop_length := None;
     MpvProgress.prop_percent_pos := None |}.

End Sample.

(** A file that cannot be read, or whose content cannot be parsed into
    entries. *)
Definition unusable (f : HistoryFile) : Prop :=
  f = Unreadable ∨ f = Holds NotJson ∨ f = Holds JsonOther.

(** ** services/mpv-progress.lua: the script's writes to the history file *)

Module MpvHistory.

Import HistoryUtils.

(** The script options the controller passes on the mpv command line. *)
Record Opts : Type := {
  progress_file : string;
  history_file : string;
  anime_slug : string;
  season_number : Z;
  episode_number : Z;
  anime_id : string;
  anime_title : string;
  episode_title : string;
  fansub_name : string
}.

(** The table [update_history] starts from: what the history file
    parses to, and the empty table when the file cannot be opened or its
    text does not parse.  A JSON value that is not an array of entries
    is left open ([None]): what the loop does with it depends on the
    value. *)
Definition read_history (f : HistoryFile) : option (list WatchHistoryEntry) :=
  match f with
  | Absent | Unreadable | Holds NotJson => Some []
  | Holds JsonOther => None
  | Holds (JsonEntries l) => Some l
  end.

(** The key of the episode being played. *)
Definition opts_key (opts : Opts) : string * Z * Z :=
  (anime_id opts, season_number opts, episode_number opts).

(** The test of the loop over the entries. *)
Definition current (opts : Opts) (entry : WatchHistoryEntry) : Prop :=
  animeId entry = anime_id opts ∧
  seasonNumber entry = season_number opts ∧
  episodeNumber entry = episode_number opts.

#[global] Instance current_dec opts entry : Decision (current opts entry).
Proof. unfold current. apply _. Defined.

(** [os.date] with the UTC ISO format of the script, as the [Date] it
    parses to. *)
Definition os_date (os_time : Z) : Z := 1000 * os_time.

(** The assignments to the entry found. *)
Definition progressed (entry : WatchHistoryEntry)
    (time_pos duration percent_pos : Q) (os_time : Z) : WatchHistoryEntry :=
  {| animeId := animeId entry;
     animeTitle := animeTitle entry;
     animeSlug := animeSlug entry;
     seasonNumber := seasonNumber entry;
     episodeNumber := episodeNumber entry;
     episodeTitle := episodeTitle entry;
     fansubName := fansubName entry;
     watchedAt := os_date os_time;
     progress := Qfloor percent_pos;
     timePos := Qfloor time_pos;
     HistoryUtils.duration := Qfloor duration |}.

Definition new_entry (opts : Opts) (time_pos duration percent_pos : Q)
    (os_time : Z) : WatchHistoryEntry :=
  {| animeId := anime_id opts;
     animeTitle := anime_title opts;
     animeSlug := anime_slug opts;
     seasonNumber := season_number opts;
     episodeNumber := episode_number opts;
     episodeTitle := episode_title opts;
     fansubName := fansub_name opts;
     watchedAt := os_date os_time;
     progress := Qfloor percent_pos;
     timePos := Qfloor time_pos;
     HistoryUtils.duration := Qfloor duration |}.

(** [update_history(time_pos, duration, percent_pos)] on the history
    file; [writable] is whether the file can be opened for writing. *)
Definition update_history (opts : Opts) (writable : bool) (f : HistoryFile)
    (time_pos duration percent_pos : Q) (os_time : Z) : option HistoryFile :=
  if decide (history_file opts = "") then Some f
  else if decide (anime_id opts = "") then Some f
  else
    match read_history f with
    | None => None
    | Some history =>
        let history :=
          match list_find (current opts) history with
          | Some (i, entry) =>
              <[i := progressed entry time_pos duration percent_pos os_time]>
                history
          | None =>
              (* table.insert(history, 1, new_entry) *)
              new_entry opts time_pos duration percent_pos os_time :: history
          end in
        Some (if writable then Holds (JsonEntries history) else f)
    end.

(** The calls of [update_history] during one playback, one for every
    [write_progress], each with the values and the time of that call. *)
Definition updates (opts : Opts) (writable : bool) (f : HistoryFile)
    (calls : list (Q * Q * Q * Z)) : option HistoryFile :=
  foldl (λ file '(time_pos, duration, percent_pos, os_time),
           file ≫= λ f,
             update_history opts writable f time_pos duration percent_pos
                            os_time)
        (Some f) calls.

(** The world of the CLI process once the script has left the history
    file as [f]. *)
Definition script_left (f : HistoryFile) (w : World) : World :=
  {| HISTORY_FILE := f; writes := writes w; console := console w;
     clock := clock w |}.

End MpvHistory.

(** ** core/index.ts: continuing from a history record *)

Module Continue.

Import HistoryUtils Core.

(** The values of the choices of [continuePreviousWatch]. *)
Inductive ContinueAction : Set := resume | next | rewatch | choose.

#[global] Instance ContinueAction_eq_dec : EqDecision ContinueAction.
Proof. solve_decision. Defined.

(** [entry.timePos && entry.duration && entry.progress < 90] *)
Definition resumable (entry : WatchHistoryEntry) : bool :=
  negb (Z.eqb (timePos entry) 0) && negb (Z.eqb (duration entry) 0)
  && Z.ltb (progress entry) 90.

(** The [choices] array that [continuePreviousWatch] hands to its
    prompt. *)
Definition continuePreviousWatch_choices (entry : WatchHistoryEntry)
  : list ContinueAction :=
  let choices := [] in
  let choices := if resumable entry then choices ++ [resume] else choices in
  let choices := choices ++ [next] in
  let choices := choices ++ [rewatch] in
  choices ++ [choose].

(** Where [continuePreviousWatch] goes on. *)
Inductive Goes : Type :=
| ToEpisode (slug : string) (episode : Api.Episode) (startTime : option Z)
    (* handleEpisodeSelection(slug, episode, startTime) *)
| ToSeason (slug : string) (seasonNumber : Z)
    (* handleSeasonSelection(slug, seasonNumber, ...) *)
| Nowhere.

(** [continuePreviousWatch(entry)], given the answer to its prompt; of
    the lines it prints before the prompt only the first is kept. *)
Definition continuePreviousWatch (c : Api.Catalog) (entry : WatchHistoryEntry)
    (action : option ContinueAction) : IO Goes :=
  console_log ("Continuing: " +:+ animeTitle entry);;
  choice ← prompts "What would you like to do?" action;
  let episodes :=
    Api.getAnimeEpisodes c (animeSlug entry) (seasonNumber entry) in
  match choice with
  | Some resume =>
      match list_find (λ e, Api.episodeNumber e = episodeNumber entry)
                      episodes with
      | Some (_, episode) =>
          mret (ToEpisode (animeSlug entry) episode (Some (timePos entry)))
      | None =>
          console_log "Could not find episode to resume";; mret Nowhere
      end
  | Some next =>
      let nextEpisodeNumber := episodeNumber entry + 1 in
      match list_find (λ e, Api.episodeNumber e = nextEpisodeNumber)
                      episodes with
      | Some (_, nextEpisode) =>
          console_log "Automatically playing next episode";;
          mret (ToEpisode (animeSlug entry) nextEpisode None)
      | None =>
          console_log "Could not find next episode, going to episode selection";;
          mret (ToSeason (animeSlug entry) (seasonNumber entry))
      end
  | Some rewatch =>
      match list_find (λ e, Api.episodeNumber e = episodeNumber entry)
                      episodes with
      | Some (_, currentEpisode) =>
          mret (ToEpisode (animeSlug entry) currentEpisode None)
      | None => mret (ToSeason (animeSlug entry) (seasonNumber entry))
      end
  | Some choose => mret (ToSeason (animeSlug entry) (seasonNumber entry))
  | None => mret Nowhere
  end.

End Continue.

(** ** utils/fileUtils.ts: file names *)

Module FileUtils.

(** A JavaScript string: its UTF-16 code units. *)
Definition JsString := list N.

Definition underscore : N := 95.

(** The character class of the first replace: less-than, greater-than,
    colon, double quote, slash, backslash, bar, question mark, star. *)
Definition reserved (c : N) : bool :=
  bool_decide (c ∈ [60; 62; 58; 34; 47; 92; 124; 63; 42]%N).

(** The class [\s], which is also what [trim] strips: white space and
    line terminators. *)
Definition white (c : N) : bool :=
  bool_decide (c ∈ [9; 10; 11; 12; 13; 32; 160; 5760; 8232; 8233; 8239;
                    8287; 12288; 65279]%N)
  || (N.leb 8192 c && N.leb c 8202).

(** The first replace: every character of that class becomes an
    underscore. *)
Definition replace_reserved (s : JsString) : JsString :=
  (λ c, if reserved c then underscore else c) <$> s.

(** [s.replace(/\s+/g, '_')]: every maximal run of white space becomes one
    underscore; [in_run] says that the code unit before was white. *)
Fixpoint replace_white_runs (in_run : bool) (s : JsString) : JsString :=
  match s with
  | [] => []
  | c :: s' =>
      if white c
      then (if in_run then replace_white_runs true s'
            else underscore :: replace_white_runs true s')
      else c :: replace_white_runs false s'
  end.

Fixpoint trimStart (s : JsString) : JsString :=
  match s with
  | [] => []
  | c :: s' => if white c then trimStart s' else s
  end.

Definition trim (s : JsString) : JsString :=
  reverse (trimStart (reverse (trimStart s))).

Definition sanitizeFilename (filename : JsString) : JsString :=
  trim (replace_white_runs false (replace_reserved filename)).

(** A code unit that neither replace touches. *)
Definition plain (c : N) : Prop := reserved c = false ∧ white c = false.

End FileUtils.

(** ** Observations on the catalog and on the script *)

(** The episode that [getAnimeEpisodes] lists at number [k]. *)
Definition listed_episode (slug : string) (seasonNumber k : Z) : Api.Episode :=
  {| Api.title := "Episode " +:+ pretty k;
     Api.number := k;
     Api.url := "https://openani.me/anime/" +:+ slug +:+ "/"
                +:+ pretty seasonNumber +:+ "/" +:+ pretty k;
     Api.seasonNumber := seasonNumber;
     Api.episodeNumber := k |}.

(** The values [write_progress] has in [time_pos], [duration] and
    [percent_pos] when it builds its table, which are also the arguments
    of its call of [update_history]. *)
Definition written_values (mp : MpvProgress.Props) : Q * Q * Q :=
  let time_pos :=
    MpvProgress.get_property_number (MpvProgress.prop_time_pos mp) 0 in
  let duration :=
    MpvProgress.get_property_number (MpvProgress.prop_duration mp) 0 in
  let percent_pos :=
    MpvProgress.get_property_number (MpvProgress.prop_percent_pos mp) 0 in
  let duration :=
    if MpvProgress.Qis0 duration
    then MpvProgress.get_property_number (MpvProgress.prop_length mp) 0
    else duration in
  let percent_pos :=
    if MpvProgress.Qis0 percent_pos && MpvProgress.Qpos duration
       && MpvProgress.Qpos time_pos
    then Double.mul (Double.div time_pos duration) 100
    else percent_pos in
  let percent_pos :=
    if MpvProgress.Qis0 duration && MpvProgress.Qpos time_pos
    then let estimated_duration := Double.mul 24 60 in
         Qmin (Double.mul (Double.div time_pos estimated_duration) 100) 99
    else percent_pos in
  (time_pos, duration, percent_pos).

(** The whole of [write_progress(status)]: the progress file, then the
    history file; [os_time] is the clock at the first write and
    [os_time'] at the second. *)
Definition write_progress_both (opts : MpvHistory.Opts)
    (progress_writable history_writable : bool)
    (files : MpvProgress.ProgressFile * HistoryFile)
    (status : string) (mp : MpvProgress.Props) (os_time os_time' : Z)
  : MpvProgress.ProgressFile * option HistoryFile :=
  let '(time_pos, duration, percent_pos) := written_values mp in
  (MpvProgress.write_progress progress_writable (fst files) status mp os_time,
   MpvHistory.update_history opts history_writable (snd files)
     time_pos duration percent_pos os_time').

(** ** More sample data *)

Module Demo.

Definition opts : MpvHistory.Opts :=
  {| MpvHistory.progress_file := "/tmp/temp_progress.json";
     MpvHistory.history_file := "/home/user/.openanime-cli/watch-history.json";
     MpvHistory.anime_slug := "frieren";
     MpvHistory.season_number := 1;
     MpvHistory.episode_number := 1;
     MpvHistory.anime_id := "a1";
     MpvHistory.anime_title := "Frieren";
     MpvHistory.episode_title := "Episode 1";
     MpvHistory.fansub_name := "Subs" |}.

(** Two records of two anime, the older one first in the file. *)
Definition two : list WatchHistoryEntry :=
  [Sample.entry "a1" 1 100 40 576 1440; Sample.entry "b2" 3 200 100 1440 1440].

Definition frieren : Api.AnimeDetail :=
  {| Api.id := "a1"; Api.english := "Frieren"; Api.turkish := "";
     Api.romaji := "Sousou no Frieren";
     Api.seasons :=
       [{| Api.season_number := 1; Api.episode_count := 12;
           Api.season_name := "Season 1"; Api.hasEpisode := true |}] |}.

Definition frieren_episode : Api.EpisodeDetail :=
  {| Api.episodeData :=
       {| Api.fansub := Sample.subs;
          Api.files := [{| Api.resolution := 720 |};
                        {| Api.resolution := 1080 |}];
          Api.hasNextEpisode := true |};
     Api.fansubs := [Sample.subs] |}.

Definition frieren_url : string :=
  "https://do7---ha-k8y3jyfa-8gcx.zyapbot.eu.org/animes/frieren/1/1-f1-1080p.mp4?big=1".

(** The code units of " a<b  c.mp4 ": a blank at each end, a reserved
    character and a run of two blanks inside. *)
Definition messy_name : FileUtils.JsString :=
  [32; 97; 60; 98; 32; 32; 99; 46; 109; 112; 52; 32]%N.

(** The code units of "_a_b_c.mp4_". *)
Definition clean_name : FileUtils.JsString :=
  [95; 97; 95; 98; 95; 99; 46; 109; 112; 52; 95]%N.

End Demo.

(** * Properties *)

(** ** The runtime helpers *)

Lemma or0_id (x : Z) : Js.or0 x = x.
Proof. unfold Js.or0. destruct (Z.eqb_spec x 0); congruence. Qed.

Lemma Math_round_inject_Z (z : Z) : Js.Math_round (inject_Z z) = z.
Proof.
  unfold Js.Math_round, Qfloor, inject_Z, Qplus; simpl.
  symmetry. apply Z.div_unique with (r := 1); lia.
Qed.

Lemma slice0_nonneg {A} (l : list A) (n : Z) :
  0 ≤ n → Js.slice0 l n = take (Z.to_nat n) l.
Proof. intros Hn. unfold Js.slice0. destruct (Z.ltb_spec n 0); [lia | done]. Qed.

Section SortFacts.
Context {A : Type} (cmp : A → A → Z).

Lemma sort_insert_perm (x : A) (l : list A) :
  Js.sort_insert cmp x l ≡ₚ x :: l.
Proof.
  induction l as [|y l IH]; simpl; [done|].
  destruct (Z.leb _ _); [done|].
  rewrite IH. apply Permutation_swap.
Qed.

Lemma sort_perm (l : list A) : Js.sort cmp l ≡ₚ l.
Proof.
  induction l as [|x l IH]; simpl; [done|].
  rewrite sort_insert_perm. by f_equiv.
Qed.
End SortFacts.

Section SortDescending.
Context {A : Type} (f : A → Z).

Let cmp (a b : A) : Z := f b - f a.
Let R (a b : A) : Prop := f b ≤ f a.

Lemma sort_insert_sorted (x : A) (l : list A) :
  StronglySorted R l → StronglySorted R (Js.sort_insert cmp x l).
Proof.
  induction 1 as [|y l Hl IH Hy]; simpl.
  - repeat constructor.
  - subst cmp R; simpl in *. destruct (Z.leb_spec (f y - f x) 0).
    + constructor; [by constructor|].
      constructor; [lia|].
      eapply Forall_impl; [exact Hy|]. simpl; intros; lia.
    + constructor; [done|].
      rewrite sort_insert_perm. constructor; [lia | done].
Qed.

Lemma sort_sorted (l : list A) : StronglySorted R (Js.sort cmp l).
Proof.
  induction l as [|x l IH]; simpl; [constructor|].
  by apply sort_insert_sorted.
Qed.
End SortDescending.

(** ** The history store *)

Lemma revive_id (e : WatchHistoryEntry) : revive e = e.
Proof. destruct e; unfold revive; simpl. by rewrite !or0_id. Qed.

Lemma revive_fmap (l : list WatchHistoryEntry) : revive <$> l = l.
Proof. induction l as [|e l IH]; csimpl; [done|]. by rewrite revive_id, IH. Qed.

Lemma listing_sorted (f : HistoryFile) : StronglySorted newer (listing None f).
Proof.
  destruct f as [| |[| |l]]; simpl; try constructor.
  apply (sort_sorted watchedAt).
Qed.

Lemma listing_perm (w : World) : listing None (HISTORY_FILE w) ≡ₚ stored w.
Proof.
  unfold stored, listing. destruct (HISTORY_FILE w) as [| |[| |l]]; try done.
  by rewrite sort_perm, revive_fmap.
Qed.

(** [getWatchHistory] always returns: the listing, with one line printed
    when reading or parsing failed. *)
Lemma getWatchHistory_run (limit : option Z) (w : World) :
  getWatchHistory limit w =
  (Js.Normal (listing limit (HISTORY_FILE w)),
   {| HISTORY_FILE := HISTORY_FILE w;
      writes := writes w;
      console := console w ++ listing_log (HISTORY_FILE w);
      clock := clock w |}).
Proof.
  destruct w as [f ws out t]; simpl.
  destruct f as [| |[| |l]]; cbn; rewrite ?app_nil_r; done.
Qed.

Lemma saveWatchHistory_run (entry : WatchHistoryEntry) (w : World) :
  saveWatchHistory entry w =
  (Js.Normal tt,
   {| HISTORY_FILE := Holds (JsonEntries (upserted entry (HISTORY_FILE w)));
      writes := writes w ++ [upserted entry (HISTORY_FILE w)];
      console := (console w ++ listing_log (HISTORY_FILE w))
                 ++ ["Saved to watch history"];
      clock := clock w |}).
Proof.
  unfold saveWatchHistory, Js.try_catch.
  unfold mbind, Js.M_bind, Js.bind at 1.
  rewrite getWatchHistory_run. reflexivity.
Qed.

Lemma same_episode_key (entry h : WatchHistoryEntry) :
  same_episode entry h ↔ key h = key entry.
Proof. unfold same_episode, key. split; [intros (-> & -> & ->); done | naive_solver]. Qed.

Lemma spliced_sublist (entry : WatchHistoryEntry) (history : list WatchHistoryEntry) :
  spliced entry history `sublist_of` history.
Proof.
  unfold spliced. destruct (list_find _ _) as [[i x]|]; [apply sublist_delete | done].
Qed.

(** In a history with one record per key, the splice leaves no record
    with the key of [entry]. *)
Lemma spliced_fresh (entry : WatchHistoryEntry) (history : list WatchHistoryEntry) :
  NoDup (key <$> history) →
  key entry ∉ key <$> spliced entry history.
Proof.
  intros Hnd. unfold spliced.
  destruct (list_find _ _) as [[i x]|] eqn:Hfind.
  - apply list_find_Some in Hfind as (Hi & Hx & _).
    apply same_episode_key in Hx.
    rewrite delete_take_drop.
    rewrite <- (take_drop_middle _ _ _ Hi) in Hnd.
    rewrite fmap_app, fmap_cons, Hx in Hnd.
    apply NoDup_app in Hnd as (_ & Hl & Hr).
    apply NoDup_cons in Hr as [Hr _].
    rewrite fmap_app, elem_of_app. intros [H|H]; [|done].
    apply (Hl _ H). left.
  - apply list_find_None in Hfind.
    rewrite list_elem_of_fmap. intros (h & Hk & Hh).
    rewrite Forall_forall in Hfind. apply (Hfind h Hh).
    by apply same_episode_key.
Qed.

Lemma spliced_absent (entry : WatchHistoryEntry) (history : list WatchHistoryEntry) :
  key entry ∉ key <$> history → spliced entry history = history.
Proof.
  intros Hk. unfold spliced.
  destruct (list_find _ _) as [[i x]|] eqn:Hfind; [|done].
  apply list_find_Some in Hfind as (Hi & Hx & _).
  apply same_episode_key in Hx. exfalso. apply Hk.
  rewrite <- Hx. apply list_elem_of_fmap_2. by eapply list_elem_of_lookup_2.
Qed.

Lemma filter_none {A} (P : A → Prop) `{∀ x, Decision (P x)} (l : list A) :
  (∀ x, x ∈ l → ¬ P x) → filter P l = [].
Proof.
  induction l as [|x l IH]; intros Hl; [done|].
  rewrite filter_cons_False; [|apply Hl; left].
  apply IH. intros y Hy. apply Hl. by right.
Qed.

Lemma upserted_NoDup (entry : WatchHistoryEntry) (w : World) :
  NoDup (key <$> stored w) →
  NoDup (key <$> upserted entry (HISTORY_FILE w)).
Proof.
  intros Hnd. rewrite <- (listing_perm w) in Hnd.
  unfold upserted.
  eapply sublist_NoDup; [|apply fmap_sublist, sublist_take].
  rewrite fmap_cons. apply NoDup_cons. split.
  - by apply spliced_fresh.
  - eapply sublist_NoDup; [done | apply fmap_sublist, spliced_sublist].
Qed.

Lemma upserted_filter (entry : WatchHistoryEntry) (w : World) :
  NoDup (key <$> stored w) →
  filter (λ h, key h = key entry) (upserted entry (HISTORY_FILE w)) = [entry].
Proof.
  intros Hnd. rewrite <- (listing_perm w) in Hnd.
  unfold upserted. change (take 50 (entry :: ?l)) with (entry :: take 49 l).
  rewrite filter_cons_True by done. f_equal.
  apply filter_none. intros h Hh Hk.
  apply (spliced_fresh entry _ Hnd). rewrite <- Hk.
  apply list_elem_of_fmap_2. eapply elem_of_sublist; [exact Hh | apply sublist_take].
Qed.

Lemma stored_after_save (entry : WatchHistoryEntry) (w : World) :
  stored (after (saveWatchHistory entry) w) = upserted entry (HISTORY_FILE w).
Proof. unfold after. by rewrite saveWatchHistory_run. Qed.

Lemma upserts_NoDup (es : list WatchHistoryEntry) (w : World) :
  NoDup (key <$> stored w) → NoDup (key <$> stored (upserts es w)).
Proof.
  revert w. induction es as [|e es IH]; intros w Hnd; [done|].
  simpl. apply IH. rewrite stored_after_save. by apply upserted_NoDup.
Qed.

(** C1: starting from a store with one record per key (an absent or
    unreadable file among them), after every sequence of upserts the
    persisted history has at most one record per key, and the listing holds
    exactly one record with the key of the last upserted record: that
    record itself. *)
Theorem C1_upsert_one_record_per_key (w : World) (es : list WatchHistoryEntry) :
  NoDup (key <$> stored w) →
  NoDup (key <$> stored (upserts es w)) ∧
  ∃ l, returns (getWatchHistory None) (upserts es w) l ∧
       NoDup (key <$> l) ∧
       ∀ es0 e, es = es0 ++ [e] → filter (λ h, key h = key e) l = [e].
Proof.
  intros Hnd. split; [by apply upserts_NoDup|].
  exists (listing None (HISTORY_FILE (upserts es w))). split; [|split].
  - unfold returns. by rewrite getWatchHistory_run.
  - rewrite listing_perm. by apply upserts_NoDup.
  - intros es0 e ->. unfold upserts. rewrite foldl_app. simpl.
    fold (upserts es0 w).
    apply Permutation_singleton_r.
    rewrite listing_perm, stored_after_save.
    rewrite upserted_filter; [done|]. by apply upserts_NoDup.
Qed.

Lemma stored_length_listing (w : World) :
  length (listing None (HISTORY_FILE w)) = length (stored w).
Proof. by rewrite listing_perm. Qed.

(** A list of length [S n] is its first [n] elements and a last one. *)
Lemma split_last {A} (n : nat) (l : list A) :
  length l = S n → ∃ x, l = take n l ++ [x].
Proof.
  intros Hlen.
  assert (Hd : length (drop n l) = 1%nat) by (rewrite length_drop; lia).
  destruct (drop n l) as [|x [|y k]] eqn:E; simplify_eq/=.
  exists x. rewrite <- E. symmetry. apply take_drop.
Qed.

(** C2: an upsert leaves at most 50 records, whatever the store held;
    when the store holds 50 records and the key is new, the record that
    goes is the last of the newest-first listing, and no stored record is
    older than it. *)
Theorem C2_upsert_cap_evicts_oldest (w : World) (e : WatchHistoryEntry) :
  (length (stored (after (saveWatchHistory e) w)) ≤ 50)%nat ∧
  (length (stored w) = 50%nat → key e ∉ key <$> stored w →
   ∃ kept dropped,
     returns (getWatchHistory None) w (kept ++ [dropped]) ∧
     stored (after (saveWatchHistory e) w) = e :: kept ∧
     dropped ∈ stored w ∧
     Forall (λ h, watchedAt dropped ≤ watchedAt h) (stored w)).
Proof.
  rewrite stored_after_save. split.
  { unfold upserted. rewrite length_take. lia. }
  intros Hlen Hnew.
  assert (Hnew' : key e ∉ key <$> listing None (HISTORY_FILE w))
    by (by rewrite listing_perm).
  pose proof (stored_length_listing w) as Hl. rewrite Hlen in Hl.
  destruct (split_last 49 _ Hl) as [dropped Hsplit].
  set (kept := take 49 (listing None (HISTORY_FILE w))) in *.
  exists kept, dropped.
  pose proof (listing_sorted (HISTORY_FILE w)) as Hs.
  split; [|split; [|split]].
  - unfold returns. rewrite getWatchHistory_run. simpl. by f_equal.
  - unfold upserted. by rewrite spliced_absent.
  - rewrite <- listing_perm, Hsplit. apply elem_of_app. right. left.
  - rewrite <- listing_perm, Hsplit. rewrite Hsplit in Hs.
    apply Forall_app. split.
    + apply Forall_forall. intros x Hx.
      apply (StronglySorted_app_1_elem_of _ _ _ _ _ Hs Hx). left.
    + by repeat constructor.
Qed.

(** C9, as the code has it: [getWatchHistory] returns normally in every
    state of the backing file and leaves the file alone; an absent file
    gives the empty list and prints nothing, a file that cannot be read or
    parsed gives the empty list and prints one error line. *)
Theorem C9_getWatchHistory_fails_soft (limit : option Z) (w : World) :
  ∃ l, returns (getWatchHistory limit) w l ∧
       HISTORY_FILE (after (getWatchHistory limit) w) = HISTORY_FILE w ∧
       (HISTORY_FILE w = Absent →
        l = [] ∧ console (after (getWatchHistory limit) w) = console w) ∧
       (unusable (HISTORY_FILE w) →
        l = [] ∧
        console (after (getWatchHistory limit) w) =
          console w ++ ["Error loading watch history:"]).
Proof.
  exists (listing limit (HISTORY_FILE w)).
  unfold returns, after. rewrite getWatchHistory_run. simpl.
  split; [done|]. split; [done|]. split.
  - intros ->. simpl. by rewrite app_nil_r.
  - by intros [-> | [-> | ->]].
Qed.

(** ** Continue-watching suggestions *)

Lemma StronglySorted_sublist {A} (R : relation A) (l1 l2 : list A) :
  l1 `sublist_of` l2 → StronglySorted R l2 → StronglySorted R l1.
Proof.
  induction 1 as [|x l1 l2 Hsub IH|x l1 l2 Hsub IH]; intros Hs.
  - constructor.
  - apply StronglySorted_inv in Hs as [Hs Hx]. constructor; [by apply IH|].
    apply Forall_forall. intros y Hy. rewrite Forall_forall in Hx.
    apply Hx. by eapply elem_of_sublist.
  - apply StronglySorted_inv in Hs as [Hs _]. by apply IH.
Qed.

Lemma Map_has_spec (m : AnimeMap) (k : string) :
  Map_has m k = true ↔ k ∈ m.*1.
Proof. unfold Map_has. by rewrite bool_decide_eq_true. Qed.

Lemma Map_set_fresh (m : AnimeMap) (k : string) (v : WatchHistoryEntry) :
  k ∉ m.*1 → Map_set m k v = m ++ [(k, v)].
Proof.
  induction m as [|[k' v'] m IH]; csimpl; intros Hk; [done|].
  apply not_elem_of_cons in Hk as [Hne Hk].
  destruct (decide (k' = k)); [congruence|]. by rewrite IH.
Qed.

(** The loop of [getContinueWatchingSuggestions] over a newest-first
    history: it appends to the map, in order, the first entry of every
    anime the map does not have yet. *)
Lemma collect_spec (l : list WatchHistoryEntry) :
  ∀ m : AnimeMap,
    StronglySorted newer l →
    ∃ rest,
      collect m l = m ++ ((λ r, (animeId r, r)) <$> rest) ∧
      rest `sublist_of` l ∧
      NoDup (animeId <$> rest) ∧
      Forall (λ r, (animeId r ∉ m.*1) ∧
                   (∀ h, h ∈ l → animeId h = animeId r →
                         watchedAt h ≤ watchedAt r)) rest.
Proof.
  induction l as [|x l IH]; intros m Hs.
  - exists []. simpl. rewrite app_nil_r. repeat split; constructor.
  - apply StronglySorted_inv in Hs as [Hs Hx]. rewrite Forall_forall in Hx.
    unfold collect. simpl. fold (collect).
    destruct (Map_has m (animeId x)) eqn:Hhas; simpl.
    + apply Map_has_spec in Hhas.
      destruct (IH m Hs) as (rest & Heq & Hsub & Hnd & Hall).
      exists rest. split; [exact Heq|]. split; [by apply sublist_cons|].
      split; [done|].
      eapply Forall_impl; [exact Hall|]. simpl.
      intros r [Hr Hmax]. split; [done|].
      intros h [->|Hh]%elem_of_cons Hid; [|by apply Hmax].
      exfalso. apply Hr. by rewrite <- Hid.
    + assert (Hfresh : animeId x ∉ m.*1).
      { intros H%Map_has_spec. congruence. }
      rewrite Map_set_fresh by done.
      destruct (IH (m ++ [(animeId x, x)]) Hs) as (rest & Heq & Hsub & Hnd & Hall).
      exists (x :: rest). split; [|split; [|split]].
      * unfold collect in Heq. rewrite Heq. csimpl. by rewrite <- app_assoc.
      * by apply sublist_skip.
      * csimpl. apply NoDup_cons. split; [|done].
        intros (r & Hid & Hr)%list_elem_of_fmap.
        rewrite Forall_forall in Hall. destruct (Hall r Hr) as [Hk _].
        apply Hk. rewrite fmap_app, elem_of_app. right. csimpl. rewrite <- Hid. left.
      * constructor.
        -- split; [done|]. intros h [->|Hh]%elem_of_cons _; [lia|].
           apply (Hx h Hh).
        -- eapply Forall_impl; [exact Hall|]. simpl.
           intros r [Hr Hmax].
           rewrite fmap_app, elem_of_app in Hr. csimpl in Hr.
           split; [tauto|].
           intros h [->|Hh]%elem_of_cons Hid; [|by apply Hmax].
           exfalso. apply Hr. right. rewrite Hid. left.
Qed.

Lemma getContinueWatchingSuggestions_run (w : World) :
  fst (getContinueWatchingSuggestions w) =
  Js.Normal (take 5 (Map_values (collect [] (listing None (HISTORY_FILE w))))).
Proof.
  unfold getContinueWatchingSuggestions.
  unfold mbind, Js.M_bind, Js.bind. rewrite getWatchHistory_run. reflexivity.
Qed.

(** The loop leaves no anime of the history out: the map has the keys it
    started with and the anime of every entry. *)
Lemma collect_keys (l : list WatchHistoryEntry) :
  ∀ (m : AnimeMap) (k : string),
    k ∈ m.*1 ∨ k ∈ animeId <$> l → k ∈ (collect m l).*1.
Proof.
  induction l as [|x l IH]; intros m k Hk.
  - destruct Hk as [Hk|Hk]; [done | by apply elem_of_nil in Hk].
  - unfold collect. simpl. fold (collect).
    apply IH. csimpl in Hk. rewrite elem_of_cons in Hk.
    destruct (Map_has m (animeId x)) eqn:Hhas; simpl.
    + apply Map_has_spec in Hhas. destruct Hk as [?|[->|?]]; auto.
    + assert (Hfresh : animeId x ∉ m.*1).
      { intros H%Map_has_spec. congruence. }
      rewrite Map_set_fresh by done. rewrite fmap_app, elem_of_app. csimpl.
      destruct Hk as [?|[->|?]]; [auto | left; right; left | auto].
Qed.

(** C8: the suggestions are at most 5, no two of one anime, newest first,
    taken in order from the listing, and each is at least as recent as
    every listed record of its anime.  None is left out without need: the
    anime of every listed record is suggested, unless there are five
    suggestions already and each of them is at least as recent as that
    record. *)
Theorem C8_continue_watching_suggestions (w : World) :
  ∃ l r,
    returns (getWatchHistory None) w l ∧
    returns getContinueWatchingSuggestions w r ∧
    (length r ≤ 5)%nat ∧
    NoDup (animeId <$> r) ∧
    StronglySorted newer r ∧
    r `sublist_of` l ∧
    Forall (λ x, ∀ h, h ∈ l → animeId h = animeId x →
                      watchedAt h ≤ watchedAt x) r ∧
    l ≡ₚ stored w ∧
    (∀ h, h ∈ l →
          animeId h ∈ animeId <$> r ∨
          (length r = 5%nat ∧ Forall (λ x, watchedAt h ≤ watchedAt x) r)).
Proof.
  set (l := listing None (HISTORY_FILE w)).
  destruct (collect_spec l [] (listing_sorted _)) as (rest & Heq & Hsub & Hnd & Hall).
  exists l, (take 5 rest).
  assert (Hkeys : (collect [] l).*1 = animeId <$> rest).
  { rewrite Heq. simpl. rewrite <- list_fmap_compose.
    clear. induction rest; csimpl; congruence. }
  assert (Hvals : Map_values (collect [] l) = rest).
  { rewrite Heq. unfold Map_values. simpl.
    rewrite <- list_fmap_compose. clear. induction rest; csimpl; congruence. }
  assert (Hsorted : StronglySorted newer rest).
  { eapply StronglySorted_sublist; [exact Hsub|].
    apply (listing_sorted (HISTORY_FILE w)). }
  split; [|split; [|split; [|split; [|split; [|split; [|split; [|split]]]]]]].
  - unfold returns. by rewrite getWatchHistory_run.
  - unfold returns. rewrite getContinueWatchingSuggestions_run. fold l.
    by rewrite Hvals.
  - rewrite length_take. lia.
  - eapply sublist_NoDup; [exact Hnd | apply fmap_sublist, sublist_take].
  - eapply StronglySorted_sublist; [apply sublist_take | exact Hsorted].
  - etrans; [apply sublist_take | exact Hsub].
  - apply Forall_forall. intros x Hx. rewrite Forall_forall in Hall.
    apply Hall. eapply elem_of_sublist; [exact Hx | apply sublist_take].
  - apply listing_perm.
  - intros h Hh.
    assert (Hin : animeId h ∈ animeId <$> rest).
    { rewrite <- Hkeys. apply collect_keys. right. by apply list_elem_of_fmap_2. }
    rewrite <- (take_drop 5 rest), fmap_app, elem_of_app in Hin.
    destruct Hin as [Hin|Hin]; [by left | right].
    apply list_elem_of_fmap in Hin as (r0 & Hid & Hr0).
    assert (Hlen : (5 < length rest)%nat).
    { destruct (decide (5 < length rest)%nat) as [|Hn]; [done|].
      rewrite drop_ge in Hr0 by lia. by apply elem_of_nil in Hr0. }
    split; [rewrite length_take; lia|].
    apply Forall_forall. intros x Hx.
    rewrite <- (take_drop 5 rest) in Hsorted.
    pose proof (StronglySorted_app_1_elem_of _ _ _ _ _ Hsorted Hx Hr0) as Hnewer.
    rewrite Forall_forall in Hall.
    destruct (Hall r0) as [_ Hmax].
    { eapply elem_of_sublist; [exact Hr0 | apply sublist_drop]. }
    specialize (Hmax h Hh Hid). unfold newer in Hnewer. lia.
Qed.

(** ** Rounding *)

Lemma Qis0_true (x : Q) : (x == 0)%Q → MpvProgress.Qis0 x = true.
Proof. intros H. by apply Qeq_bool_iff. Qed.

Lemma Qpos_true (x : Q) : (0 < x)%Q → MpvProgress.Qpos x = true.
Proof.
  intros H. unfold MpvProgress.Qpos. apply negb_true_iff.
  destruct (Qle_bool x 0) eqn:E; [|done].
  apply Qle_bool_iff in E. exfalso. by apply (Qlt_not_le 0 x).
Qed.

Lemma Qfloor_Qmin (a : Q) (z : Z) :
  Qfloor (Qmin a (inject_Z z)) = Z.min (Qfloor a) z.
Proof.
  destruct (Qlt_le_dec (inject_Z z) a) as [Hlt|Hle].
  - rewrite (Qfloor_comp _ _ (Q.min_r _ _ (Qlt_le_weak _ _ Hlt))).
    rewrite Qfloor_Z.
    pose proof (Qfloor_resp_le _ _ (Qlt_le_weak _ _ Hlt)) as H.
    rewrite Qfloor_Z in H. lia.
  - rewrite (Qfloor_comp _ _ (Q.min_l _ _ Hle)).
    pose proof (Qfloor_resp_le _ _ Hle) as H.
    rewrite Qfloor_Z in H. lia.
Qed.

Lemma Qfloor_Qmax (a : Q) (z : Z) :
  Qfloor (Qmax a (inject_Z z)) = Z.max (Qfloor a) z.
Proof.
  destruct (Qlt_le_dec (inject_Z z) a) as [Hlt|Hle].
  - rewrite (Qfloor_comp _ _ (Q.max_l _ _ (Qlt_le_weak _ _ Hlt))).
    pose proof (Qfloor_resp_le _ _ (Qlt_le_weak _ _ Hlt)) as H.
    rewrite Qfloor_Z in H. lia.
  - rewrite (Qfloor_comp _ _ (Q.max_r _ _ Hle)).
    rewrite Qfloor_Z.
    pose proof (Qfloor_resp_le _ _ Hle) as H.
    rewrite Qfloor_Z in H. lia.
Qed.

(** ** Double precision arithmetic *)

Section DoubleFacts.
Import Double.
Local Open Scope Q_scope.

Lemma pow2_pos (e : Z) : 0 < pow2 e.
Proof. by apply Qpower_0_lt. Qed.

Lemma pow2_add (a b : Z) : pow2 (a + b) == pow2 a * pow2 b.
Proof. apply Qpower_plus. discriminate. Qed.

Lemma pow2_le (a b : Z) : (a <= b)%Z -> pow2 a <= pow2 b.
Proof. intros H. apply Qpower_le_compat_l; [exact H | discriminate]. Qed.

Lemma pow2_lt (a b : Z) : (a < b)%Z -> pow2 a < pow2 b.
Proof. intros H. apply Qpower_lt_compat_l; [exact H | reflexivity]. Qed.

Lemma pow2_lt_inv (a b : Z) : pow2 a < pow2 b -> (a < b)%Z.
Proof. intros H. eapply Qpower_lt_compat_l_inv; [exact H | reflexivity]. Qed.

Lemma pow2_inject (e : Z) : (0 <= e)%Z -> pow2 e == inject_Z (2 ^ e).
Proof. intros H. unfold pow2. by rewrite Zpower_Qpower. Qed.

Lemma pow2_succ (e : Z) : pow2 (e + 1) == 2 * pow2 e.
Proof. rewrite pow2_add. change (pow2 1) with 2. ring. Qed.

Lemma pow2_sub (a b : Z) : pow2 (a - b) == pow2 a / pow2 b.
Proof.
  unfold Z.sub. rewrite pow2_add. unfold pow2 at 2. by rewrite Qpower_opp.
Qed.

Lemma Qdiv_le_cross (p q r s : Q) :
  0 < q -> 0 < s -> p * s <= r * q -> p / q <= r / s.
Proof.
  intros Hq Hs H.
  apply Qle_shift_div_l; [exact Hs|].
  assert (E : p / q * s == p * s / q) by (field; lra). rewrite E.
  apply Qle_shift_div_r; [exact Hq | exact H].
Qed.

Lemma Qdiv_lt_cross (p q r s : Q) :
  0 < q -> 0 < s -> p * s < r * q -> p / q < r / s.
Proof.
  intros Hq Hs H.
  apply Qlt_shift_div_l; [exact Hs|].
  assert (E : p / q * s == p * s / q) by (field; lra). rewrite E.
  apply Qlt_shift_div_r; [exact Hq | exact H].
Qed.

Lemma ilog2_spec (x : Q) :
  0 < x -> pow2 (ilog2 x) <= x /\ x < pow2 (ilog2 x + 1).
Proof.
  intros Hx. destruct x as [n d].
  assert (Hn : (0 < n)%Z) by (unfold Qlt in Hx; simpl in Hx; lia).
  unfold ilog2. cbn [Qnum Qden].
  set (a := Z.log2 n). set (b := Z.log2 (Z.pos d)).
  assert (Ha : (0 <= a)%Z) by apply Z.log2_nonneg.
  assert (Hb : (0 <= b)%Z) by apply Z.log2_nonneg.
  destruct (Z.log2_spec n Hn) as [Ha1 Ha2]. fold a in Ha1, Ha2.
  destruct (Z.log2_spec (Z.pos d) eq_refl) as [Hb1 Hb2]. fold b in Hb1, Hb2.
  assert (Hpa : (0 < 2 ^ a)%Z) by (apply Z.pow_pos_nonneg; lia).
  assert (Hpb : (0 < 2 ^ b)%Z) by (apply Z.pow_pos_nonneg; lia).
  assert (Ex : n # d == inject_Z n / inject_Z (Z.pos d)) by apply Qmake_Qdiv.
  assert (Hd : 0 < inject_Z (Z.pos d)) by (unfold Qlt; simpl; lia).
  destruct (Qle_bool (pow2 (a - b)) (n # d)) eqn:E.
  - split; [by apply Qle_bool_iff|].
    replace (a - b + 1)%Z with ((a + 1) - b)%Z by lia.
    rewrite pow2_sub, !pow2_inject, Ex by lia.
    apply Qdiv_lt_cross; [exact Hd | unfold Qlt; simpl; lia |].
    rewrite <- !inject_Z_mult. rewrite <- Zlt_Qlt.
    apply Z.lt_le_trans with (2 ^ (a + 1) * 2 ^ b)%Z; [nia|].
    apply Z.mul_le_mono_nonneg_l; lia.
  - split.
    + replace (a - b - 1)%Z with (a - (b + 1))%Z by lia.
      rewrite pow2_sub, !pow2_inject, Ex by lia.
      apply Qdiv_le_cross; [unfold Qlt; simpl; lia | exact Hd |].
      rewrite <- !inject_Z_mult. rewrite <- Zle_Qle.
      apply Z.le_trans with (2 ^ a * 2 ^ (b + 1))%Z; [|nia].
      apply Z.mul_le_mono_nonneg_l; lia.
    + replace (a - b - 1 + 1)%Z with (a - b)%Z by lia.
      apply Qnot_le_lt. intros H%Qle_bool_iff. congruence.
Qed.

Lemma ilog2_unique (x : Q) (k : Z) :
  pow2 k <= x -> x < pow2 (k + 1) -> ilog2 x = k.
Proof.
  intros H1 H2.
  assert (Hx : 0 < x) by (eapply Qlt_le_trans; [apply (pow2_pos k) | exact H1]).
  destruct (ilog2_spec x Hx) as [H3 H4].
  assert (k < ilog2 x + 1)%Z
    by (apply pow2_lt_inv; eapply Qle_lt_trans; [exact H1 | exact H4]).
  assert (ilog2 x < k + 1)%Z
    by (apply pow2_lt_inv; eapply Qle_lt_trans; [exact H3 | exact H2]).
  lia.
Qed.

Lemma ilog2_comp (x y : Q) : 0 < x -> x == y -> ilog2 x = ilog2 y.
Proof.
  intros Hx E. symmetry.
  destruct (ilog2_spec x Hx) as [H1 H2].
  apply ilog2_unique; by rewrite <- E.
Qed.

Lemma ilog2_mono (x y : Q) : 0 < x -> x <= y -> (ilog2 x <= ilog2 y)%Z.
Proof.
  intros Hx Hxy.
  destruct (ilog2_spec x Hx) as [H1 _].
  destruct (ilog2_spec y (Qlt_le_trans _ _ _ Hx Hxy)) as [_ H2].
  assert (ilog2 x < ilog2 y + 1)%Z; [|lia].
  apply pow2_lt_inv. eapply Qle_lt_trans; [exact H1|].
  eapply Qle_lt_trans; [exact Hxy | exact H2].
Qed.

Lemma nearest_even_comp (y y' : Q) : y == y' -> nearest_even y = nearest_even y'.
Proof.
  intros E. unfold nearest_even. rewrite (Qfloor_comp _ _ E).
  assert (Ec : (y - inject_Z (Qfloor y') ?= 1 # 2) = (y' - inject_Z (Qfloor y') ?= 1 # 2))
    by (by rewrite E).
  by rewrite Ec.
Qed.

Lemma nearest_even_floor (y : Q) :
  (Qfloor y <= nearest_even y <= Qfloor y + 1)%Z.
Proof.
  unfold nearest_even.
  destruct (_ ?= _); [destruct (Z.even _)| |]; lia.
Qed.

Lemma nearest_even_error (y : Q) :
  y - (1 # 2) <= inject_Z (nearest_even y) /\ inject_Z (nearest_even y) <= y + (1 # 2).
Proof.
  unfold nearest_even.
  pose proof (Qfloor_le y) as H1. pose proof (Qlt_floor y) as H2.
  rewrite inject_Z_plus in H2. change (inject_Z 1) with 1 in H2.
  destruct (Qcompare_spec (y - inject_Z (Qfloor y)) (1 # 2)) as [E|E|E];
    [destruct (Z.even _)| |];
    rewrite ?inject_Z_plus; change (inject_Z 1) with 1; lra.
Qed.

Lemma nearest_even_Z (z : Z) : nearest_even (inject_Z z) = z.
Proof.
  unfold nearest_even. rewrite Qfloor_Z.
  destruct (Qcompare_spec (inject_Z z - inject_Z z) (1 # 2)) as [E|E|E];
    [lra | done | lra].
Qed.

Lemma nearest_even_mono (y y' : Q) :
  y <= y' -> (nearest_even y <= nearest_even y')%Z.
Proof.
  intros Hle.
  pose proof (Qfloor_resp_le _ _ Hle) as Hf.
  destruct (Z.eq_dec (Qfloor y) (Qfloor y')) as [Heq|Hne].
  - unfold nearest_even. rewrite <- Heq.
    destruct (Qcompare_spec (y - inject_Z (Qfloor y)) (1 # 2)) as [E|E|E];
      destruct (Qcompare_spec (y' - inject_Z (Qfloor y)) (1 # 2)) as [E'|E'|E'];
      try lra; try lia; destruct (Z.even (Qfloor y)); lia.
  - pose proof (nearest_even_floor y). pose proof (nearest_even_floor y'). lia.
Qed.

Lemma nearest_even_le (y : Q) (k : Z) :
  y <= inject_Z k -> (nearest_even y <= k)%Z.
Proof. intros H%nearest_even_mono. by rewrite nearest_even_Z in H. Qed.

Lemma nearest_even_ge (y : Q) (k : Z) :
  inject_Z k <= y -> (k <= nearest_even y)%Z.
Proof. intros H%nearest_even_mono. by rewrite nearest_even_Z in H. Qed.

Lemma ulp_exponent_pos (x : Q) :
  0 < x -> ulp_exponent x = Z.max (ilog2 x - 52) (-1074).
Proof.
  intros Hx. unfold ulp_exponent. f_equal. f_equal.
  apply ilog2_comp; [|apply Qabs_pos; lra].
  rewrite Qabs_pos; lra.
Qed.

Lemma ulp_exponent_comp (x y : Q) :
  0 < x -> x == y -> ulp_exponent x = ulp_exponent y.
Proof.
  intros Hx E. rewrite !ulp_exponent_pos by lra.
  by rewrite (ilog2_comp x y Hx E).
Qed.

Lemma round_zero (x : Q) : x == 0 -> round x == 0.
Proof.
  intros E. unfold round.
  assert (E0 : x / pow2 (ulp_exponent x) == inject_Z 0).
  { generalize (pow2 (ulp_exponent x)). intros p. rewrite E. unfold Qdiv. ring. }
  rewrite (nearest_even_comp _ _ E0), nearest_even_Z. ring.
Qed.

Lemma round_comp (x y : Q) : 0 <= x -> x == y -> round x == round y.
Proof.
  intros Hx E.
  destruct (Qlt_le_dec 0 x) as [Hpos|Hle].
  - unfold round. rewrite <- (ulp_exponent_comp x y Hpos E).
    assert (Eq : x / pow2 (ulp_exponent x) == y / pow2 (ulp_exponent x))
      by (generalize (pow2 (ulp_exponent x)); intros p; by rewrite E).
    by rewrite (nearest_even_comp _ _ Eq).
  - rewrite !round_zero; [reflexivity | lra | lra].
Qed.

Lemma pow2_pred (e : Z) : pow2 (e - 1) == pow2 e / 2.
Proof. rewrite pow2_sub. reflexivity. Qed.

(** The rounding error is at most half a unit in the last place. *)
Lemma round_error (x : Q) :
  x - pow2 (ulp_exponent x - 1) <= round x /\
  round x <= x + pow2 (ulp_exponent x - 1).
Proof.
  unfold round. set (p := pow2 (ulp_exponent x)).
  assert (Hp : 0 < p) by apply pow2_pos.
  rewrite pow2_pred. fold p.
  destruct (nearest_even_error (x / p)) as [H1 H2].
  assert (Ex : x == x / p * p) by (field; lra).
  split.
  - apply Qle_trans with ((x / p - (1 # 2)) * p).
    + assert (E : (x / p - (1 # 2)) * p == x - p / 2) by (field; lra).
      rewrite E. lra.
    + apply Qmult_le_compat_r; lra.
  - apply Qle_trans with ((x / p + (1 # 2)) * p).
    + apply Qmult_le_compat_r; lra.
    + assert (E : (x / p + (1 # 2)) * p == x + p / 2) by (field; lra).
      rewrite E. lra.
Qed.

Lemma round_nonneg (x : Q) : 0 <= x -> 0 <= round x.
Proof.
  intros Hx. unfold round. set (p := pow2 (ulp_exponent x)).
  assert (Hp : 0 < p) by apply pow2_pos.
  apply Qmult_le_0_compat; [|lra].
  change 0 with (inject_Z 0). rewrite <- Zle_Qle.
  apply nearest_even_ge. change (inject_Z 0) with 0.
  apply Qle_shift_div_l; lra.
Qed.

(** A multiple of the unit in the last place, or of a larger power of
    two, is rounded to itself. *)
Lemma round_exact (x : Q) (m e : Z) :
  (ulp_exponent x <= e)%Z -> x == inject_Z m * pow2 e -> round x == x.
Proof.
  intros He Ex. unfold round. set (E := ulp_exponent x) in *.
  assert (Hp : 0 < pow2 E) by apply pow2_pos.
  assert (Eq : x / pow2 E == inject_Z (m * 2 ^ (e - E))).
  { rewrite Ex, inject_Z_mult, <- pow2_inject by lia.
    rewrite pow2_sub. field. lra. }
  rewrite (nearest_even_comp _ _ Eq), nearest_even_Z, <- Eq. field. lra.
Qed.

Lemma ilog2_lt (x : Q) (k : Z) : 0 < x -> x < pow2 k -> (ilog2 x < k)%Z.
Proof.
  intros Hx Hk. destruct (ilog2_spec x Hx) as [H1 _].
  apply pow2_lt_inv. eapply Qle_lt_trans; [exact H1 | exact Hk].
Qed.

Lemma ilog2_ge (x : Q) (k : Z) : pow2 k <= x -> (k <= ilog2 x)%Z.
Proof.
  intros Hk.
  assert (Hx : 0 < x) by (eapply Qlt_le_trans; [apply (pow2_pos k) | exact Hk]).
  destruct (ilog2_spec x Hx) as [_ H2].
  assert (k < ilog2 x + 1)%Z; [|lia].
  apply pow2_lt_inv. eapply Qle_lt_trans; [exact Hk | exact H2].
Qed.

(** The integers below [2^53] are doubles. *)
Lemma round_Z (n : Z) :
  (0 <= n < 2 ^ 53)%Z -> round (inject_Z n) == inject_Z n.
Proof.
  intros Hn. destruct (Z.eq_dec n 0%Z) as [->|Hne]; [by apply round_zero|].
  assert (Hpos : 0 < inject_Z n)
    by (change 0 with (inject_Z 0); rewrite <- Zlt_Qlt; lia).
  apply (round_exact _ n 0%Z); [|change (pow2 0) with 1; ring].
  rewrite ulp_exponent_pos by exact Hpos.
  assert (ilog2 (inject_Z n) < 53)%Z; [|lia].
  apply ilog2_lt; [exact Hpos|].
  rewrite pow2_inject by lia. rewrite <- Zlt_Qlt. lia.
Qed.

Lemma round_mono (x y : Q) : 0 <= x -> x <= y -> round x <= round y.
Proof.
  intros Hx Hxy.
  destruct (Qlt_le_dec 0 x) as [Hpos|Hle].
  2: { rewrite (round_zero x) by lra. apply round_nonneg. lra. }
  assert (Hposy : 0 < y) by lra.
  pose proof (ilog2_mono x y Hpos Hxy) as Hlog.
  destruct (ilog2_spec x Hpos) as [_ Hx2].
  destruct (ilog2_spec y Hposy) as [Hy1 _].
  unfold round.
  rewrite (ulp_exponent_pos x Hpos), (ulp_exponent_pos y Hposy).
  set (ex := Z.max (ilog2 x - 52) (-1074)).
  set (ey := Z.max (ilog2 y - 52) (-1074)).
  assert (Hpx : 0 < pow2 ex) by apply pow2_pos.
  assert (Hpy : 0 < pow2 ey) by apply pow2_pos.
  destruct (Z.eq_dec ex ey) as [Heq|Hne].
  - rewrite <- Heq. apply Qmult_le_compat_r; [|lra].
    rewrite <- Zle_Qle. apply nearest_even_mono.
    apply Qmult_le_compat_r; [exact Hxy|].
    apply Qlt_le_weak, Qinv_lt_0_compat, Hpx.
  - assert (Hlt : (ex < ey)%Z) by lia.
    assert (Hey : ey = (ilog2 y - 52)%Z) by lia.
    apply Qle_trans with (pow2 (53 + ex)).
    + rewrite pow2_add.
      apply Qmult_le_compat_r; [|lra].
      rewrite (pow2_inject 53) by lia. rewrite <- Zle_Qle.
      apply nearest_even_le. rewrite <- (pow2_inject 53) by lia.
      apply Qle_shift_div_r; [exact Hpx|].
      rewrite <- pow2_add. apply Qlt_le_weak.
      eapply Qlt_le_trans; [exact Hx2|]. apply pow2_le. lia.
    + apply Qle_trans with (pow2 (52 + ey)); [apply pow2_le; lia|].
      rewrite pow2_add. apply Qmult_le_compat_r; [|lra].
      rewrite (pow2_inject 52) by lia. rewrite <- Zle_Qle.
      apply nearest_even_ge. rewrite <- (pow2_inject 52) by lia.
      apply Qle_shift_div_l; [exact Hpy|].
      rewrite <- pow2_add. replace (52 + ey)%Z with (ilog2 y) by lia.
      exact Hy1.
Qed.

(** Below 256 the error of one rounding is at most [2^-46]. *)
Lemma round_error_small (x : Q) :
  0 <= x -> x < 256 ->
  x - pow2 (-46) <= round x /\ round x <= x + pow2 (-46).
Proof.
  intros H0 Hx.
  destruct (Qlt_le_dec 0 x) as [Hpos|Hle].
  2: { rewrite (round_zero x) by lra. pose proof (pow2_pos (-46)). lra. }
  destruct (round_error x) as [H1 H2].
  assert (He : pow2 (ulp_exponent x - 1) <= pow2 (-46)).
  { apply pow2_le. rewrite ulp_exponent_pos by exact Hpos.
    assert (ilog2 x < 8)%Z; [|lia].
    apply ilog2_lt; [exact Hpos|]. exact Hx. }
  lra.
Qed.

(** [(t / d) * 100] in doubles, for a part [t] of a whole [d]. *)
Lemma percent_bounds (t d : Q) :
  0 <= t -> 0 < d -> t <= d ->
  0 <= div t d /\ div t d <= 1 /\ 0 <= mul (div t d) 100 /\ mul (div t d) 100 <= 100.
Proof.
  intros Ht Hd Htd. unfold mul, div.
  assert (H0 : 0 <= t / d) by (apply Qle_shift_div_l; lra).
  assert (H1 : t / d <= 1) by (apply Qle_shift_div_r; lra).
  pose proof (round_nonneg _ H0) as Hq0.
  pose proof (round_mono _ _ H0 H1) as Hq1.
  rewrite (round_Z 1) in Hq1 by lia. change (inject_Z 1) with 1 in Hq1.
  assert (Hy0 : 0 <= round (t / d) * 100) by lra.
  assert (Hy1 : round (t / d) * 100 <= inject_Z 100)
    by (change (inject_Z 100) with 100; lra).
  pose proof (round_nonneg _ Hy0).
  pose proof (round_mono _ _ Hy0 Hy1) as Hp. rewrite (round_Z 100) in Hp by lia.
  change (inject_Z 100) with 100 in Hp. tauto.
Qed.

Lemma percent_mono (t t' d : Q) :
  0 <= t -> t <= t' -> 0 < d -> mul (div t d) 100 <= mul (div t' d) 100.
Proof.
  intros Ht Htt Hd. unfold mul, div.
  assert (H0 : 0 <= t / d) by (apply Qle_shift_div_l; lra).
  assert (H1 : t / d <= t' / d).
  { apply Qmult_le_compat_r; [exact Htt|].
    apply Qlt_le_weak, Qinv_lt_0_compat, Hd. }
  pose proof (round_nonneg _ H0).
  pose proof (round_mono _ _ H0 H1).
  apply round_mono; lra.
Qed.

Lemma percent_whole (t d : Q) :
  0 < d -> d <= t -> 100 <= mul (div t d) 100.
Proof.
  intros Hd Hdt. unfold mul, div.
  assert (H1 : inject_Z 1 <= t / d)
    by (change (inject_Z 1) with 1; apply Qle_shift_div_l; lra).
  assert (Hz1 : 0 <= inject_Z 1) by (vm_compute; discriminate).
  pose proof (round_mono _ _ Hz1 H1) as Hq.
  rewrite (round_Z 1) in Hq by lia. change (inject_Z 1) with 1 in Hq.
  assert (Hy : inject_Z 100 <= round (t / d) * 100)
    by (change (inject_Z 100) with 100; lra).
  assert (Hz100 : 0 <= inject_Z 100) by (vm_compute; discriminate).
  pose proof (round_mono _ _ Hz100 Hy) as Hp.
  rewrite (round_Z 100) in Hp by lia. exact Hp.
Qed.

(** The two roundings move the percentage of a part by less than
    [2^-39]. *)
Lemma percent_error (t d : Q) :
  0 <= t -> 0 < d -> t <= d ->
  t / d * 100 - pow2 (-39) <= mul (div t d) 100 /\
  mul (div t d) 100 <= t / d * 100 + pow2 (-39).
Proof.
  intros Ht Hd Htd.
  destruct (percent_bounds t d Ht Hd Htd) as (Hq0 & Hq1 & _).
  unfold mul, div in *.
  assert (H0 : 0 <= t / d) by (apply Qle_shift_div_l; lra).
  assert (H1 : t / d <= 1) by (apply Qle_shift_div_r; lra).
  destruct (round_error_small (t / d)) as [Ha Hb]; [lra | lra |].
  destruct (round_error_small (round (t / d) * 100)) as [Hc He]; [lra | lra |].
  assert (Heps : 101 * pow2 (-46) <= pow2 (-39)) by (vm_compute; discriminate).
  lra.
Qed.

(** The product [24 * 60] of [write_progress] is exact. *)
Lemma estimated_duration_1440 : mul 24 60 == 1440.
Proof. vm_compute. reflexivity. Qed.

Lemma div_comp (x y y' : Q) : 0 <= x -> 0 < y -> y == y' -> div x y == div x y'.
Proof.
  intros Hx Hy E. unfold div. apply round_comp.
  - apply Qle_shift_div_l; lra.
  - by rewrite E.
Qed.

Lemma mul_comp (x x' y : Q) : 0 <= x -> 0 <= y -> x == x' -> mul x y == mul x' y.
Proof.
  intros Hx Hy E. unfold mul. apply round_comp.
  - by apply Qmult_le_0_compat.
  - by rewrite E.
Qed.

Lemma Qfloor_near (x y : Q) : x <= y + 1 -> (Qfloor x <= Qfloor y + 1)%Z.
Proof.
  intros H. pose proof (Qfloor_le x) as H1. pose proof (Qlt_floor y) as H2.
  rewrite inject_Z_plus in H2. change (inject_Z 1) with 1 in H2.
  assert (Hlt : inject_Z (Qfloor x) < inject_Z (Qfloor y + 2)).
  { rewrite inject_Z_plus. change (inject_Z 2) with 2. lra. }
  rewrite <- Zlt_Qlt in Hlt. lia.
Qed.

End DoubleFacts.

(** ** Rounding to integers *)

Lemma Math_round_mono (x y : Q) :
  (x <= y)%Q → Js.Math_round x ≤ Js.Math_round y.
Proof. intros H. unfold Js.Math_round. apply Qfloor_resp_le. lra. Qed.

Lemma Math_round_near (x y : Q) :
  (x <= y + 1)%Q → Js.Math_round x ≤ Js.Math_round y + 1.
Proof. intros H. unfold Js.Math_round. apply Qfloor_near. lra. Qed.

(** ** The playback controller *)

(** What [playVideo] returns from a snapshot with a positive position
    and duration. *)
Lemma playVideo_positive (url : string) (options : Player.PlaybackOptions)
    (run : Player.MpvRun) (code : Z) (data : MpvProgress.ProgressData) :
  Player.mpv_found run = true →
  Player.mpv_exit run = Player.Close code →
  Player.progressFile run = MpvProgress.Snapshot data →
  0 < MpvProgress.time_pos data →
  0 < MpvProgress.duration data →
  Player.playVideo url options run =
    {| Player.progress :=
         Js.Math_round
           (Double.mul (Double.div (inject_Z (MpvProgress.time_pos data))
                                   (inject_Z (MpvProgress.duration data))) 100);
       Player.timePos := MpvProgress.time_pos data;
       Player.duration := MpvProgress.duration data |}.
Proof.
  intros Hfound Hexit Hfile Ht Hd.
  unfold Player.playVideo, Player.read_final_progress.
  rewrite Hfound, Hexit, Hfile. cbn [negb].
  rewrite !or0_id, !Math_round_inject_Z.
  destruct (Z.ltb_spec 0 (MpvProgress.duration data)); [|lia].
  destruct (Z.ltb_spec 0 (MpvProgress.time_pos data)); [|lia].
  reflexivity.
Qed.

(** The percentage [Math.round((t / d) * 100)] of a part [t] of [d], as
    the doubles give it: between 0 and 100, and within one of the
    percentage rounded exactly. *)
Lemma percent_rounded (t d : Z) :
  0 < t → t ≤ d →
  let p := Js.Math_round (Double.mul (Double.div (inject_Z t) (inject_Z d)) 100) in
  0 ≤ p ≤ 100 ∧
  Js.Math_round ((inject_Z t / inject_Z d) * 100)%Q - 1 ≤ p ∧
  p ≤ Js.Math_round ((inject_Z t / inject_Z d) * 100)%Q + 1.
Proof.
  intros Ht Htd p.
  assert (Ht' : (0 <= inject_Z t)%Q)
    by (change 0%Q with (inject_Z 0); rewrite <- Zle_Qle; lia).
  assert (Hd' : (0 < inject_Z d)%Q)
    by (change 0%Q with (inject_Z 0); rewrite <- Zlt_Qlt; lia).
  assert (Htd' : (inject_Z t <= inject_Z d)%Q) by (by rewrite <- Zle_Qle).
  destruct (percent_bounds _ _ Ht' Hd' Htd') as (_ & _ & H0 & H100).
  destruct (percent_error _ _ Ht' Hd' Htd') as [He1 He2].
  assert (Heps : (Double.pow2 (-39) <= 1)%Q) by (vm_compute; discriminate).
  subst p. split; [split|split].
  - change 0 with (Js.Math_round 0). by apply Math_round_mono.
  - change 100 with (Js.Math_round 100). by apply Math_round_mono.
  - apply Z.le_sub_le_add_r, Math_round_near. lra.
  - apply Math_round_near. lra.
Qed.

(** C5: when mpv was found and has exited, and the snapshot it left has a
    positive [time_pos] and [duration], the result carries these two and
    [Math.round] of the percentage the doubles give for their ratio;
    [percent_pos] is not used.  A position within the duration gives a
    progress between 0 and 100, within one of the percentage rounded
    exactly. *)
Theorem C5_playVideo_recomputes_progress
    (url : string) (options : Player.PlaybackOptions) (run : Player.MpvRun)
    (code : Z) (data : MpvProgress.ProgressData) :
  Player.mpv_found run = true →
  Player.mpv_exit run = Player.Close code →
  Player.progressFile run = MpvProgress.Snapshot data →
  0 < MpvProgress.time_pos data →
  0 < MpvProgress.duration data →
  let t := inject_Z (MpvProgress.time_pos data) in
  let d := inject_Z (MpvProgress.duration data) in
  Player.playVideo url options run =
    {| Player.progress := Js.Math_round (Double.mul (Double.div t d) 100);
       Player.timePos := MpvProgress.time_pos data;
       Player.duration := MpvProgress.duration data |} ∧
  (MpvProgress.time_pos data ≤ MpvProgress.duration data →
   0 ≤ Player.progress (Player.playVideo url options run) ≤ 100 ∧
   Js.Math_round (t / d * 100)%Q - 1
   ≤ Player.progress (Player.playVideo url options run) ∧
   Player.progress (Player.playVideo url options run)
   ≤ Js.Math_round (t / d * 100)%Q + 1).
Proof.
  intros Hfound Hexit Hfile Ht Hd t d.
  rewrite (playVideo_positive url options run code data Hfound Hexit Hfile Ht Hd).
  split; [reflexivity|]. intros Htd. cbn [Player.progress].
  apply (percent_rounded _ _ Ht Htd).
Qed.

(** ** The progress script *)

(** The estimate of [write_progress]: the percentage of [24 * 60]
    seconds, capped. *)
Lemma estimate_1440 (t : Q) :
  (0 < t)%Q →
  (Qmin (Double.mul (Double.div t (Double.mul 24 60)) 100) 99
   == Qmin (Double.mul (Double.div t 1440) 100) 99)%Q.
Proof.
  intros Ht.
  assert (E : (Double.mul (Double.div t (Double.mul 24 60)) 100
               == Double.mul (Double.div t 1440) 100)%Q).
  { apply mul_comp; [apply round_nonneg, Qle_shift_div_l;
                      rewrite ?estimated_duration_1440; lra
                    | lra |].
    apply div_comp; [lra | rewrite estimated_duration_1440; lra
                     | apply estimated_duration_1440]. }
  by rewrite E.
Qed.

(** The estimate as an integer: at most 99, not negative, and within one
    of the percentage of 1440 seconds computed exactly and capped. *)
Lemma estimate_bounds (t : Q) :
  (0 < t)%Q →
  let p := Qfloor (Qmin (Double.mul (Double.div t 1440) 100) 99) in
  0 ≤ p ≤ 99 ∧
  Z.min (Qfloor (100 * t / 1440)) 99 - 1 ≤ p ≤ Z.min (Qfloor (100 * t / 1440)) 99 + 1.
Proof.
  intros Ht p. subst p.
  change 99%Q with (inject_Z 99). rewrite Qfloor_Qmin.
  assert (Hex : (100 * t / 1440 == t / 1440 * 100)%Q) by field.
  rewrite (Qfloor_comp _ _ Hex).
  assert (H0 : (0 <= Double.mul (Double.div t 1440) 100)%Q).
  { apply round_nonneg. apply Qmult_le_0_compat; [|lra].
    apply round_nonneg, Qle_shift_div_l; lra. }
  pose proof (Qfloor_resp_le _ _ H0) as Hf0. change (Qfloor 0) with 0 in Hf0.
  split; [lia|].
  destruct (Qlt_le_dec 1440 t) as [Hbig|Hsmall].
  - assert (H100 : (inject_Z 100 <= Double.mul (Double.div t 1440) 100)%Q)
      by (apply percent_whole; lra).
    pose proof (Qfloor_resp_le _ _ H100) as Hf. rewrite Qfloor_Z in Hf.
    assert (H100' : (inject_Z 100 <= t / 1440 * 100)%Q).
    { change (inject_Z 100) with (1 * 100)%Q.
      apply Qmult_le_compat_r; [|lra]. apply Qle_shift_div_l; lra. }
    pose proof (Qfloor_resp_le _ _ H100') as Hf'. rewrite Qfloor_Z in Hf'.
    lia.
  - destruct (percent_error t 1440) as [He1 He2]; [lra | lra | lra |].
    assert (Heps : (Double.pow2 (-39) <= 1)%Q) by (vm_compute; discriminate).
    assert (Ha : Qfloor (Double.mul (Double.div t 1440) 100)
                 ≤ Qfloor (t / 1440 * 100) + 1) by (apply Qfloor_near; lra).
    assert (Hb : Qfloor (t / 1440 * 100)
                 ≤ Qfloor (Double.mul (Double.div t 1440) 100) + 1)
      by (apply Qfloor_near; lra).
    lia.
Qed.

(** The snapshot of the estimate branch, field by field. *)
Lemma write_progress_estimate_fields
    (status : string) (mp : MpvProgress.Props) (os_time : Z) :
  let t := MpvProgress.get_property_number (MpvProgress.prop_time_pos mp) 0 in
  (MpvProgress.get_property_number (MpvProgress.prop_duration mp) 0 == 0)%Q →
  (MpvProgress.get_property_number (MpvProgress.prop_length mp) 0 == 0)%Q →
  (0 < t)%Q →
  MpvProgress.write_progress_data status mp os_time =
  {| MpvProgress.timestamp := os_time;
     MpvProgress.time_pos := Qfloor t;
     MpvProgress.duration := 0;
     MpvProgress.percent_pos :=
       Qfloor (Qmin (Double.mul (Double.div t 1440) 100) 99);
     MpvProgress.status := status;
     MpvProgress.estimated := true |}.
Proof.
  intros t Hd Hl Ht.
  unfold MpvProgress.write_progress_data. fold t. cbv zeta.
  rewrite (Qis0_true _ Hd). cbv iota.
  rewrite !(Qis0_true _ Hl), (Qpos_true _ Ht). cbn [andb]. cbv iota.
  rewrite (Qfloor_comp _ _ Hl).
  rewrite (Qfloor_comp _ _ (estimate_1440 t Ht)).
  reflexivity.
Qed.

(** C6: with no duration known (neither [duration] nor [length]) and a
    positive position, the snapshot is marked estimated and reports the
    percentage of an assumed 1440 seconds as the doubles give it, capped
    at 99 and rounded down: a number from 0 to 99, within one of the
    percentage computed exactly. *)
Theorem C6_write_progress_estimate
    (status : string) (mp : MpvProgress.Props) (os_time : Z) :
  let t := MpvProgress.get_property_number (MpvProgress.prop_time_pos mp) 0 in
  (MpvProgress.get_property_number (MpvProgress.prop_duration mp) 0 == 0)%Q →
  (MpvProgress.get_property_number (MpvProgress.prop_length mp) 0 == 0)%Q →
  (0 < t)%Q →
  let data := MpvProgress.write_progress_data status mp os_time in
  MpvProgress.percent_pos data
  = Qfloor (Qmin (Double.mul (Double.div t 1440) 100) 99) ∧
  MpvProgress.estimated data = true ∧
  MpvProgress.duration data = 0 ∧
  0 ≤ MpvProgress.percent_pos data ≤ 99 ∧
  Z.min (Qfloor (100 * t / 1440)) 99 - 1 ≤ MpvProgress.percent_pos data ∧
  MpvProgress.percent_pos data ≤ Z.min (Qfloor (100 * t / 1440)) 99 + 1.
Proof.
  intros t Hd Hl Ht data. subst data.
  rewrite (write_progress_estimate_fields status mp os_time Hd Hl Ht).
  fold t. cbn [MpvProgress.percent_pos MpvProgress.estimated MpvProgress.duration].
  destruct (estimate_bounds t Ht) as (H1 & H2 & H3).
  repeat split; (done || lia).
Qed.

(** C7, with the guard the handler has: when the live position or the
    live duration reads 0 and the file holds a snapshot, the finished
    snapshot carries the larger of the live and the stored position, and of
    the live and the stored duration, so neither falls below the stored
    one. *)
Theorem C7_shutdown_keeps_progress_when_live_is_zero
    (existing : MpvProgress.ProgressData) (mp : MpvProgress.Props) (os_time : Z) :
  let t := MpvProgress.get_property_number (MpvProgress.prop_time_pos mp) 0 in
  let d := MpvProgress.get_property_number (MpvProgress.prop_duration mp) 0 in
  (t == 0 ∨ d == 0)%Q →
  let final :=
    MpvProgress.shutdown_data (MpvProgress.Snapshot existing) mp os_time in
  MpvProgress.status final = "finished" ∧
  MpvProgress.time_pos final = Z.max (Qfloor t) (MpvProgress.time_pos existing) ∧
  MpvProgress.duration final = Z.max (Qfloor d) (MpvProgress.duration existing) ∧
  MpvProgress.time_pos existing ≤ MpvProgress.time_pos final ∧
  MpvProgress.duration existing ≤ MpvProgress.duration final.
Proof.
  intros t d Hzero final.
  assert (Hguard : MpvProgress.Qis0 t || MpvProgress.Qis0 d = true).
  { apply orb_true_iff. destruct Hzero as [H|H]; [left|right]; by apply Qis0_true. }
  assert (Ht : MpvProgress.time_pos final
               = Z.max (Qfloor t) (MpvProgress.time_pos existing)).
  { subst final. unfold MpvProgress.shutdown_data. fold t d.
    cbv zeta. rewrite Hguard. cbn [MpvProgress.time_pos]. apply Qfloor_Qmax. }
  assert (Hd : MpvProgress.duration final
               = Z.max (Qfloor d) (MpvProgress.duration existing)).
  { subst final. unfold MpvProgress.shutdown_data. fold t d.
    cbv zeta. rewrite Hguard. cbn [MpvProgress.duration]. apply Qfloor_Qmax. }
  split; [|split; [exact Ht|split; [exact Hd|split; lia]]].
  subst final. unfold MpvProgress.shutdown_data. fold t d.
  cbv zeta. rewrite Hguard. reflexivity.
Qed.

(** Outside that guard the handler does not look at the file: the live
    values are written as they are. *)
Lemma shutdown_writes_live_values
    (file : MpvProgress.ProgressFile) (mp : MpvProgress.Props) (os_time : Z) :
  let t := MpvProgress.get_property_number (MpvProgress.prop_time_pos mp) 0 in
  let d := MpvProgress.get_property_number (MpvProgress.prop_duration mp) 0 in
  ¬ (t == 0)%Q → ¬ (d == 0)%Q →
  MpvProgress.time_pos (MpvProgress.shutdown_data file mp os_time) = Qfloor t ∧
  MpvProgress.duration (MpvProgress.shutdown_data file mp os_time) = Qfloor d.
Proof.
  intros t d Ht Hd.
  assert (Hguard : MpvProgress.Qis0 t || MpvProgress.Qis0 d = false).
  { apply orb_false_iff. unfold MpvProgress.Qis0.
    split; apply not_true_is_false; intros H%Qeq_bool_iff; tauto. }
  unfold MpvProgress.shutdown_data. fold t d. cbv zeta. rewrite Hguard.
  split; reflexivity.
Qed.

(** ** The playback flow *)

Import Core.


(** [saveToHistory] with both catalog answers at hand: one upsert of the
    entry, stamped with the clock. *)
Lemma saveToHistory_run (c : Api.Catalog) (slug : string) (episode : Api.Episode)
    (fansubId : string) (p t d : Z) (w : World)
    (animeDetail : Api.AnimeDetail) (episodeDetail : Api.EpisodeDetail) :
  Api.getAnimeDetail c slug = Some animeDetail →
  Api.getEpisodeDetail c slug (Api.seasonNumber episode)
                       (Api.episodeNumber episode) = Some episodeDetail →
  let entry :=
    historyEntry animeDetail episodeDetail slug episode fansubId p t d (clock w) in
  saveToHistory c slug episode fansubId p t d w =
  (Js.Normal tt,
   {| HISTORY_FILE := Holds (JsonEntries (upserted entry (HISTORY_FILE w)));
      writes := writes w ++ [upserted entry (HISTORY_FILE w)];
      console := ((console w ++ listing_log (HISTORY_FILE w))
                  ++ ["Saved to watch history"]) ++ ["Saved to watch history"];
      clock := clock w |}).
Proof.
  intros Ha He entry. unfold saveToHistory. rewrite Ha, He.
  unfold Js.try_catch, mbind, Js.M_bind, Js.bind, Date_now, Js.gets.
  rewrite saveWatchHistory_run. reflexivity.
Qed.

(** [saveToHistory] returns normally whatever the catalog answers, and
    never moves the clock. *)
Lemma saveToHistory_normal (c : Api.Catalog) (slug : string) (episode : Api.Episode)
    (fansubId : string) (p t d : Z) (w : World) :
  ∃ w', saveToHistory c slug episode fansubId p t d w = (Js.Normal tt, w') ∧
        clock w' = clock w.
Proof.
  destruct (Api.getAnimeDetail c slug) as [a|] eqn:Ha;
    [destruct (Api.getEpisodeDetail c slug (Api.seasonNumber episode)
                 (Api.episodeNumber episode)) as [e|] eqn:He|].
  - eexists. split; [by apply saveToHistory_run|]. done.
  - exists w. unfold saveToHistory. rewrite Ha, He. done.
  - exists w. unfold saveToHistory. rewrite Ha. done.
Qed.

(** Without the anime detail nothing is written. *)
Lemma saveToHistory_without_detail (c : Api.Catalog) (slug : string)
    (episode : Api.Episode) (fansubId : string) (p t d : Z) (w : World) :
  Api.getAnimeDetail c slug = None →
  saveToHistory c slug episode fansubId p t d w = (Js.Normal tt, w).
Proof. intros Ha. unfold saveToHistory. by rewrite Ha. Qed.


(** The choices of the main menu: search alone when the listing is
    empty, otherwise continue (with the newest record), history and
    clear-history as well. *)
Lemma showMainMenu_choices_run (w : World) :
  returns showMainMenu_choices w
    match listing None (HISTORY_FILE w) with
    | [] => [search]
    | x :: _ => [continue_ x; separator; history; clear_history; separator; search]
    end.
Proof.
  unfold returns, showMainMenu_choices, getLastWatchedAnime,
    getContinueWatchingSuggestions.
  unfold mbind, Js.M_bind, Js.bind, mret, Js.M_ret, Js.ret.
  repeat (rewrite getWatchHistory_run; cbn [fst snd HISTORY_FILE]).
  destruct (HISTORY_FILE w) as [| |[| |l]]; try reflexivity.
  unfold listing. cbn [Z.eqb]. rewrite !slice0_nonneg by lia.
  destruct (Js.sort newest_first (revive <$> l)) as [|x tail]; reflexivity.
Qed.




(** C3, with the two conditions the code puts on the next episode: after
    the player has returned, the flow goes on to the episode selection of
    [next], without asking which episode, exactly when auto-play is on,
    the returned progress is at least 85, the detail of the episode just
    played says it has a next episode, and [next] is the first episode
    numbered [episodeNumber + 1] in the listing of the season. *)
Theorem C3_auto_advance
    (config : Config.AppConfig) (c : Api.Catalog) (slug : string)
    (episode : Api.Episode) (fansubId : string) (startTime : option Z)
    (run : Player.MpvRun) (w : World) (videoUrl : string)
    (episodeDetail : Api.EpisodeDetail) (next : Api.Episode) :
  Api.getVideoUrl c slug (Api.seasonNumber episode) (Api.episodeNumber episode)
                  fansubId = Some videoUrl →
  Api.getEpisodeDetail c slug (Api.seasonNumber episode)
                       (Api.episodeNumber episode) = Some episodeDetail →
  let result :=
    Player.playVideo videoUrl (playOptions c slug episode fansubId startTime) run in
  returns (handleVideoPlayback_with config c slug episode fansubId startTime
             (Some play) run) w (EpisodeSelection next)
  ↔
  Config.autoPlayNextEpisode config = true ∧
  85 ≤ Player.progress result ∧
  Api.hasNextEpisode (Api.episodeData episodeDetail) = true ∧
  ∃ i, list_find (λ e, Api.episodeNumber e = Api.episodeNumber episode + 1)
                 (Api.getAnimeEpisodes c slug (Api.seasonNumber episode))
       = Some (i, next).
Proof.
  intros Hurl He result.
  unfold returns, handleVideoPlayback_with. rewrite Hurl, He.
  unfold prompts, mbind, Js.M_bind, Js.bind, mret, Js.M_ret, Js.ret.
  cbn [console_log Js.modify].
  match goal with
  | |- context [saveToHistory c slug episode fansubId 0 0 0 ?w0] =>
      destruct (saveToHistory_normal c slug episode fansubId 0 0 0 w0)
        as (w1 & E1 & _)
  end.
  rewrite E1. cbn [wait Js.modify].
  fold result.
  destruct (saveToHistory_normal c slug episode fansubId
              (Player.progress result) (Player.timePos result)
              (Player.duration result)
              {| HISTORY_FILE := HISTORY_FILE w1; writes := writes w1;
                 console := console w1;
                 clock := clock w1 + Player.elapsed run |})
    as (w2 & E2 & _).
  rewrite E2.
  destruct (Config.autoPlayNextEpisode config);
    destruct (Z.leb_spec 85 (Player.progress result));
    destruct (Api.hasNextEpisode (Api.episodeData episodeDetail));
    cbn [andb];
    try (split; [intros [=] | intros (? & ? & ? & ?); first [done | lia]]).
  destruct (list_find _ _) as [[i n]|]; cbn.
  - split.
    + intros [= ->]. repeat split; eauto.
    + intros (_ & _ & _ & j & [= _ ->]). done.
  - split; [intros [=] | intros (_ & _ & _ & j & [=])].
Qed.

(** * Concrete runs *)

(** [Double] and the machine agree on the percentage of every part [t]
    of a whole [d] up to 40, of the positions and durations used below,
    and of tenths of a second of a 1440 second episode. *)
Example percent_as_on_the_machine :
  forallb (λ d, forallb (λ t, Machine.same_percent (Machine.of_Z t) (Machine.of_Z d))
                        (seqZ 1 d))
          (seqZ 1 40) = true ∧
  forallb (λ '(t, d), Machine.same_percent (Machine.of_Z t) (Machine.of_Z d))
          [(720, 1440); (828, 1440); (805, 1400); (348, 1200); (1152, 1440);
           (1296, 1440); (725, 1440); (300, 1440); (1439, 1440); (1, 86400)]
  = true ∧
  forallb (λ n, Machine.same_percent
                  (PrimFloat.div (Machine.of_Z n) (Machine.of_Z 10))
                  (Machine.of_Z 1440))
          [1; 3; 7; 144; 1295; 1296; 1297; 3000; 7777; 14399; 14401; 20000]
  = true ∧
  Machine.to_Q (PrimFloat.div (Machine.of_Z 1296) (Machine.of_Z 10))
  = Some (Qred Sample.seconds_129_6).
Proof.
  split; [vm_compute; reflexivity|]. split; [vm_compute; reflexivity|].
  split; vm_compute; reflexivity.
Qed.

(** Upserting progress 10 and then progress 80 for one key leaves the
    single record with progress 80. *)
Example upsert_twice_keeps_latest :
  getWatchHistory None
    (upserts [Sample.entry "A" 1 100 10 144 1440;
              Sample.entry "A" 1 200 80 1152 1440] (Sample.world Absent))
  = (Js.Normal [Sample.entry "A" 1 200 80 1152 1440],
     upserts [Sample.entry "A" 1 100 10 144 1440;
              Sample.entry "A" 1 200 80 1152 1440] (Sample.world Absent)).
Proof. vm_compute. reflexivity. Qed.

(** Two anime, the first with two episodes: one suggestion each, the
    later episode for the first, newest first. *)
Example suggestions_one_per_anime :
  returns getContinueWatchingSuggestions
    (Sample.holding [Sample.entry "A" 1 100 100 1440 1440;
                     Sample.entry "B" 1 200 30 432 1440;
                     Sample.entry "A" 2 300 50 720 1440])
    [Sample.entry "A" 2 300 50 720 1440; Sample.entry "B" 1 200 30 432 1440].
Proof. vm_compute. reflexivity. Qed.

(** The sort keeps records of equal time in file order. *)
Example listing_is_stable :
  returns (getWatchHistory None)
    (Sample.holding [Sample.entry "A" 1 100 0 0 0;
                     Sample.entry "B" 1 200 0 0 0;
                     Sample.entry "C" 1 100 0 0 0;
                     Sample.entry "D" 1 200 0 0 0])
    [Sample.entry "B" 1 200 0 0 0; Sample.entry "D" 1 200 0 0 0;
     Sample.entry "A" 1 100 0 0 0; Sample.entry "C" 1 100 0 0 0].
Proof. vm_compute. reflexivity. Qed.

Lemma C1_witness :
  NoDup (key <$> stored (Sample.holding [Sample.entry "B" 3 50 100 1440 1440])) ∧
  ∃ l, returns (getWatchHistory None)
         (upserts [Sample.entry "A" 1 100 10 144 1440;
                   Sample.entry "A" 1 200 80 1152 1440]
                  (Sample.holding [Sample.entry "B" 3 50 100 1440 1440])) l ∧
       filter (λ h, key h = key (Sample.entry "A" 1 200 80 1152 1440)) l
       = [Sample.entry "A" 1 200 80 1152 1440].
Proof.
  assert (H : NoDup (key <$> stored
                       (Sample.holding [Sample.entry "B" 3 50 100 1440 1440])))
    by (apply (bool_decide_unpack _); vm_compute; exact I).
  split; [exact H|].
  destruct (C1_upsert_one_record_per_key
              (Sample.holding [Sample.entry "B" 3 50 100 1440 1440])
              [Sample.entry "A" 1 100 10 144 1440;
               Sample.entry "A" 1 200 80 1152 1440] H)
    as (_ & l & Hl & _ & Hlast).
  exists l. split; [exact Hl|].
  apply (Hlast [Sample.entry "A" 1 100 10 144 1440]). reflexivity.
Defined.

Lemma C2_witness :
  length (stored (Sample.holding Sample.fifty)) = 50%nat ∧
  (key (Sample.entry "new" 1 4000 0 0 0)
   ∉ key <$> stored (Sample.holding Sample.fifty)) ∧
  ∃ kept dropped,
    returns (getWatchHistory None) (Sample.holding Sample.fifty) (kept ++ [dropped]) ∧
    stored (after (saveWatchHistory (Sample.entry "new" 1 4000 0 0 0))
                  (Sample.holding Sample.fifty))
    = Sample.entry "new" 1 4000 0 0 0 :: kept ∧
    dropped ∈ stored (Sample.holding Sample.fifty) ∧
    Forall (λ h, watchedAt dropped ≤ watchedAt h)
           (stored (Sample.holding Sample.fifty)).
Proof.
  assert (Hlen : length (stored (Sample.holding Sample.fifty)) = 50%nat)
    by (vm_compute; reflexivity).
  assert (Hnew : key (Sample.entry "new" 1 4000 0 0 0)
                 ∉ key <$> stored (Sample.holding Sample.fifty))
    by (apply (bool_decide_unpack _); vm_compute; exact I).
  split; [exact Hlen|]. split; [exact Hnew|].
  exact (proj2 (C2_upsert_cap_evicts_oldest (Sample.holding Sample.fifty)
                  (Sample.entry "new" 1 4000 0 0 0)) Hlen Hnew).
Defined.

(** The absent file gives the empty list and prints nothing. *)
Lemma C9_counterexample :
  HISTORY_FILE (Sample.world Absent) = Absent ∧
  returns (getWatchHistory None) (Sample.world Absent) [] ∧
  console (after (getWatchHistory None) (Sample.world Absent))
  = console (Sample.world Absent).
Proof. vm_compute. repeat split. Qed.

Lemma C9_witness :
  unusable (HISTORY_FILE (Sample.world (Holds NotJson))) ∧
  returns (getWatchHistory None) (Sample.world (Holds NotJson)) [] ∧
  console (after (getWatchHistory None) (Sample.world (Holds NotJson)))
  = ["Error loading watch history:"].
Proof.
  assert (H : unusable (HISTORY_FILE (Sample.world (Holds NotJson))))
    by (right; left; reflexivity).
  split; [exact H|].
  destruct (C9_getWatchHistory_fails_soft None (Sample.world (Holds NotJson)))
    as (l & Hl & _ & _ & Hbad).
  destruct (Hbad H) as [-> Hlog].
  split; [exact Hl | exact Hlog].
Defined.

(** 828 of 1440 seconds is 57.5 percent, which rounds to 58; the doubles
    give 57.49999999999999, and [playVideo] returns 57. *)
Lemma C5_counterexample :
  Player.progress
    (Player.playVideo "https://example.org/1.mp4" Sample.no_options
       (Sample.mpv 828 1440 0)) = 57 ∧
  Js.Math_round (inject_Z 828 / inject_Z 1440 * 100)%Q = 58.
Proof. split; vm_compute; reflexivity. Qed.

Lemma C5_witness :
  Player.playVideo "https://example.org/1.mp4" Sample.no_options
    (Sample.mpv 720 1440 7)
  = {| Player.progress := 50; Player.timePos := 720; Player.duration := 1440 |}.
Proof.
  refine (eq_trans
            (proj1 (C5_playVideo_recomputes_progress
                      "https://example.org/1.mp4" Sample.no_options
                      (Sample.mpv 720 1440 7) 0
                      (Sample.snapshot "finished" 720 1440 7)
                      eq_refl eq_refl eq_refl _ _)) _).
  - simpl. lia.
  - simpl. lia.
  - vm_compute. reflexivity.
Defined.

(** At 129.6 seconds the percentage of 1440 seconds is just below 9;
    the doubles give 9.0, and the snapshot says 9, not 8. *)
Lemma C6_counterexample :
  (Double.round Sample.seconds_129_6 == Sample.seconds_129_6)%Q ∧
  (0 < Sample.seconds_129_6)%Q ∧
  MpvProgress.percent_pos
    (MpvProgress.write_progress_data "playing"
       (Sample.props (Some Sample.seconds_129_6) None) 0) = 9 ∧
  Z.min (Qfloor (100 * Sample.seconds_129_6 / 1440)) 99 = 8.
Proof.
  split; [vm_compute; reflexivity|]. split; [vm_compute; reflexivity|].
  split; vm_compute; reflexivity.
Qed.

Lemma C6_witness :
  MpvProgress.percent_pos
    (MpvProgress.write_progress_data "playing" (Sample.props (Some 300%Q) None) 0)
  = 20 ∧
  MpvProgress.estimated
    (MpvProgress.write_progress_data "playing" (Sample.props (Some 300%Q) None) 0)
  = true.
Proof.
  destruct (C6_write_progress_estimate "playing"
              (Sample.props (Some 300%Q) None) 0)
    as (Hp & He & _).
  - vm_compute. reflexivity.
  - vm_compute. reflexivity.
  - vm_compute. reflexivity.
  - split; [|exact He]. rewrite Hp. vm_compute. reflexivity.
Defined.

(** A player at 5 of 1440 seconds when it shuts down, over a file that
    holds the snapshot taken at 600 seconds: the finished snapshot says
    5. *)
Lemma C7_counterexample :
  ∃ prior final,
    MpvProgress.write_progress true MpvProgress.Missing "playing"
      (Sample.props (Some 600%Q) (Some 1440%Q)) 10
    = MpvProgress.Snapshot prior ∧
    MpvProgress.session true MpvProgress.Missing
      [("playing", Sample.props (Some 600%Q) (Some 1440%Q), 10)]
      (Sample.props (Some 5%Q) (Some 1440%Q), 12)
    = MpvProgress.Snapshot final ∧
    MpvProgress.status prior = "playing" ∧
    MpvProgress.status final = "finished" ∧
    MpvProgress.time_pos prior = 600 ∧
    MpvProgress.time_pos final = 5 ∧
    MpvProgress.time_pos final < MpvProgress.time_pos prior.
Proof. do 2 eexists. vm_compute. repeat split. Qed.

Lemma C7_witness :
  MpvProgress.shutdown_data
    (MpvProgress.Snapshot (Sample.snapshot "playing" 600 1440 41))
    (Sample.props (Some 0%Q) (Some 0%Q)) 12
  = {| MpvProgress.timestamp := 12; MpvProgress.time_pos := 600;
       MpvProgress.duration := 1440; MpvProgress.percent_pos := 41;
       MpvProgress.status := "finished"; MpvProgress.estimated := false |} ∧
  MpvProgress.time_pos (Sample.snapshot "playing" 600 1440 41)
  ≤ MpvProgress.time_pos
      (MpvProgress.shutdown_data
         (MpvProgress.Snapshot (Sample.snapshot "playing" 600 1440 41))
         (Sample.props (Some 0%Q) (Some 0%Q)) 12).
Proof.
  split; [vm_compute; reflexivity|].
  apply (C7_shutdown_keeps_progress_when_live_is_zero
           (Sample.snapshot "playing" 600 1440 41)
           (Sample.props (Some 0%Q) (Some 0%Q)) 12).
  left. vm_compute. reflexivity.
Defined.

(** Auto-play on, 90 percent watched, episode 2 in the listing of the
    season, but the detail of episode 1 says it has no next episode: the
    flow returns to its caller. *)
Lemma C3_counterexample :
  Config.autoPlayNextEpisode Config.getConfig = true ∧
  Player.progress
    (Player.playVideo "url" Sample.no_options (Sample.mpv 1296 1440 0)) = 90 ∧
  Sample.episode 2 ∈ Api.getAnimeEpisodes (Sample.catalog false) "frieren" 1 ∧
  returns (handleVideoPlayback (Sample.catalog false) "frieren"
             (Sample.episode 1) "f1" None (Some play) (Sample.mpv 1296 1440 0))
          (Sample.world Absent) Returns.
Proof.
  split; [reflexivity|]. split; [vm_compute; reflexivity|].
  split; [|vm_compute; reflexivity].
  apply (list_elem_of_lookup_2 _ 1%nat). vm_compute. reflexivity.
Qed.

(** After the advance to episode 2 the flow asks what to do with it; when
    the user cancels that prompt, episode 2 is neither played nor
    recorded. *)
Example auto_advance_asks_before_playing :
  let w1 :=
    after (handleVideoPlayback (Sample.catalog true) "frieren"
             (Sample.episode 1) "f1" None (Some play) (Sample.mpv 1296 1440 0))
          (Sample.world Absent) in
  let w2 :=
    after (handleEpisodeSelection (Sample.catalog true) "frieren"
             (Sample.episode 2) None None None (Sample.mpv 1296 1440 0)) w1 in
  last (console w2) = Some "What would you like to do?" ∧
  writes w2 = writes w1 ∧
  key <$> stored w2 = [("a1", 1, 1)].
Proof. vm_compute. repeat split. Qed.

(** With the details saying there is a next episode, progress 90
    advances to episode 2 and progress 80 does not. *)
Lemma C3_witness :
  returns (handleVideoPlayback (Sample.catalog true) "frieren"
             (Sample.episode 1) "f1" None (Some play) (Sample.mpv 1296 1440 0))
          (Sample.world Absent) (EpisodeSelection (Sample.episode 2)) ∧
  ¬ returns (handleVideoPlayback (Sample.catalog true) "frieren"
               (Sample.episode 1) "f1" None (Some play) (Sample.mpv 1152 1440 0))
            (Sample.world Absent) (EpisodeSelection (Sample.episode 2)).
Proof.
  split.
  - apply (C3_auto_advance Config.getConfig (Sample.catalog true) "frieren"
             (Sample.episode 1) "f1" None (Sample.mpv 1296 1440 0)
             (Sample.world Absent)
             "https://do7---ha-k8y3jyfa-8gcx.zyapbot.eu.org/animes/frieren/1/1-f1-1080p.mp4?big=1"
             {| Api.episodeData :=
                  {| Api.fansub := Sample.subs;
                     Api.files := [{| Api.resolution := 720 |};
                                   {| Api.resolution := 1080 |}];
                     Api.hasNextEpisode := true |};
                Api.fansubs := [Sample.subs] |}
             (Sample.episode 2)).
    + vm_compute. reflexivity.
    + vm_compute. reflexivity.
    + split; [reflexivity|]. split; [vm_compute; discriminate|].
      split; [reflexivity|]. exists 1%nat. vm_compute. reflexivity.
  - intros H.
    apply (C3_auto_advance Config.getConfig (Sample.catalog true) "frieren"
             (Sample.episode 1) "f1" None (Sample.mpv 1152 1440 0)
             (Sample.world Absent)
             "https://do7---ha-k8y3jyfa-8gcx.zyapbot.eu.org/animes/frieren/1/1-f1-1080p.mp4?big=1"
             {| Api.episodeData :=
                  {| Api.fansub := Sample.subs;
                     Api.files := [{| Api.resolution := 720 |};
                                   {| Api.resolution := 1080 |}];
                     Api.hasNextEpisode := true |};
                Api.fansubs := [Sample.subs] |}
             (Sample.episode 2)) in H.
    + destruct H as (_ & H85 & _). vm_compute in H85. apply H85. reflexivity.
    + vm_compute. reflexivity.
    + vm_compute. reflexivity.
Defined.




(** * Further properties of the sources *)

(** ** Sorting, once more *)

Section SortFilter.
Context {A : Type} (f : A → Z).

Lemma sort_insert_head (x : A) (l : list A) :
  (∀ y, head l = Some y → f y ≤ f x) →
  Js.sort_insert (λ a b, f b - f a) x l = x :: l.
Proof.
  destruct l as [|y l]; simpl; intros H; [done|].
  destruct (Z.leb_spec (f y - f x) 0); [done|].
  specialize (H y eq_refl). lia.
Qed.

Lemma filter_sort_insert_out (P : A → Prop) `{∀ x, Decision (P x)}
    (x : A) (s : list A) :
  ¬ P x →
  filter P (Js.sort_insert (λ a b, f b - f a) x s) = filter P s.
Proof.
  intros Hx. induction s as [|y s IH]; simpl.
  - by rewrite filter_cons_False.
  - destruct (Z.leb _ _).
    + by rewrite (filter_cons_False _ x).
    + rewrite !(filter_cons _ y). by rewrite IH.
Qed.

Lemma filter_sort_insert_in (P : A → Prop) `{∀ x, Decision (P x)}
    (x : A) (s : list A) :
  StronglySorted (λ a b, f b ≤ f a) s →
  P x →
  filter P (Js.sort_insert (λ a b, f b - f a) x s)
  = Js.sort_insert (λ a b, f b - f a) x (filter P s).
Proof.
  intros Hs Hx. induction Hs as [|y s Hs IH Hy]; simpl.
  - by rewrite filter_cons_True.
  - rewrite Forall_forall in Hy.
    destruct (Z.leb_spec (f y - f x) 0) as [Hle|Hgt].
    + rewrite (filter_cons_True _ x) by done.
      symmetry. apply sort_insert_head. intros z Hz.
      assert (Hin : z ∈ filter P (y :: s)) by by apply head_Some_elem_of.
      apply list_elem_of_filter in Hin as [_ [->|Hin]%elem_of_cons]; [lia|].
      specialize (Hy z Hin). simpl in Hy. lia.
    + rewrite !(filter_cons _ y). destruct (decide (P y)).
      * simpl. destruct (Z.leb_spec (f y - f x) 0); [lia|]. by rewrite IH.
      * apply IH.
Qed.

(** Filtering commutes with the sort: the sort never reorders the
    records it keeps apart. *)
Lemma filter_sort (P : A → Prop) `{∀ x, Decision (P x)} (l : list A) :
  filter P (Js.sort (λ a b, f b - f a) l)
  = Js.sort (λ a b, f b - f a) (filter P l).
Proof.
  induction l as [|x l IH]; [done|].
  change (Js.sort ?c (x :: l)) with (Js.sort_insert c x (Js.sort c l)).
  rewrite filter_cons. destruct (decide (P x)).
  - rewrite filter_sort_insert_in; [|apply (sort_sorted f)|done].
    by rewrite IH.
  - rewrite filter_sort_insert_out by done. exact IH.
Qed.

Lemma sort_same_key (t : Z) (l : list A) :
  Forall (λ x, f x = t) l → Js.sort (λ a b, f b - f a) l = l.
Proof.
  induction 1 as [|x l Hx Hl IH]; [done|].
  change (Js.sort ?c (x :: l)) with (Js.sort_insert c x (Js.sort c l)).
  rewrite IH. apply sort_insert_head.
  intros y Hy. apply head_Some_elem_of in Hy.
  rewrite Forall_forall in Hl. rewrite (Hl y Hy). lia.
Qed.
End SortFilter.

Lemma listing_stored (w : World) (l : list WatchHistoryEntry) :
  HISTORY_FILE w = Holds (JsonEntries l) →
  listing None (HISTORY_FILE w) = Js.sort newest_first l.
Proof. intros ->. unfold listing. by rewrite revive_fmap. Qed.

Lemma listing_unstored (w : World) :
  stored w = [] → listing None (HISTORY_FILE w) = [].
Proof.
  intros Hs. pose proof (stored_length_listing w) as Hl. rewrite Hs in Hl.
  by destruct (listing None (HISTORY_FILE w)).
Qed.

(** ** The history store: queries *)

(** X1: the listing holds every stored record exactly once, newest first;
    records of equal time keep the order they have in the file; reading
    changes nothing in the file. *)
Theorem X1_list_is_stable_sorted_permutation (w : World) :
  ∃ l, returns (getWatchHistory None) w l ∧
       l ≡ₚ stored w ∧
       StronglySorted newer l ∧
       (∀ t, filter (λ e, watchedAt e = t) l
             = filter (λ e, watchedAt e = t) (stored w)) ∧
       HISTORY_FILE (after (getWatchHistory None) w) = HISTORY_FILE w ∧
       writes (after (getWatchHistory None) w) = writes w.
Proof.
  exists (listing None (HISTORY_FILE w)).
  unfold returns, after. rewrite getWatchHistory_run. cbn [fst snd HISTORY_FILE writes].
  split; [done|]. split; [apply listing_perm|]. split; [apply listing_sorted|].
  split; [|done].
  intros t. unfold stored, listing.
  destruct (HISTORY_FILE w) as [| |[| |l]]; try done.
  rewrite revive_fmap.
  rewrite (filter_sort watchedAt).
  apply (sort_same_key watchedAt t).
  apply Forall_forall. by intros x [Hx _]%list_elem_of_filter.
Qed.

(** X2: a positive limit gives that many of the newest records (all of
    them when there are fewer); the limit 0 is no limit; a negative limit
    leaves that many of the oldest records out. *)
Theorem X2_list_limit (n : Z) (w : World) :
  ∃ full l,
    returns (getWatchHistory None) w full ∧
    returns (getWatchHistory (Some n)) w l ∧
    (0 < n → l = take (Z.to_nat n) full ∧
             length l = Nat.min (Z.to_nat n) (length (stored w))) ∧
    (n = 0 → l = full) ∧
    (n < 0 → l = take (length full - Z.to_nat (- n)) full).
Proof.
  exists (listing None (HISTORY_FILE w)), (listing (Some n) (HISTORY_FILE w)).
  unfold returns. rewrite !getWatchHistory_run. cbn [fst].
  split; [done|]. split; [done|].
  rewrite <- stored_length_listing.
  destruct (HISTORY_FILE w) as [| |[| |l]]; cbn [listing];
    try (repeat split; intros; rewrite ?take_nil; try done;
         cbn [length]; lia).
  set (sorted := Js.sort newest_first (revive <$> l)).
  split; [|split].
  - intros Hn. destruct (Z.eqb_spec n 0); [lia|].
    rewrite slice0_nonneg by lia. split; [done|]. apply length_take.
  - intros ->. done.
  - intros Hn. destruct (Z.eqb_spec n 0); [lia|].
    unfold Js.slice0. destruct (Z.ltb_spec n 0); [done | lia].
Qed.

Lemma getLastWatchedAnime_run (w : World) :
  returns getLastWatchedAnime w (head (listing None (HISTORY_FILE w))).
Proof.
  unfold returns, getLastWatchedAnime.
  unfold mbind, Js.M_bind, Js.bind, mret, Js.M_ret, Js.ret.
  rewrite getWatchHistory_run. cbn [fst].
  destruct (HISTORY_FILE w) as [| |[| |l]]; try reflexivity.
  unfold listing. cbn [Z.eqb]. rewrite slice0_nonneg by lia.
  by destruct (Js.sort newest_first (revive <$> l)).
Qed.

(** X3: the last watched record is absent exactly when nothing is stored;
    otherwise it is a stored record and no stored record is newer. *)
Theorem X3_last_watched_is_newest (w : World) :
  ∃ r, returns getLastWatchedAnime w r ∧
       (r = None ↔ stored w = []) ∧
       (∀ x, r = Some x →
             x ∈ stored w ∧
             Forall (λ h, watchedAt h ≤ watchedAt x) (stored w)).
Proof.
  exists (head (listing None (HISTORY_FILE w))).
  split; [apply getLastWatchedAnime_run|].
  pose proof (listing_perm w) as Hp.
  pose proof (listing_sorted (HISTORY_FILE w)) as Hs.
  destruct (listing None (HISTORY_FILE w)) as [|x tail]; cbn [head].
  - apply Permutation_nil_l in Hp. rewrite <- Hp. split; [done|]. by intros x [=].
  - split.
    + split; [done|]. intros Hn. rewrite Hn in Hp.
      by apply Permutation_nil_r in Hp.
    + intros ? [= <-]. rewrite <- Hp. split; [left|].
      apply StronglySorted_inv in Hs as [_ Hx]. constructor; [lia | exact Hx].
Qed.

Lemma getAnimeWatchHistory_run (id : string) (w : World) :
  returns (getAnimeWatchHistory id) w
    (filter (λ entry, animeId entry = id) (listing None (HISTORY_FILE w))).
Proof.
  unfold returns, getAnimeWatchHistory.
  unfold mbind, Js.M_bind, Js.bind, mret, Js.M_ret, Js.ret.
  by rewrite getWatchHistory_run.
Qed.

(** X4: the history of one anime is the stored records of that anime, all
    of them and no other, newest first. *)
Theorem X4_anime_history (id : string) (w : World) :
  ∃ l, returns (getAnimeWatchHistory id) w l ∧
       l ≡ₚ filter (λ e, animeId e = id) (stored w) ∧
       StronglySorted newer l ∧
       (∀ e, e ∈ l ↔ e ∈ stored w ∧ animeId e = id).
Proof.
  exists (filter (λ entry, animeId entry = id) (listing None (HISTORY_FILE w))).
  split; [apply getAnimeWatchHistory_run|]. split; [|split].
  - by rewrite listing_perm.
  - eapply StronglySorted_sublist; [apply sublist_filter | apply listing_sorted].
  - intros e. rewrite list_elem_of_filter, listing_perm. tauto.
Qed.

Lemma getContinueWatchingSuggestions_absent (w : World) :
  listing None (HISTORY_FILE w) = [] →
  returns getContinueWatchingSuggestions w [].
Proof.
  intros Hl. unfold returns.
  rewrite getContinueWatchingSuggestions_run, Hl. reflexivity.
Qed.

(** X5: clearing an existing history file returns normally and leaves no
    file: the listing, the last watched record and the suggestions are
    then empty; clearing again, or clearing when there is no file, changes
    nothing in the store and only prints that there is nothing to clear.
    Nothing is ever written by clearing.  (A file that exists but cannot
    be read is left aside: whether it can be unlinked is not known.) *)
Theorem X5_clear_history (w : World) :
  HISTORY_FILE w ≠ Unreadable →
  let w1 := after clearWatchHistory w in
  returns clearWatchHistory w tt ∧
  HISTORY_FILE w1 = Absent ∧
  writes w1 = writes w ∧
  returns (getWatchHistory None) w1 [] ∧
  returns getLastWatchedAnime w1 None ∧
  returns getContinueWatchingSuggestions w1 [] ∧
  returns clearWatchHistory w1 tt ∧
  HISTORY_FILE (after clearWatchHistory w1) = Absent ∧
  console (after clearWatchHistory w1)
  = console w1 ++ ["No watch history to clear"].
Proof.
  intros Hf w1.
  assert (H1 : HISTORY_FILE w1 = Absent).
  { subst w1. unfold after. destruct w as [f ws out t]. by destruct f. }
  split; [destruct w as [f ws out t]; by destruct f|].
  split; [exact H1|].
  split; [subst w1; destruct w as [f ws out t]; by destruct f|].
  split; [unfold returns; by rewrite getWatchHistory_run, H1|].
  split.
  { pose proof (getLastWatchedAnime_run w1) as H. by rewrite H1 in H. }
  split; [apply getContinueWatchingSuggestions_absent; by rewrite H1|].
  destruct w1 as [f1 ws1 out1 t1]. cbn in H1. subst f1. by repeat split.
Qed.

Lemma spliced_length (e : WatchHistoryEntry) (history : list WatchHistoryEntry) :
  length (spliced e history)
  = if decide (key e ∈ key <$> history) then pred (length history)
    else length history.
Proof.
  unfold spliced. destruct (list_find _ _) as [[i x]|] eqn:Hfind.
  - apply list_find_Some in Hfind as (Hi & Hx & _).
    apply same_episode_key in Hx.
    rewrite decide_True.
    + rewrite length_delete; [lia | by eexists].
    + rewrite <- Hx. apply list_elem_of_fmap_2. by eapply list_elem_of_lookup_2.
  - apply list_find_None in Hfind. rewrite Forall_forall in Hfind.
    rewrite decide_False; [done|].
    intros (h & Hk & Hh)%list_elem_of_fmap.
    apply (Hfind h Hh). by apply same_episode_key.
Qed.

Lemma spliced_keeps_others (e h : WatchHistoryEntry)
    (history : list WatchHistoryEntry) :
  h ∈ history → key h ≠ key e → h ∈ spliced e history.
Proof.
  intros Hh Hk. unfold spliced.
  destruct (list_find _ _) as [[i x]|] eqn:Hfind; [|done].
  apply list_find_Some in Hfind as (Hi & Hx & _).
  apply same_episode_key in Hx.
  rewrite delete_take_drop.
  rewrite <- (take_drop_middle _ _ _ Hi) in Hh.
  rewrite elem_of_app, elem_of_cons in Hh. rewrite elem_of_app.
  destruct Hh as [?|[->|?]]; [by left | congruence | by right].
Qed.

(** X6: an upsert puts its record first in the file, and while the cap is
    not reached it loses nothing: with fewer than 50 records stored, or
    with 50 of which one has the key of the new record, every stored
    record of another key is still stored afterwards. *)
Theorem X6_upsert_keeps_the_other_records (w : World) (e : WatchHistoryEntry) :
  ((length (stored w) < 50)%nat ∨
   ((length (stored w) ≤ 50)%nat ∧ key e ∈ key <$> stored w)) →
  head (stored (after (saveWatchHistory e) w)) = Some e ∧
  (∀ h, h ∈ stored w → key h ≠ key e →
        h ∈ stored (after (saveWatchHistory e) w)) ∧
  length (stored (after (saveWatchHistory e) w))
  = (if decide (key e ∈ key <$> stored w) then length (stored w)
     else S (length (stored w))).
Proof.
  intros Hroom. rewrite stored_after_save. unfold upserted.
  assert (Hin : key e ∈ key <$> listing None (HISTORY_FILE w)
                ↔ key e ∈ key <$> stored w) by by rewrite listing_perm.
  assert (Hlen : (length (spliced e (listing None (HISTORY_FILE w))) < 50)%nat).
  { rewrite spliced_length, stored_length_listing.
    destruct (decide _) as [Hk|Hk].
    - destruct Hroom as [?|[? _]]; [lia|].
      apply Hin in Hk. apply list_elem_of_fmap in Hk as (x & _ & Hx).
      destruct (stored w); [by apply elem_of_nil in Hx | simpl in *; lia].
    - destruct Hroom as [?|[_ ?]]; [lia|]. exfalso. by apply Hk, Hin. }
  rewrite take_ge by (simpl; lia).
  split; [done|]. split.
  - intros h Hh Hk. right. apply spliced_keeps_others; [|done].
    by rewrite listing_perm.
  - simpl. rewrite spliced_length, stored_length_listing.
    destruct (decide (key e ∈ key <$> listing None (HISTORY_FILE w))) as [Hk|Hk].
    + rewrite decide_True by by apply Hin.
      apply Hin in Hk. apply list_elem_of_fmap in Hk as (x & _ & Hx).
      destruct (stored w); [by apply elem_of_nil in Hx | simpl; lia].
    + rewrite decide_False; [done|]. intros Hk'. by apply Hk, Hin.
Qed.

Lemma listing_head_newest (l : list WatchHistoryEntry) (e : WatchHistoryEntry) :
  Forall (λ h, watchedAt h ≤ watchedAt e) l →
  head (Js.sort newest_first (e :: l)) = Some e.
Proof.
  intros Hl.
  change (Js.sort ?c (e :: l)) with (Js.sort_insert c e (Js.sort c l)).
  unfold newest_first. rewrite (sort_insert_head watchedAt); [done|].
  intros y Hy. apply head_Some_elem_of in Hy.
  rewrite (sort_perm _ l) in Hy. rewrite Forall_forall in Hl. by apply Hl.
Qed.

Lemma collect_head (x : WatchHistoryEntry) (l : list WatchHistoryEntry) :
  StronglySorted newer (x :: l) →
  head (take 5 (Map_values (collect [] (x :: l)))) = Some x.
Proof.
  intros Hs. apply StronglySorted_inv in Hs as [Hs _].
  change (collect [] (x :: l)) with (collect [(animeId x, x)] l).
  destruct (collect_spec l [(animeId x, x)] Hs) as (rest & -> & _).
  reflexivity.
Qed.

(** After an upsert of a record at least as new as every stored one,
    the listing starts with that record. *)
Lemma listing_after_save_newest (w : World) (e : WatchHistoryEntry) :
  Forall (λ h, watchedAt h ≤ watchedAt e) (stored w) →
  ∃ tail, listing None (HISTORY_FILE (after (saveWatchHistory e) w)) = e :: tail.
Proof.
  intros Hnew.
  set (w1 := after (saveWatchHistory e) w).
  assert (Hf : HISTORY_FILE w1
               = Holds (JsonEntries (upserted e (HISTORY_FILE w)))).
  { subst w1. unfold after. by rewrite saveWatchHistory_run. }
  rewrite (listing_stored w1 _ Hf). unfold upserted.
  change (take 50 (e :: ?l)) with (e :: take 49 l).
  assert (Hall : Forall (λ h, watchedAt h ≤ watchedAt e)
                   (take 49 (spliced e (listing None (HISTORY_FILE w))))).
  { apply Forall_forall. intros h Hh.
    rewrite Forall_forall in Hnew. apply Hnew.
    rewrite <- listing_perm.
    eapply elem_of_sublist; [|apply spliced_sublist].
    eapply elem_of_sublist; [exact Hh | apply sublist_take]. }
  pose proof (listing_head_newest _ e Hall) as H.
  destruct (Js.sort newest_first _) as [|x tail]; [done|].
  exists tail. by injection H as ->.
Qed.

(** X7: after an upsert of a record that is at least as new as every
    stored record, that record is the last watched one and the first of
    the suggestions. *)
Theorem X7_upsert_newest_is_last_watched (w : World) (e : WatchHistoryEntry) :
  Forall (λ h, watchedAt h ≤ watchedAt e) (stored w) →
  returns getLastWatchedAnime (after (saveWatchHistory e) w) (Some e) ∧
  ∃ more, returns getContinueWatchingSuggestions
            (after (saveWatchHistory e) w) (e :: more).
Proof.
  intros Hnew.
  set (w1 := after (saveWatchHistory e) w).
  destruct (listing_after_save_newest w e Hnew) as [tail Htail]. fold w1 in Htail.
  split.
  - pose proof (getLastWatchedAnime_run w1) as H. by rewrite Htail in H.
  - pose proof (collect_head e tail) as Hc.
    unfold returns. rewrite getContinueWatchingSuggestions_run, Htail.
    destruct (take 5 _) as [|x more].
    + discriminate Hc. rewrite <- Htail. apply listing_sorted.
    + exists more. f_equal. f_equal.
      assert (Some x = Some e) as [= ->]; [|done].
      apply Hc. rewrite <- Htail. apply listing_sorted.
Qed.

(** X8: the record the main menu offers to continue is the first of the
    continue-watching suggestions, and there is no suggestion exactly when
    nothing is stored. *)
Theorem X8_first_suggestion_is_last_watched (w : World) :
  ∃ r s, returns getLastWatchedAnime w r ∧
         returns getContinueWatchingSuggestions w s ∧
         head s = r ∧
         (s = [] ↔ stored w = []).
Proof.
  exists (head (listing None (HISTORY_FILE w))),
         (take 5 (Map_values (collect [] (listing None (HISTORY_FILE w))))).
  split; [apply getLastWatchedAnime_run|].
  split; [unfold returns; apply getContinueWatchingSuggestions_run|].
  pose proof (listing_sorted (HISTORY_FILE w)) as Hs.
  pose proof (listing_perm w) as Hp.
  destruct (listing None (HISTORY_FILE w)) as [|x tail].
  - apply Permutation_nil_l in Hp. rewrite <- Hp. done.
  - pose proof (collect_head x tail Hs) as Hc. split; [exact Hc|].
    split.
    + intros Hn. rewrite Hn in Hc. discriminate Hc.
    + intros Hn. rewrite Hn in Hp. by apply Permutation_nil_r in Hp.
Qed.

(** ** The progress script and the controller *)

Lemma Qis0_false (x : Q) : ¬ (x == 0)%Q → MpvProgress.Qis0 x = false.
Proof.
  intros H. unfold MpvProgress.Qis0. apply not_true_is_false.
  intros E%Qeq_bool_iff. tauto.
Qed.

Lemma Qpos_false (x : Q) : (x <= 0)%Q → MpvProgress.Qpos x = false.
Proof.
  intros H. unfold MpvProgress.Qpos. apply negb_false_iff.
  by apply Qle_bool_iff.
Qed.

Lemma Qpos_not0 (x : Q) : (0 < x)%Q → ¬ (x == 0)%Q.
Proof. intros H E. rewrite E in H. by apply Qlt_irrefl in H. Qed.

(** The percentage of a part, rounded down: between 0 and 100, and
    within one of the percentage computed exactly. *)
Lemma percent_floored (t d : Q) :
  (0 < t)%Q → (0 < d)%Q → (t <= d)%Q →
  let p := Qfloor (Double.mul (Double.div t d) 100) in
  0 ≤ p ≤ 100 ∧ Qfloor (t / d * 100) - 1 ≤ p ∧ p ≤ Qfloor (t / d * 100) + 1.
Proof.
  intros Ht Hd Htd p. subst p.
  destruct (percent_bounds t d) as (_ & _ & H0 & H100); [lra | lra | lra |].
  destruct (percent_error t d) as [He1 He2]; [lra | lra | lra |].
  assert (Heps : (Double.pow2 (-39) <= 1)%Q) by (vm_compute; discriminate).
  pose proof (Qfloor_resp_le _ _ H0) as Hf0. change (Qfloor 0) with 0 in Hf0.
  pose proof (Qfloor_resp_le _ _ H100) as Hf100.
  change (Qfloor 100) with 100 in Hf100.
  split; [lia|]. split.
  - apply Z.le_sub_le_add_r, Qfloor_near. lra.
  - apply Qfloor_near. lra.
Qed.

(** X9: once mpv reports a positive duration, a snapshot is never marked
    estimated and carries the duration and the position rounded down; its
    percentage is mpv's own when mpv reports one, and otherwise, with a
    positive position, the percentage the doubles give for the ratio of
    position to duration, rounded down: with the position within the
    duration, a number from 0 to 100, within one of the percentage
    computed exactly. *)
Theorem X9_write_progress_with_known_duration
    (status : string) (mp : MpvProgress.Props) (os_time : Z) :
  let t := MpvProgress.get_property_number (MpvProgress.prop_time_pos mp) 0 in
  let d := MpvProgress.get_property_number (MpvProgress.prop_duration mp) 0 in
  let p := MpvProgress.get_property_number (MpvProgress.prop_percent_pos mp) 0 in
  (0 < d)%Q →
  let data := MpvProgress.write_progress_data status mp os_time in
  MpvProgress.estimated data = false ∧
  MpvProgress.status data = status ∧
  MpvProgress.time_pos data = Qfloor t ∧
  MpvProgress.duration data = Qfloor d ∧
  (¬ (p == 0)%Q → MpvProgress.percent_pos data = Qfloor p) ∧
  ((p == 0)%Q → (0 < t)%Q →
   MpvProgress.percent_pos data = Qfloor (Double.mul (Double.div t d) 100) ∧
   ((t <= d)%Q →
    0 ≤ MpvProgress.percent_pos data ≤ 100 ∧
    Qfloor (t / d * 100) - 1 ≤ MpvProgress.percent_pos data ∧
    MpvProgress.percent_pos data ≤ Qfloor (t / d * 100) + 1)) ∧
  ((p == 0)%Q → (t <= 0)%Q → MpvProgress.percent_pos data = 0).
Proof.
  intros t d p Hd data. subst data.
  unfold MpvProgress.write_progress_data. fold t d p. cbv zeta.
  rewrite (Qis0_false d (Qpos_not0 d Hd)). cbv iota.
  rewrite ?(Qis0_false d (Qpos_not0 d Hd)), (Qpos_true d Hd).
  cbn [andb MpvProgress.estimated MpvProgress.status MpvProgress.time_pos
       MpvProgress.duration MpvProgress.percent_pos].
  do 4 (split; [reflexivity|]). split; [|split].
  - intros Hp. by rewrite (Qis0_false p Hp).
  - intros Hp Ht. rewrite (Qis0_true p Hp), (Qpos_true t Ht). cbn [andb].
    split; [reflexivity|]. intros Htd. by apply percent_floored.
  - intros Hp Ht. rewrite (Qis0_true p Hp), (Qpos_false t Ht). cbn [andb].
    by rewrite (Qfloor_comp _ _ Hp).
Qed.

(** The finished snapshot under the guard of the shutdown handler. *)
Lemma shutdown_data_guarded
    (existing : MpvProgress.ProgressData) (mp : MpvProgress.Props) (os_time : Z) :
  let t := MpvProgress.get_property_number (MpvProgress.prop_time_pos mp) 0 in
  let d := MpvProgress.get_property_number (MpvProgress.prop_duration mp) 0 in
  let p := MpvProgress.get_property_number (MpvProgress.prop_percent_pos mp) 0 in
  (t == 0 ∨ d == 0)%Q →
  let T := Qmax t (inject_Z (MpvProgress.time_pos existing)) in
  let D := Qmax d (inject_Z (MpvProgress.duration existing)) in
  let P := if MpvProgress.Qis0 p
           then inject_Z (MpvProgress.percent_pos existing) else p in
  MpvProgress.shutdown_data (MpvProgress.Snapshot existing) mp os_time =
  {| MpvProgress.timestamp := os_time;
     MpvProgress.time_pos := Z.max (Qfloor t) (MpvProgress.time_pos existing);
     MpvProgress.duration := Z.max (Qfloor d) (MpvProgress.duration existing);
     MpvProgress.percent_pos :=
       Qfloor (if MpvProgress.Qis0 P && MpvProgress.Qpos D && MpvProgress.Qpos T
               then Double.mul (Double.div T D) 100 else P);
     MpvProgress.status := "finished";
     MpvProgress.estimated := false |}.
Proof.
  intros t d p Hzero T D P.
  assert (Hguard : MpvProgress.Qis0 t || MpvProgress.Qis0 d = true).
  { apply orb_true_iff. destruct Hzero as [H|H]; [left|right]; by apply Qis0_true. }
  unfold MpvProgress.shutdown_data. fold t d p. cbv zeta. rewrite Hguard.
  fold T D P. by rewrite <- !Qfloor_Qmax.
Qed.

Lemma session_writable (file : MpvProgress.ProgressFile)
    (ws : list (string * MpvProgress.Props * Z))
    (status : string) (mp : MpvProgress.Props) (os_time : Z)
    (last : MpvProgress.Props * Z) :
  MpvProgress.session true file (ws ++ [(status, mp, os_time)]) last
  = MpvProgress.Snapshot
      (MpvProgress.shutdown_data
         (MpvProgress.Snapshot (MpvProgress.write_progress_data status mp os_time))
         (fst last) (snd last)).
Proof. unfold MpvProgress.session. rewrite foldl_app. reflexivity. Qed.

Lemma Qfloor_eq0 (x : Q) : (x == 0)%Q → Qfloor x = 0.
Proof. intros H. by rewrite (Qfloor_comp _ _ H). Qed.

(** X10: a video whose duration mpv never reports.  When the last
    snapshot written during playback was an estimate at position [t], and
    the player's properties all read 0 at shutdown, the controller gets
    position [t] rounded down, duration 0 and the estimated percentage of
    that snapshot, which is at most 99. *)
Theorem X10_estimate_reaches_the_controller
    (url : string) (options : Player.PlaybackOptions) (code ms : Z)
    (file : MpvProgress.ProgressFile)
    (ws : list (string * MpvProgress.Props * Z))
    (status : string) (mp live : MpvProgress.Props) (os_time os_time' : Z) :
  let t := MpvProgress.get_property_number (MpvProgress.prop_time_pos mp) 0 in
  (MpvProgress.get_property_number (MpvProgress.prop_duration mp) 0 == 0)%Q →
  (MpvProgress.get_property_number (MpvProgress.prop_length mp) 0 == 0)%Q →
  (0 < t)%Q →
  (MpvProgress.get_property_number (MpvProgress.prop_time_pos live) 0 == 0)%Q →
  (MpvProgress.get_property_number (MpvProgress.prop_duration live) 0 == 0)%Q →
  (MpvProgress.get_property_number (MpvProgress.prop_percent_pos live) 0 == 0)%Q →
  let result :=
    Player.playVideo url options
      {| Player.mpv_found := true;
         Player.mpv_exit := Player.Close code;
         Player.progressFile :=
           MpvProgress.session true file (ws ++ [(status, mp, os_time)])
                               (live, os_time');
         Player.elapsed := ms |} in
  result = {| Player.progress :=
                MpvProgress.percent_pos
                  (MpvProgress.write_progress_data status mp os_time);
              Player.timePos := Qfloor t;
              Player.duration := 0 |} ∧
  Player.progress result
  = Qfloor (Qmin (Double.mul (Double.div t 1440) 100) 99) ∧
  0 ≤ Player.progress result ≤ 99.
Proof.
  intros t Hd Hl Ht Ht' Hd' Hp' result.
  destruct (estimate_bounds t Ht) as (Hb & _).
  set (e := Qfloor (Qmin (Double.mul (Double.div t 1440) 100) 99)) in *.
  assert (E : result = {| Player.progress := e;
                          Player.timePos := Qfloor t;
                          Player.duration := 0 |}).
  { subst result. unfold Player.playVideo. cbn [Player.mpv_found negb
      Player.mpv_exit Player.progressFile].
    rewrite session_writable. cbn [fst snd].
    rewrite (write_progress_estimate_fields status mp os_time Hd Hl Ht).
    fold t. fold e.
    rewrite shutdown_data_guarded by (by left).
    cbn [MpvProgress.time_pos MpvProgress.duration MpvProgress.percent_pos].
    rewrite (Qis0_true _ Hp').
    assert (HD : MpvProgress.Qpos
                   (Qmax (MpvProgress.get_property_number
                            (MpvProgress.prop_duration live) 0) (inject_Z 0))
                 = false).
    { apply Qpos_false. apply Q.max_lub; [by rewrite Hd'|done]. }
    rewrite HD, andb_false_r, andb_false_l.
    rewrite Qfloor_Z, (Qfloor_eq0 _ Ht'), (Qfloor_eq0 _ Hd').
    assert (H0 : 0 ≤ Qfloor t).
    { change 0 with (Qfloor 0). apply Qfloor_resp_le. by apply Qlt_le_weak. }
    unfold Player.read_final_progress.
    cbn [MpvProgress.time_pos MpvProgress.duration MpvProgress.percent_pos].
    rewrite !or0_id, !Math_round_inject_Z.
    rewrite (Z.max_r 0 (Qfloor t)) by done.
    change (Z.max 0 0) with 0. change (0 <? 0) with false. cbn [andb].
    reflexivity. }
  rewrite (write_progress_estimate_fields status mp os_time Hd Hl Ht).
  fold t. fold e. cbn [MpvProgress.percent_pos].
  split; [exact E|]. rewrite E. cbn [Player.progress]. split; [done | lia].
Qed.

(** X11: a player that still has a position and a duration of at least
    one second when it shuts down.  Whatever was written before, the
    controller gets both rounded down, and [Math.round] of the percentage
    the doubles give for the ratio of the two. *)
Theorem X11_live_values_reach_the_controller
    (url : string) (options : Player.PlaybackOptions) (code ms : Z)
    (file : MpvProgress.ProgressFile)
    (ws : list (string * MpvProgress.Props * Z))
    (live : MpvProgress.Props) (os_time : Z) :
  let t := MpvProgress.get_property_number (MpvProgress.prop_time_pos live) 0 in
  let d := MpvProgress.get_property_number (MpvProgress.prop_duration live) 0 in
  (1 <= t)%Q → (1 <= d)%Q →
  Player.playVideo url options
    {| Player.mpv_found := true;
       Player.mpv_exit := Player.Close code;
       Player.progressFile := MpvProgress.session true file ws (live, os_time);
       Player.elapsed := ms |}
  = {| Player.progress :=
         Js.Math_round
           (Double.mul (Double.div (inject_Z (Qfloor t)) (inject_Z (Qfloor d)))
                       100);
       Player.timePos := Qfloor t;
       Player.duration := Qfloor d |}.
Proof.
  intros t d Ht Hd.
  assert (Ht0 : ¬ (t == 0)%Q).
  { intros E. rewrite E in Ht. by apply Qle_not_lt in Ht. }
  assert (Hd0 : ¬ (d == 0)%Q).
  { intros E. rewrite E in Hd. by apply Qle_not_lt in Hd. }
  assert (Hft : 1 ≤ Qfloor t).
  { change 1 with (Qfloor 1). by apply Qfloor_resp_le. }
  assert (Hfd : 1 ≤ Qfloor d).
  { change 1 with (Qfloor 1). by apply Qfloor_resp_le. }
  set (before := foldl (λ file '(status, mp, os_time),
                          MpvProgress.write_progress true file status mp os_time)
                       file ws).
  destruct (shutdown_writes_live_values before live os_time Ht0 Hd0) as [E1 E2].
  fold t in E1. fold d in E2.
  set (run := {| Player.mpv_found := true;
                 Player.mpv_exit := Player.Close code;
                 Player.progressFile :=
                   MpvProgress.session true file ws (live, os_time);
                 Player.elapsed := ms |}).
  assert (Hfile : Player.progressFile run
                  = MpvProgress.Snapshot
                      (MpvProgress.shutdown_data before live os_time))
    by reflexivity.
  rewrite (playVideo_positive url options run code _ eq_refl eq_refl Hfile);
    rewrite ?E1, ?E2; [reflexivity | lia | lia].
Qed.

(** X12: the controller reports all zeros when mpv is not installed, when
    it cannot be started, and when it leaves no progress file or one that
    does not parse; and from a snapshot whose position or duration is not
    positive it takes the position, the duration and the script's own
    percentage as they are. *)
Theorem X12_playVideo_degrades_to_what_it_can_read
    (url : string) (options : Player.PlaybackOptions) (run : Player.MpvRun) :
  (Player.mpv_found run = false ∨
   Player.mpv_exit run = Player.SpawnError ∨
   Player.progressFile run = MpvProgress.Missing ∨
   Player.progressFile run = MpvProgress.Garbled →
   Player.playVideo url options run = Player.zero) ∧
  (∀ code data,
     Player.mpv_found run = true →
     Player.mpv_exit run = Player.Close code →
     Player.progressFile run = MpvProgress.Snapshot data →
     MpvProgress.time_pos data ≤ 0 ∨ MpvProgress.duration data ≤ 0 →
     Player.playVideo url options run =
       {| Player.progress := MpvProgress.percent_pos data;
          Player.timePos := MpvProgress.time_pos data;
          Player.duration := MpvProgress.duration data |}).
Proof.
  split.
  - unfold Player.playVideo. intros [H|[H|[H|H]]].
    + by rewrite H.
    + rewrite H. by destruct (Player.mpv_found run).
    + rewrite H. destruct (Player.mpv_found run), (Player.mpv_exit run); done.
    + rewrite H. destruct (Player.mpv_found run), (Player.mpv_exit run); done.
  - intros code data Hfound Hexit Hfile Hnonpos.
    unfold Player.playVideo, Player.read_final_progress.
    rewrite Hfound, Hexit, Hfile. cbn [negb].
    rewrite !or0_id, !Math_round_inject_Z.
    destruct (Z.ltb_spec 0 (MpvProgress.duration data));
      destruct (Z.ltb_spec 0 (MpvProgress.time_pos data)); cbn [andb];
      first [reflexivity | lia].
Qed.

(** X13: when the position is positive and within the duration, the
    percentage the controller computes lies between 0 and 100, and it does
    not decrease when the position grows. *)
Theorem X13_progress_is_a_percentage
    (url : string) (options : Player.PlaybackOptions) (code ms : Z)
    (data data' : MpvProgress.ProgressData) :
  let run d := {| Player.mpv_found := true;
                  Player.mpv_exit := Player.Close code;
                  Player.progressFile := MpvProgress.Snapshot d;
                  Player.elapsed := ms |} in
  0 < MpvProgress.time_pos data →
  MpvProgress.time_pos data ≤ MpvProgress.time_pos data' →
  MpvProgress.time_pos data' ≤ MpvProgress.duration data' →
  MpvProgress.duration data = MpvProgress.duration data' →
  0 ≤ Player.progress (Player.playVideo url options (run data)) ∧
  Player.progress (Player.playVideo url options (run data))
  ≤ Player.progress (Player.playVideo url options (run data')) ∧
  Player.progress (Player.playVideo url options (run data')) ≤ 100.
Proof.
  intros run Ht Hle Hd Heq.
  rewrite (playVideo_positive url options (run data) code data
             eq_refl eq_refl eq_refl) by lia.
  rewrite (playVideo_positive url options (run data') code data'
             eq_refl eq_refl eq_refl) by lia.
  cbn [Player.progress]. rewrite Heq.
  destruct (percent_rounded (MpvProgress.time_pos data)
              (MpvProgress.duration data')) as (H0 & _); [lia | lia |].
  destruct (percent_rounded (MpvProgress.time_pos data')
              (MpvProgress.duration data')) as (H100 & _); [lia | lia |].
  split; [lia|]. split; [|lia].
  apply Math_round_mono, percent_mono.
  - change 0%Q with (inject_Z 0). rewrite <- Zle_Qle. lia.
  - by rewrite <- Zle_Qle.
  - change 0%Q with (inject_Z 0). rewrite <- Zlt_Qlt. lia.
Qed.

(** ** The script's writes to the history file *)

Import MpvHistory.

Lemma current_key (opts : Opts) (h : WatchHistoryEntry) :
  current opts h ↔ key h = opts_key opts.
Proof.
  unfold current, key, opts_key.
  split; [intros (-> & -> & ->); done | naive_solver].
Qed.

Lemma filter_all {A} (P : A → Prop) `{∀ x, Decision (P x)} (l : list A) :
  (∀ x, x ∈ l → P x) → filter P l = l.
Proof.
  induction l as [|x l IH]; intros Hl; [done|].
  rewrite filter_cons_True by (apply Hl; left).
  f_equal. apply IH. intros y Hy. apply Hl. by right.
Qed.

(** A list with one record per key, split at a record: no other record
    has its key. *)
Lemma NoDup_key_split (l1 l2 : list WatchHistoryEntry) (x : WatchHistoryEntry) :
  NoDup (key <$> (l1 ++ x :: l2)) →
  ∀ h, h ∈ l1 ++ l2 → key h ≠ key x.
Proof.
  rewrite fmap_app, fmap_cons. intros Hnd h Hh Hk.
  apply NoDup_app in Hnd as (_ & Hl & Hr).
  apply NoDup_cons in Hr as [Hr _].
  apply elem_of_app in Hh as [Hh|Hh].
  - apply (Hl (key h)); [by apply list_elem_of_fmap_2|]. rewrite Hk. left.
  - apply Hr. rewrite <- Hk. by apply list_elem_of_fmap_2.
Qed.

(** What [update_history] writes, from the table it read. *)
Lemma update_history_run (opts : Opts) (f : HistoryFile)
    (l : list WatchHistoryEntry) (t d p : Q) (os_time : Z) :
  history_file opts ≠ "" → anime_id opts ≠ "" →
  read_history f = Some l →
  NoDup (key <$> l) →
  ∃ l' entry,
    update_history opts true f t d p os_time = Some (Holds (JsonEntries l')) ∧
    NoDup (key <$> l') ∧
    filter (λ h, key h = opts_key opts) l' = [entry] ∧
    filter (λ h, key h ≠ opts_key opts) l'
    = filter (λ h, key h ≠ opts_key opts) l ∧
    length l' = (if decide (opts_key opts ∈ key <$> l) then length l
                 else S (length l)) ∧
    progress entry = Qfloor p ∧ timePos entry = Qfloor t ∧
    duration entry = Qfloor d ∧ watchedAt entry = 1000 * os_time.
Proof.
  intros Hfile Hid Hread Hnd.
  unfold update_history. rewrite decide_False by done.
  rewrite decide_False by done. rewrite Hread.
  destruct (list_find (current opts) l) as [[i x]|] eqn:Hfind.
  - apply list_find_Some in Hfind as (Hi & Hx & _).
    apply current_key in Hx.
    set (x' := progressed x t d p os_time).
    assert (Hk' : key x' = opts_key opts) by (by rewrite <- Hx).
    assert (Hsplit : l = take i l ++ x :: drop (S i) l)
      by (symmetry; by apply take_drop_middle).
    assert (Hins : <[i := x']> l = take i l ++ x' :: drop (S i) l).
    { apply insert_take_drop. by eapply lookup_lt_Some. }
    set (l1 := take i l) in *. set (l2 := drop (S i) l) in *.
    assert (Hother : ∀ h, h ∈ l1 ++ l2 → key h ≠ opts_key opts).
    { rewrite <- Hx. apply NoDup_key_split. by rewrite <- Hsplit. }
    exists (<[i := x']> l), x'. rewrite Hins.
    split; [done|]. split; [|split; [|split; [|split]]].
    + rewrite Hsplit in Hnd.
      rewrite fmap_app, fmap_cons in *. by rewrite Hk', <- Hx.
    + rewrite filter_app, filter_cons_True by done.
      rewrite !filter_none; [done | |].
      * intros h Hh. apply Hother, elem_of_app. by right.
      * intros h Hh. apply Hother, elem_of_app. by left.
    + replace (filter (λ h, key h ≠ opts_key opts) l)
        with (filter (λ h, key h ≠ opts_key opts) (l1 ++ x :: l2))
        by (by rewrite <- Hsplit).
      rewrite !filter_app, !filter_cons_False; [done | |].
      * intros H. by apply H.
      * intros H. by apply H.
    + rewrite decide_True.
      * replace (length l) with (length (l1 ++ x :: l2))
          by (by rewrite <- Hsplit).
        by rewrite !length_app.
      * rewrite <- Hx. apply list_elem_of_fmap_2. by eapply list_elem_of_lookup_2.
    + by repeat split.
  - apply list_find_None in Hfind. rewrite Forall_forall in Hfind.
    assert (Hother : ∀ h, h ∈ l → key h ≠ opts_key opts).
    { intros h Hh Hk. apply (Hfind h Hh). by apply current_key. }
    set (x' := new_entry opts t d p os_time).
    exists (x' :: l), x'.
    split; [done|]. split; [|split; [|split; [|split]]].
    + rewrite fmap_cons. apply NoDup_cons. split; [|done].
      intros (h & Hk & Hh)%list_elem_of_fmap. by apply (Hother h Hh).
    + rewrite filter_cons_True by done. by rewrite filter_none.
    + rewrite filter_cons_False; [done|]. intros H. by apply H.
    + rewrite decide_False; [done|].
      intros (h & Hk & Hh)%list_elem_of_fmap. by apply (Hother h Hh).
    + by repeat split.
Qed.

(** X14: [update_history] does nothing without a history path or an
    anime id.  Otherwise, on a history with one record per key, it leaves
    one record per key: exactly one record of the episode being played,
    carrying the values it was called with, rounded down; every other
    record stays, in the same order; and it never trims, so that the file
    grows by one record when the episode was not in it. *)
Theorem X14_update_history_touches_one_record (opts : Opts) (f : HistoryFile)
    (l : list WatchHistoryEntry) (t d p : Q) (os_time : Z) :
  (history_file opts = "" ∨ anime_id opts = "" →
   ∀ writable, update_history opts writable f t d p os_time = Some f) ∧
  (history_file opts ≠ "" → anime_id opts ≠ "" →
   read_history f = Some l →
   NoDup (key <$> l) →
   ∃ l' entry,
     update_history opts true f t d p os_time = Some (Holds (JsonEntries l')) ∧
     NoDup (key <$> l') ∧
     filter (λ h, key h = opts_key opts) l' = [entry] ∧
     filter (λ h, key h ≠ opts_key opts) l'
     = filter (λ h, key h ≠ opts_key opts) l ∧
     length l' = (if decide (opts_key opts ∈ key <$> l) then length l
                  else S (length l)) ∧
     progress entry = Qfloor p ∧ timePos entry = Qfloor t ∧
     duration entry = Qfloor d ∧ watchedAt entry = 1000 * os_time).
Proof.
  split.
  - intros Hguard writable. unfold update_history.
    destruct (decide (history_file opts = "")); [done|].
    destruct (decide (anime_id opts = "")); [done|]. tauto.
  - apply update_history_run.
Qed.

(** On a history with one record per key, the splice of
    [saveWatchHistory] removes the records with the key of the entry. *)
Lemma spliced_filter (e : WatchHistoryEntry) (history : list WatchHistoryEntry) :
  NoDup (key <$> history) →
  spliced e history = filter (λ x, key x ≠ key e) history.
Proof.
  intros Hnd. unfold spliced.
  destruct (list_find _ _) as [[i x]|] eqn:Hfind.
  - apply list_find_Some in Hfind as (Hi & Hx & _).
    apply same_episode_key in Hx.
    rewrite delete_take_drop.
    rewrite <- (take_drop_middle _ _ _ Hi) in Hnd |- * at 3.
    pose proof (NoDup_key_split _ _ _ Hnd) as Hother. rewrite Hx in Hother.
    rewrite filter_app, filter_cons_False by (intros H; by apply H).
    rewrite !filter_all; [done | |].
    + intros h Hh. apply Hother, elem_of_app. by right.
    + intros h Hh. apply Hother, elem_of_app. by left.
  - apply list_find_None in Hfind. rewrite Forall_forall in Hfind.
    symmetry. apply filter_all. intros h Hh Hk.
    apply (Hfind h Hh). by apply same_episode_key.
Qed.

Lemma listing_read (f : HistoryFile) (l : list WatchHistoryEntry) :
  read_history f = Some l → listing None f = Js.sort newest_first l.
Proof.
  destruct f as [| |[| |l0]]; simpl; intros [= <-]; try done.
  by rewrite revive_fmap.
Qed.

Lemma upserted_read (e : WatchHistoryEntry) (f : HistoryFile)
    (l : list WatchHistoryEntry) :
  read_history f = Some l →
  NoDup (key <$> l) →
  upserted e f
  = take 50 (e :: Js.sort newest_first (filter (λ x, key x ≠ key e) l)).
Proof.
  intros Hread Hnd. unfold upserted. rewrite (listing_read f l Hread).
  rewrite spliced_filter by (by rewrite sort_perm).
  unfold newest_first. by rewrite (filter_sort watchedAt).
Qed.

Lemma updates_run (opts : Opts) (e : WatchHistoryEntry)
    (calls : list (Q * Q * Q * Z)) :
  history_file opts ≠ "" → anime_id opts ≠ "" →
  key e = opts_key opts →
  ∀ (f : HistoryFile) (l : list WatchHistoryEntry),
    read_history f = Some l →
    NoDup (key <$> l) →
    ∃ f' l',
      updates opts true f calls = Some f' ∧
      read_history f' = Some l' ∧
      NoDup (key <$> l') ∧
      upserted e f' = upserted e f.
Proof.
  intros Hfile Hid Hk.
  induction calls as [|[[[t d] p] os_time] calls IH] using rev_ind;
    intros f l Hread Hnd.
  - exists f, l. by repeat split.
  - destruct (IH f l Hread Hnd) as (f1 & l1 & Hrun & Hread1 & Hnd1 & Hsame).
    destruct (update_history_run opts f1 l1 t d p os_time Hfile Hid Hread1 Hnd1)
      as (l' & entry & Hup & Hnd' & _ & Hothers & _).
    exists (Holds (JsonEntries l')), l'.
    split; [|split; [done|split; [done|]]].
    + unfold updates in *. rewrite foldl_app. cbn [foldl].
      rewrite Hrun. exact Hup.
    + rewrite <- Hsame.
      rewrite (upserted_read e (Holds (JsonEntries l')) l' eq_refl Hnd').
      rewrite (upserted_read e f1 l1 Hread1 Hnd1).
      by rewrite Hk, Hothers.
Qed.

(** X15: the progress the script writes into the history file during
    playback never changes what the CLI stores afterwards.  On a history
    with one record per key, after any number of [update_history] calls
    for an episode, the upsert of a record of that episode leaves the
    same file as it would have left without them. *)
Theorem X15_script_updates_do_not_change_the_upsert
    (opts : Opts) (e : WatchHistoryEntry) (calls : list (Q * Q * Q * Z))
    (w : World) (l : list WatchHistoryEntry) :
  history_file opts ≠ "" → anime_id opts ≠ "" →
  key e = opts_key opts →
  read_history (HISTORY_FILE w) = Some l →
  NoDup (key <$> l) →
  ∃ f', updates opts true (HISTORY_FILE w) calls = Some f' ∧
        HISTORY_FILE (after (saveWatchHistory e) (script_left f' w))
        = HISTORY_FILE (after (saveWatchHistory e) w).
Proof.
  intros Hfile Hid Hk Hread Hnd.
  destruct (updates_run opts e calls Hfile Hid Hk _ _ Hread Hnd)
    as (f' & l' & Hrun & _ & _ & Hsame).
  exists f'. split; [exact Hrun|].
  unfold after. rewrite !saveWatchHistory_run. cbn [snd HISTORY_FILE script_left].
  by rewrite Hsame.
Qed.

(** ** The catalog *)

Lemma getAnimeEpisodes_season (c : Api.Catalog) (slug : string) (s : Z)
    (detail : Api.AnimeDetail) (i : nat) (season : Api.Season) :
  Api.getAnimeDetail c slug = Some detail →
  list_find (λ x, Api.season_number x = s) (Api.seasons detail)
  = Some (i, season) →
  Api.hasEpisode season = true →
  Api.getAnimeEpisodes c slug s =
  (λ k, {| Api.title := "Episode " +:+ pretty k;
           Api.number := k;
           Api.url := "https://openani.me/anime/" +:+ slug +:+ "/"
                      +:+ pretty s +:+ "/" +:+ pretty k;
           Api.seasonNumber := s;
           Api.episodeNumber := k |})
  <$> seqZ 1 (Api.episode_count season).
Proof.
  intros Hd Hs Hh. unfold Api.getAnimeEpisodes. by rewrite Hd, Hs, Hh.
Qed.

Lemma getAnimeEpisodes_elem (c : Api.Catalog) (slug : string) (s : Z)
    (e : Api.Episode) :
  e ∈ Api.getAnimeEpisodes c slug s →
  ∃ detail i season,
    Api.getAnimeDetail c slug = Some detail ∧
    list_find (λ x, Api.season_number x = s) (Api.seasons detail)
    = Some (i, season) ∧
    Api.hasEpisode season = true.
Proof.
  unfold Api.getAnimeEpisodes.
  destruct (Api.getAnimeDetail c slug) as [detail|]; [|by intros ?%elem_of_nil].
  destruct (list_find _ _) as [[i season]|] eqn:Hs; [|by intros ?%elem_of_nil].
  destruct (Api.hasEpisode season) eqn:Hh; [|by intros ?%elem_of_nil].
  intros _. by exists detail, i, season.
Qed.

(** X16: the episodes listed for a season are numbered 1, 2, ... up to
    the episode count of the first season of the catalog with that number,
    in this order; so an episode number is found in the listing exactly
    when it lies between 1 and that count, and it is found at its own
    place, with the season asked for.  The listing is empty when the
    anime is unknown, the season is unknown or the season has no
    episode. *)
Theorem X16_episode_listing (c : Api.Catalog) (slug : string) (s : Z) :
  (∀ detail i season,
     Api.getAnimeDetail c slug = Some detail →
     list_find (λ x, Api.season_number x = s) (Api.seasons detail)
     = Some (i, season) →
     Api.hasEpisode season = true →
     Api.episodeNumber <$> Api.getAnimeEpisodes c slug s
     = seqZ 1 (Api.episode_count season) ∧
     ∀ k, 1 ≤ k ≤ Api.episode_count season ↔
          ∃ e, list_find (λ e, Api.episodeNumber e = k)
                         (Api.getAnimeEpisodes c slug s)
               = Some (Z.to_nat (k - 1), e) ∧
               Api.seasonNumber e = s ∧ Api.number e = k) ∧
  (Api.getAnimeEpisodes c slug s ≠ [] →
   ∃ detail i season,
     Api.getAnimeDetail c slug = Some detail ∧
     list_find (λ x, Api.season_number x = s) (Api.seasons detail)
     = Some (i, season) ∧
     Api.hasEpisode season = true ∧ 0 < Api.episode_count season).
Proof.
  split.
  - intros detail i season Hd Hs Hh.
    rewrite (getAnimeEpisodes_season c slug s detail i season Hd Hs Hh).
    set (mk := λ k : Z, {| Api.title := "Episode " +:+ pretty k;
                           Api.number := k;
                           Api.url := "https://openani.me/anime/" +:+ slug +:+ "/"
                                      +:+ pretty s +:+ "/" +:+ pretty k;
                           Api.seasonNumber := s;
                           Api.episodeNumber := k |}).
    split.
    { rewrite <- list_fmap_compose.
      clear. induction (seqZ 1 (Api.episode_count season)); csimpl; congruence. }
    intros k. split.
    + intros Hk. exists (mk k). split; [|done].
      apply list_find_Some. split; [|split; [done|]].
      * rewrite list_lookup_fmap, lookup_seqZ_lt by lia.
        simpl. do 2 f_equal. lia.
      * intros j y Hj Hlt Hy. rewrite list_lookup_fmap in Hj.
        destruct (seqZ 1 (Api.episode_count season) !! j) as [m|] eqn:Hm;
          [|done].
        apply lookup_seqZ in Hm as [-> _]. simpl in Hj. injection Hj as <-.
        simpl in Hy. lia.
    + intros (e & Hfind & _). apply list_find_Some in Hfind as (Hl & Hk & _).
      rewrite list_lookup_fmap in Hl.
      destruct (seqZ 1 (Api.episode_count season) !! Z.to_nat (k - 1))
        as [m|] eqn:Hm; [|done].
      apply lookup_seqZ in Hm as [-> Hlt]. simpl in Hl. injection Hl as <-.
      simpl in Hk. lia.
  - intros Hne.
    destruct (Api.getAnimeEpisodes c slug s) as [|e l] eqn:He; [done|].
    destruct (getAnimeEpisodes_elem c slug s e) as (detail & i & season & Hd & Hs & Hh).
    { rewrite He. left. }
    exists detail, i, season. repeat split; try done.
    rewrite (getAnimeEpisodes_season c slug s detail i season Hd Hs Hh) in He.
    destruct (Z.lt_ge_cases 0 (Api.episode_count season)) as [|Hc]; [done|].
    assert (Hlen : length (seqZ 1 (Api.episode_count season)) = 0%nat)
      by (rewrite length_seqZ; lia).
    destruct (seqZ 1 _); [done | simpl in Hlen; lia].
Qed.

(** X17: a video URL is resolved exactly when the episode detail is at
    hand and lists a file.  The URL names a file of the highest resolution
    listed, and the fansub asked for when the episode has it, the
    episode's default fansub otherwise. *)
Theorem X17_video_url_picks_the_best_file
    (c : Api.Catalog) (slug : string) (s e : Z) (fansubId : string) :
  (Api.getVideoUrl c slug s e fansubId = None ↔
   Api.getEpisodeDetail c slug s e = None ∨
   ∃ d, Api.getEpisodeDetail c slug s e = Some d ∧
        Api.files (Api.episodeData d) = []) ∧
  (∀ url d,
     Api.getVideoUrl c slug s e fansubId = Some url →
     Api.getEpisodeDetail c slug s e = Some d →
     ∃ best,
       best ∈ Api.files (Api.episodeData d) ∧
       (∀ f, f ∈ Api.files (Api.episodeData d) →
             Api.resolution f ≤ Api.resolution best) ∧
       url = "https://do7---ha-k8y3jyfa-8gcx.zyapbot.eu.org/animes/"
             +:+ slug +:+ "/" +:+ pretty s +:+ "/" +:+ pretty e +:+ "-"
             +:+ (if decide (fansubId ≠ "" ∧
                             fansubId ∈ Api.fansub_id <$> Api.fansubs d)
                  then fansubId
                  else Api.fansub_id (Api.fansub (Api.episodeData d)))
             +:+ "-" +:+ pretty (Api.resolution best) +:+ "p.mp4?big=1").
Proof.
  unfold Api.getVideoUrl.
  destruct (Api.getEpisodeDetail c slug s e) as [d|]; [|split; [naive_solver | done]].
  pose proof (sort_perm (λ a b, Api.resolution b - Api.resolution a)
                (Api.files (Api.episodeData d))) as Hp.
  pose proof (sort_sorted Api.resolution (Api.files (Api.episodeData d))) as Hs.
  destruct (Js.sort _ (Api.files (Api.episodeData d))) as [|best rest].
  - apply Permutation_nil_l in Hp. split; [|done].
    split; [intros _; right; by exists d | done].
  - split.
    + split; [done|]. intros [[=]|(d' & [= <-] & Hnil)].
      rewrite Hnil in Hp. by apply Permutation_nil_r in Hp.
    + intros url d' [= <-] [= <-]. exists best. split; [|split].
      * rewrite <- Hp. left.
      * intros f Hf. rewrite <- Hp in Hf.
        apply StronglySorted_inv in Hs as [_ Hb]. rewrite Forall_forall in Hb.
        apply elem_of_cons in Hf as [->|Hf]; [lia | by apply Hb].
      * do 7 f_equal.
        destruct (decide (fansubId = "")) as [->|Hne].
        { rewrite decide_False; [done | tauto]. }
        destruct (list_find _ _) as [[i x]|] eqn:Hfind.
        -- apply list_find_Some in Hfind as (Hi & Hx & _).
           rewrite decide_True; [done|]. split; [done|].
           rewrite <- Hx. apply list_elem_of_fmap_2.
           by eapply list_elem_of_lookup_2.
        -- apply list_find_None in Hfind. rewrite Forall_forall in Hfind.
           rewrite decide_False; [done|].
           intros (_ & (x & Hx & Hin)%list_elem_of_fmap).
           by apply (Hfind x Hin).
Qed.

(** ** File names *)

Import FileUtils.

Lemma underscore_plain : plain underscore.
Proof. split; reflexivity. Qed.

Lemma replace_reserved_unreserved (s : JsString) :
  Forall (λ c, reserved c = false) (replace_reserved s).
Proof.
  unfold replace_reserved. apply Forall_fmap, Forall_forall. intros c _. simpl.
  by destruct (reserved c) eqn:E.
Qed.

Lemma replace_white_runs_plain (s : JsString) :
  ∀ in_run, Forall (λ c, reserved c = false) s →
            Forall plain (replace_white_runs in_run s).
Proof.
  induction s as [|c s IH]; intros in_run Hs; [constructor|].
  apply Forall_cons in Hs as [Hc Hs]. simpl.
  destruct (white c) eqn:Hw.
  - destruct in_run; [by apply IH|].
    constructor; [apply underscore_plain | by apply IH].
  - constructor; [done | by apply IH].
Qed.

Lemma replace_white_runs_length (s : JsString) :
  ∀ in_run, (length (replace_white_runs in_run s) ≤ length s)%nat.
Proof.
  induction s as [|c s IH]; intros in_run; simpl; [done|].
  pose proof (IH true). pose proof (IH false).
  destruct (white c); [destruct in_run|]; simpl; lia.
Qed.

Lemma replace_plain (s : JsString) :
  Forall plain s →
  replace_reserved s = s ∧ ∀ in_run, replace_white_runs in_run s = s.
Proof.
  induction 1 as [|c s [Hr Hw] Hs [IH1 IH2]]; [done|]. split.
  - unfold replace_reserved in *. csimpl. by rewrite Hr, IH1.
  - intros in_run. simpl. by rewrite Hw, IH2.
Qed.

Lemma trimStart_plain (s : JsString) :
  Forall (λ c, white c = false) s → trimStart s = s.
Proof. destruct 1 as [|c s Hc Hs]; simpl; [done|]. by rewrite Hc. Qed.

Lemma trim_plain (s : JsString) :
  Forall (λ c, white c = false) s → trim s = s.
Proof.
  intros Hs. unfold trim. rewrite (trimStart_plain s Hs).
  rewrite trimStart_plain by (by apply Forall_reverse).
  apply reverse_involutive.
Qed.

(** X18: a sanitized file name holds none of the nine reserved
    characters and no white space; it is never longer than the name given;
    a name that holds neither is returned as it is, so that sanitizing
    twice is sanitizing once.  White space at either end becomes an
    underscore like any other: the final [trim] never removes
    anything. *)
Theorem X18_sanitized_file_names (filename : JsString) :
  Forall plain (sanitizeFilename filename) ∧
  (length (sanitizeFilename filename) ≤ length filename)%nat ∧
  sanitizeFilename filename
  = replace_white_runs false (replace_reserved filename) ∧
  sanitizeFilename (sanitizeFilename filename) = sanitizeFilename filename ∧
  (Forall plain filename → sanitizeFilename filename = filename).
Proof.
  assert (Hplain : Forall plain
                     (replace_white_runs false (replace_reserved filename)))
    by apply replace_white_runs_plain, replace_reserved_unreserved.
  assert (Hnotrim : sanitizeFilename filename
                    = replace_white_runs false (replace_reserved filename)).
  { unfold sanitizeFilename. apply trim_plain.
    eapply Forall_impl; [exact Hplain|]. by intros c [_ Hw]. }
  assert (Hfix : ∀ s, Forall plain s → sanitizeFilename s = s).
  { intros s Hs. unfold sanitizeFilename.
    destruct (replace_plain s Hs) as [-> ->].
    apply trim_plain. eapply Forall_impl; [exact Hs|]. by intros c [_ Hw]. }
  rewrite Hnotrim. split; [done|]. split; [|split; [done|split]].
  - etrans; [apply replace_white_runs_length|].
    unfold replace_reserved. by rewrite length_fmap.
  - rewrite <- Hnotrim. apply Hfix. by rewrite Hnotrim.
  - intros Hs. rewrite <- Hnotrim. by apply Hfix.
Qed.

(** ** The flows of the CLI *)

Import Continue.

(** X19: when no video URL can be resolved, when the user cancels the
    prompt and when the user chooses to open the browser,
    [handleVideoPlayback] writes nothing to the history file and hands
    over to no other flow; in the first two cases it returns to its
    caller. *)
Theorem X19_without_play_or_copy_nothing_is_written
    (config : Config.AppConfig) (c : Api.Catalog) (slug : string)
    (episode : Api.Episode) (fansubId : string) (startTime : option Z)
    (action : option PlayAction) (run : Player.MpvRun) (w : World) :
  let flow :=
    handleVideoPlayback_with config c slug episode fansubId startTime action run in
  (Api.getVideoUrl c slug (Api.seasonNumber episode) (Api.episodeNumber episode)
                   fansubId = None ∨
   action = None ∨ action = Some browser →
   HISTORY_FILE (after flow w) = HISTORY_FILE w ∧
   writes (after flow w) = writes w ∧
   (∀ next, ¬ returns flow w (EpisodeSelection next)) ∧
   ¬ returns flow w Download) ∧
  (Api.getVideoUrl c slug (Api.seasonNumber episode) (Api.episodeNumber episode)
                   fansubId = None ∨
   action = None →
   returns flow w Returns).
Proof.
  intros flow. subst flow. unfold after, returns, handleVideoPlayback_with.
  destruct (Api.getVideoUrl _ _ _ _ _) as [videoUrl|].
  - split.
    + intros [[=]|[->| ->]]; repeat split; done.
    + intros [[=]| ->]. done.
  - split; [|done]. intros _. repeat split; done.
Qed.

Lemma saveToHistory_without_episode (c : Api.Catalog) (slug : string)
    (episode : Api.Episode) (fansubId : string) (p t d : Z) (w : World) :
  Api.getEpisodeDetail c slug (Api.seasonNumber episode)
                       (Api.episodeNumber episode) = None →
  saveToHistory c slug episode fansubId p t d w = (Js.Normal tt, w).
Proof.
  intros He. unfold saveToHistory. rewrite He.
  by destruct (Api.getAnimeDetail c slug).
Qed.

(** X20: [saveToHistory] writes nothing, and says nothing, when the
    catalog does not answer for the anime or for the episode.  When it
    answers, the record stored first in the file is the record of the
    episode, stamped with the current time, with a progress between 0 and
    100 and a position and a duration that are not negative, whatever
    values were passed; values in range are stored as they are. *)
Theorem X20_saveToHistory_stores_values_in_range
    (c : Api.Catalog) (slug : string) (episode : Api.Episode)
    (fansubId : string) (p t d : Z) (w : World) :
  (Api.getAnimeDetail c slug = None ∨
   Api.getEpisodeDetail c slug (Api.seasonNumber episode)
                        (Api.episodeNumber episode) = None →
   saveToHistory c slug episode fansubId p t d w = (Js.Normal tt, w)) ∧
  (∀ animeDetail episodeDetail,
     Api.getAnimeDetail c slug = Some animeDetail →
     Api.getEpisodeDetail c slug (Api.seasonNumber episode)
                          (Api.episodeNumber episode) = Some episodeDetail →
     ∃ entry,
       head (stored (after (saveToHistory c slug episode fansubId p t d) w))
       = Some entry ∧
       key entry = (Api.id animeDetail, Api.seasonNumber episode,
                    Api.episodeNumber episode) ∧
       animeSlug entry = slug ∧
       watchedAt entry = clock w ∧
       0 ≤ progress entry ≤ 100 ∧ 0 ≤ timePos entry ∧ 0 ≤ duration entry ∧
       (0 ≤ p ≤ 100 → progress entry = p) ∧
       (0 ≤ t → timePos entry = t) ∧
       (0 ≤ d → duration entry = d)).
Proof.
  split.
  - intros [H|H]; [by apply saveToHistory_without_detail
                  | by apply saveToHistory_without_episode].
  - intros animeDetail episodeDetail Ha He.
    exists (historyEntry animeDetail episodeDetail slug episode fansubId
              p t d (clock w)).
    unfold after. rewrite (saveToHistory_run _ _ _ _ _ _ _ _ _ _ Ha He).
    unfold stored, upserted, historyEntry; simpl.
    repeat split; try done; lia.
Qed.




Lemma continuePreviousWatch_run (c : Api.Catalog) (entry : WatchHistoryEntry)
    (action : option ContinueAction) (w : World) :
  ∃ g out,
    continuePreviousWatch c entry action w =
    (Js.Normal g,
     {| HISTORY_FILE := HISTORY_FILE w; writes := writes w;
        console := console w ++ out; clock := clock w |}).
Proof.
  unfold continuePreviousWatch.
  unfold prompts, mbind, Js.M_bind, Js.bind, mret, Js.M_ret, Js.ret.
  cbn [console_log Js.modify HISTORY_FILE writes console clock].
  destruct action as [[| | |]|];
    repeat match goal with
           | |- context [list_find ?P ?l] => destruct (list_find P l) as [[? ?]|]
           end;
    cbn [HISTORY_FILE writes console clock];
    eexists; eexists; rewrite <- ?app_assoc; reflexivity.
Qed.

(** X22: the continue menu.  Resuming is offered exactly when the record
    has a position, a duration and a progress below 90; next episode,
    rewatch and choose are always offered, in this order.  No choice
    writes the history file or fails.  Next episode goes to the episode
    numbered one more when the season's listing has it and to the season
    selection otherwise; rewatch does the same with the episode of the
    record; resume goes to that episode with the stored position as start
    time, or nowhere when the listing does not have it; choose goes to the
    season selection. *)
Theorem X22_continue_menu (c : Api.Catalog) (entry : WatchHistoryEntry) (w : World) :
  let episodes :=
    Api.getAnimeEpisodes c (animeSlug entry) (seasonNumber entry) in
  let season := ToSeason (animeSlug entry) (seasonNumber entry) in
  (resume ∈ continuePreviousWatch_choices entry ↔
   timePos entry ≠ 0 ∧ duration entry ≠ 0 ∧ progress entry < 90) ∧
  (∃ first, continuePreviousWatch_choices entry = first ++ [next; rewatch; choose] ∧
            (first = [] ∨ first = [resume])) ∧
  (∀ action,
     HISTORY_FILE (after (continuePreviousWatch c entry action) w)
     = HISTORY_FILE w ∧
     writes (after (continuePreviousWatch c entry action) w) = writes w ∧
     ∃ g, returns (continuePreviousWatch c entry action) w g) ∧
  (∀ g, returns (continuePreviousWatch c entry (Some next)) w g →
        match list_find (λ e, Api.episodeNumber e = episodeNumber entry + 1)
                        episodes with
        | Some (_, e) => g = ToEpisode (animeSlug entry) e None
        | None => g = season
        end) ∧
  (∀ g, returns (continuePreviousWatch c entry (Some rewatch)) w g →
        match list_find (λ e, Api.episodeNumber e = episodeNumber entry)
                        episodes with
        | Some (_, e) => g = ToEpisode (animeSlug entry) e None
        | None => g = season
        end) ∧
  (∀ g, returns (continuePreviousWatch c entry (Some resume)) w g →
        match list_find (λ e, Api.episodeNumber e = episodeNumber entry)
                        episodes with
        | Some (_, e) =>
            g = ToEpisode (animeSlug entry) e (Some (timePos entry))
        | None => g = Nowhere
        end) ∧
  (∀ g, returns (continuePreviousWatch c entry (Some choose)) w g → g = season).
Proof.
  intros episodes season.
  split; [|split; [|split]].
  - unfold continuePreviousWatch_choices.
    destruct (resumable entry) eqn:E; cbn [app]; unfold resumable in E;
      destruct (Z.eqb_spec (timePos entry) 0), (Z.eqb_spec (duration entry) 0),
        (Z.ltb_spec (progress entry) 90); try discriminate E.
    + split; [done | intros _; left].
    + split; [by intros Hin%(bool_decide_pack _) | lia].
    + split; [by intros Hin%(bool_decide_pack _) | lia].
    + split; [by intros Hin%(bool_decide_pack _) | lia].
    + split; [by intros Hin%(bool_decide_pack _) | lia].
    + split; [by intros Hin%(bool_decide_pack _) | lia].
    + split; [by intros Hin%(bool_decide_pack _) | lia].
    + split; [by intros Hin%(bool_decide_pack _) | lia].
  - unfold continuePreviousWatch_choices.
    destruct (resumable entry);
      [exists [resume] | exists []]; split; auto.
  - intros action.
    destruct (continuePreviousWatch_run c entry action w) as (g & out & E).
    unfold after, returns. rewrite E. cbn [fst snd HISTORY_FILE writes]. eauto.
  - unfold returns, continuePreviousWatch.
    unfold prompts, mbind, Js.M_bind, Js.bind, mret, Js.M_ret, Js.ret.
    cbn [console_log Js.modify]. fold episodes.
    repeat split; intros g;
      match goal with
      | |- context [list_find ?P episodes] =>
          destruct (list_find P episodes) as [[? ?]|]
      | _ => idtac
      end; cbn [fst]; by intros [= <-].
Qed.

(** X23: the main menu offers only the search exactly when nothing is
    stored (no file, an unusable file or an empty one).  Otherwise it
    offers, in this order, to continue the last watched record, the
    history, clearing the history, and the search.  Building the menu
    writes nothing. *)
Theorem X23_main_menu (w : World) :
  ∃ choices,
    returns showMainMenu_choices w choices ∧
    (choices = [search] ↔ stored w = []) ∧
    (∀ x, returns getLastWatchedAnime w (Some x) →
          choices = [continue_ x; separator; history; clear_history;
                     separator; search]) ∧
    last choices = Some search.
Proof.
  pose proof (showMainMenu_choices_run w) as Hmenu.
  pose proof (getLastWatchedAnime_run w) as Hlast.
  pose proof (listing_perm w) as Hp.
  destruct (listing None (HISTORY_FILE w)) as [|x tail].
  - exists [search]. split; [exact Hmenu|].
    apply Permutation_nil_l in Hp. split; [done|]. split; [|done].
    intros y Hy. unfold returns in *. rewrite Hlast in Hy. discriminate Hy.
  - eexists. split; [exact Hmenu|]. split; [|split; [|done]].
    + split; [done|]. intros Hn. rewrite Hn in Hp.
      by apply Permutation_nil_r in Hp.
    + intros y Hy. unfold returns in *. rewrite Hlast in Hy.
      by injection Hy as <-.
Qed.

(** The condition under which the play action goes on to the next
    episode. *)
Lemma play_goes_on (config : Config.AppConfig) (c : Api.Catalog) (slug : string)
    (episode : Api.Episode) (fansubId : string) (startTime : option Z)
    (run : Player.MpvRun) (w : World) (videoUrl : string)
    (episodeDetail : Api.EpisodeDetail) (next : Api.Episode) :
  Api.getVideoUrl c slug (Api.seasonNumber episode) (Api.episodeNumber episode)
                  fansubId = Some videoUrl →
  Api.getEpisodeDetail c slug (Api.seasonNumber episode)
                       (Api.episodeNumber episode) = Some episodeDetail →
  returns (handleVideoPlayback_with config c slug episode fansubId startTime
             (Some play) run) w (EpisodeSelection next)
  ↔
  Config.autoPlayNextEpisode config = true ∧
  85 ≤ Player.progress
         (Player.playVideo videoUrl
            (playOptions c slug episode fansubId startTime) run) ∧
  Api.hasNextEpisode (Api.episodeData episodeDetail) = true ∧
  ∃ i, list_find (λ e, Api.episodeNumber e = Api.episodeNumber episode + 1)
                 (Api.getAnimeEpisodes c slug (Api.seasonNumber episode))
       = Some (i, next).
Proof.
  intros Hurl He.
  set (result := Player.playVideo videoUrl
                   (playOptions c slug episode fansubId startTime) run).
  unfold returns, handleVideoPlayback_with. rewrite Hurl, He.
  unfold prompts, mbind, Js.M_bind, Js.bind, mret, Js.M_ret, Js.ret.
  cbn [console_log Js.modify].
  match goal with
  | |- context [saveToHistory c slug episode fansubId 0 0 0 ?w0] =>
      destruct (saveToHistory_normal c slug episode fansubId 0 0 0 w0)
        as (w1 & E1 & _)
  end.
  rewrite E1. cbn [wait Js.modify]. fold result.
  match goal with
  | |- context [saveToHistory c slug episode fansubId ?p ?t ?d ?w0] =>
      destruct (saveToHistory_normal c slug episode fansubId p t d w0)
        as (w2 & E2 & _)
  end.
  rewrite E2.
  destruct (Config.autoPlayNextEpisode config);
    destruct (Z.leb_spec 85 (Player.progress result));
    destruct (Api.hasNextEpisode (Api.episodeData episodeDetail));
    cbn [andb];
    try (split; [intros [=] | intros (? & ? & ? & ?); first [done | lia]]).
  destruct (list_find _ _) as [[i n]|]; cbn.
  - split.
    + intros [= ->]. repeat split; eauto.
    + intros (_ & _ & _ & j & [= _ ->]). done.
  - split; [intros [=] | intros (_ & _ & _ & j & [=])].
Qed.

(** Looking an episode number up in the listing of a season. *)
Lemma episode_lookup (c : Api.Catalog) (slug : string) (s k : Z)
    (detail : Api.AnimeDetail) (i : nat) (season : Api.Season) :
  Api.getAnimeDetail c slug = Some detail →
  list_find (λ x, Api.season_number x = s) (Api.seasons detail)
  = Some (i, season) →
  Api.hasEpisode season = true →
  list_find (λ e, Api.episodeNumber e = k) (Api.getAnimeEpisodes c slug s)
  = if decide (1 ≤ k ≤ Api.episode_count season)
    then Some (Z.to_nat (k - 1), listed_episode slug s k) else None.
Proof.
  intros Hd Hs Hh.
  rewrite (getAnimeEpisodes_season c slug s detail i season Hd Hs Hh).
  fold (listed_episode slug s).
  destruct (decide _) as [Hk|Hk].
  - apply list_find_Some. split; [|split; [done|]].
    + rewrite list_lookup_fmap, lookup_seqZ_lt by lia.
      simpl. do 2 f_equal. lia.
    + intros j y Hj Hlt Hy. rewrite list_lookup_fmap in Hj.
      destruct (seqZ 1 (Api.episode_count season) !! j) as [m|] eqn:Hm; [|done].
      apply lookup_seqZ in Hm as [-> _]. simpl in Hj. injection Hj as <-.
      simpl in Hy. lia.
  - apply list_find_None, Forall_fmap, Forall_forall.
    intros m Hm%elem_of_seqZ. simpl. lia.
Qed.

(** X24: going on to the next episode, by the numbers.  With the catalog
    answering for the anime, the season and the episode, the play action
    goes on to the episode selection of [next] exactly when auto-play is
    on, the returned progress is at least 85, the detail of the episode
    says it has a next episode, the number of the episode is at least 0 and
    below the episode count of the season, and [next] is the listed
    episode numbered one more.  After the last episode of a season the
    flow returns, whatever the detail says. *)
Theorem X24_goes_on_below_the_episode_count
    (config : Config.AppConfig) (c : Api.Catalog) (slug : string)
    (episode : Api.Episode) (fansubId : string) (startTime : option Z)
    (run : Player.MpvRun) (w : World) (videoUrl : string)
    (episodeDetail : Api.EpisodeDetail) (animeDetail : Api.AnimeDetail)
    (i : nat) (season : Api.Season) (next : Api.Episode) :
  Api.getVideoUrl c slug (Api.seasonNumber episode) (Api.episodeNumber episode)
                  fansubId = Some videoUrl →
  Api.getEpisodeDetail c slug (Api.seasonNumber episode)
                       (Api.episodeNumber episode) = Some episodeDetail →
  Api.getAnimeDetail c slug = Some animeDetail →
  list_find (λ x, Api.season_number x = Api.seasonNumber episode)
            (Api.seasons animeDetail) = Some (i, season) →
  Api.hasEpisode season = true →
  returns (handleVideoPlayback_with config c slug episode fansubId startTime
             (Some play) run) w (EpisodeSelection next)
  ↔
  Config.autoPlayNextEpisode config = true ∧
  85 ≤ Player.progress
         (Player.playVideo videoUrl
            (playOptions c slug episode fansubId startTime) run) ∧
  Api.hasNextEpisode (Api.episodeData episodeDetail) = true ∧
  0 ≤ Api.episodeNumber episode < Api.episode_count season ∧
  next = listed_episode slug (Api.seasonNumber episode)
                        (Api.episodeNumber episode + 1).
Proof.
  intros Hurl He Ha Hs Hh.
  rewrite (play_goes_on config c slug episode fansubId startTime run w
             videoUrl episodeDetail next Hurl He).
  rewrite (episode_lookup c slug (Api.seasonNumber episode)
             (Api.episodeNumber episode + 1) animeDetail i season Ha Hs Hh).
  destruct (decide _) as [Hk|Hk].
  - split.
    + intros (? & ? & ? & j & [= _ <-]). repeat split; try done; lia.
    + intros (? & ? & ? & ? & ->). repeat split; try done. eauto.
  - split.
    + intros (? & ? & ? & j & [=]).
    + intros (? & ? & ? & ? & _). lia.
Qed.

Lemma write_progress_data_values (status : string) (mp : MpvProgress.Props)
    (os_time : Z) :
  let '(t, d, p) := written_values mp in
  MpvProgress.time_pos (MpvProgress.write_progress_data status mp os_time)
  = Qfloor t ∧
  MpvProgress.duration (MpvProgress.write_progress_data status mp os_time)
  = Qfloor d ∧
  MpvProgress.percent_pos (MpvProgress.write_progress_data status mp os_time)
  = Qfloor p.
Proof. unfold written_values, MpvProgress.write_progress_data. done. Qed.

(** X25: the two files one [write_progress] writes agree.  When both can
    be written, the script has a history path and an anime id, and the
    history holds one record per key, the record of the episode in the
    history file carries the position, the duration and the percentage of
    the snapshot in the progress file. *)
Theorem X25_history_record_agrees_with_snapshot
    (opts : Opts) (pf : MpvProgress.ProgressFile) (f : HistoryFile)
    (l : list WatchHistoryEntry) (status : string) (mp : MpvProgress.Props)
    (os_time os_time' : Z) :
  history_file opts ≠ "" → anime_id opts ≠ "" →
  read_history f = Some l →
  NoDup (key <$> l) →
  ∃ data l' entry,
    write_progress_both opts true true (pf, f) status mp os_time os_time'
    = (MpvProgress.Snapshot data, Some (Holds (JsonEntries l'))) ∧
    MpvProgress.status data = status ∧
    filter (λ h, key h = opts_key opts) l' = [entry] ∧
    timePos entry = MpvProgress.time_pos data ∧
    duration entry = MpvProgress.duration data ∧
    progress entry = MpvProgress.percent_pos data.
Proof.
  intros Hfile Hid Hread Hnd.
  pose proof (write_progress_data_values status mp os_time) as Hv.
  unfold write_progress_both.
  destruct (written_values mp) as [[t d] p]. destruct Hv as (Ht & Hd & Hp).
  destruct (update_history_run opts f l t d p os_time' Hfile Hid Hread Hnd)
    as (l' & entry & Hup & _ & Hone & _ & _ & Hp' & Ht' & Hd' & _).
  exists (MpvProgress.write_progress_data status mp os_time), l', entry.
  cbn [fst snd MpvProgress.write_progress]. rewrite Hup.
  split; [done|]. split; [done|]. split; [done|].
  by rewrite Ht, Hd, Hp, Ht', Hd', Hp'.
Qed.

(** * Concrete runs of the further properties *)

Lemma X2_witness :
  ∃ l, returns (getWatchHistory (Some 1)) (Sample.holding Demo.two) l ∧
       l = [Sample.entry "b2" 3 200 100 1440 1440].
Proof.
  destruct (X2_list_limit 1 (Sample.holding Demo.two))
    as (full & l & Hfull & Hl & Hpos & _).
  exists l. split; [exact Hl|].
  destruct (Hpos ltac:(lia)) as [-> _].
  vm_compute in Hfull. injection Hfull as <-. vm_compute. reflexivity.
Defined.

Lemma X3_witness :
  ∃ x, returns getLastWatchedAnime (Sample.holding Demo.two) (Some x) ∧
       x ∈ stored (Sample.holding Demo.two) ∧
       Forall (λ h, watchedAt h ≤ watchedAt x) (stored (Sample.holding Demo.two)).
Proof.
  destruct (X3_last_watched_is_newest (Sample.holding Demo.two))
    as (r & Hr & _ & Hsome).
  assert (E : r = Some (Sample.entry "b2" 3 200 100 1440 1440)).
  { vm_compute in Hr. by injection Hr as <-. }
  exists (Sample.entry "b2" 3 200 100 1440 1440).
  split; [by rewrite <- E|]. by apply Hsome.
Defined.

Lemma X5_witness :
  HISTORY_FILE (Sample.holding Demo.two) ≠ Unreadable ∧
  HISTORY_FILE (after clearWatchHistory (Sample.holding Demo.two)) = Absent ∧
  returns (getWatchHistory None)
          (after clearWatchHistory (Sample.holding Demo.two)) [].
Proof.
  assert (H : HISTORY_FILE (Sample.holding Demo.two) ≠ Unreadable)
    by (simpl; discriminate).
  split; [exact H|].
  destruct (X5_clear_history (Sample.holding Demo.two) H)
    as (_ & Habsent & _ & Hlist & _).
  split; [exact Habsent | exact Hlist].
Defined.

Lemma X6_witness :
  (length (stored (Sample.holding Demo.two)) < 50)%nat ∧
  head (stored (after (saveWatchHistory (Sample.entry "a1" 1 300 80 1152 1440))
                      (Sample.holding Demo.two)))
  = Some (Sample.entry "a1" 1 300 80 1152 1440) ∧
  Sample.entry "b2" 3 200 100 1440 1440
  ∈ stored (after (saveWatchHistory (Sample.entry "a1" 1 300 80 1152 1440))
                  (Sample.holding Demo.two)).
Proof.
  assert (H : (length (stored (Sample.holding Demo.two)) < 50)%nat)
    by (simpl; lia).
  split; [exact H|].
  destruct (X6_upsert_keeps_the_other_records (Sample.holding Demo.two)
              (Sample.entry "a1" 1 300 80 1152 1440) (or_introl H))
    as (Hhead & Hkeep & _).
  split; [exact Hhead|]. apply Hkeep.
  - simpl. right. left.
  - vm_compute. discriminate.
Defined.

Lemma X7_witness :
  Forall (λ h, watchedAt h ≤ watchedAt (Sample.entry "a1" 1 300 80 1152 1440))
         (stored (Sample.holding Demo.two)) ∧
  returns getLastWatchedAnime
    (after (saveWatchHistory (Sample.entry "a1" 1 300 80 1152 1440))
           (Sample.holding Demo.two))
    (Some (Sample.entry "a1" 1 300 80 1152 1440)).
Proof.
  assert (H : Forall (λ h, watchedAt h
                           ≤ watchedAt (Sample.entry "a1" 1 300 80 1152 1440))
                     (stored (Sample.holding Demo.two)))
    by (repeat constructor; simpl; lia).
  split; [exact H|].
  exact (proj1 (X7_upsert_newest_is_last_watched (Sample.holding Demo.two)
                  (Sample.entry "a1" 1 300 80 1152 1440) H)).
Defined.

Lemma X9_witness :
  MpvProgress.write_progress_data "playing"
    (Sample.props (Some 720%Q) (Some 1440%Q)) 7
  = {| MpvProgress.timestamp := 7; MpvProgress.time_pos := 720;
       MpvProgress.duration := 1440; MpvProgress.percent_pos := 50;
       MpvProgress.status := "playing"; MpvProgress.estimated := false |} ∧
  MpvProgress.estimated
    (MpvProgress.write_progress_data "playing"
       (Sample.props (Some 720%Q) (Some 1440%Q)) 7) = false.
Proof.
  split; [vm_compute; reflexivity|].
  apply (X9_write_progress_with_known_duration "playing"
           (Sample.props (Some 720%Q) (Some 1440%Q)) 7).
  vm_compute. reflexivity.
Defined.

Lemma X10_witness :
  Player.playVideo "url" Sample.no_options
    {| Player.mpv_found := true; Player.mpv_exit := Player.Close 0;
       Player.progressFile :=
         MpvProgress.session true MpvProgress.Missing
           ([] ++ [("playing", Sample.props (Some 300%Q) None, 5)])
           (Sample.props None None, 6);
       Player.elapsed := 6000 |}
  = {| Player.progress := 20; Player.timePos := 300; Player.duration := 0 |}.
Proof.
  refine (eq_trans
            (proj1 (X10_estimate_reaches_the_controller "url" Sample.no_options
                      0 6000 MpvProgress.Missing [] "playing"
                      (Sample.props (Some 300%Q) None) (Sample.props None None)
                      5 6 _ _ _ _ _ _)) _);
    vm_compute; reflexivity.
Defined.

Lemma X11_witness :
  Player.playVideo "url" Sample.no_options
    {| Player.mpv_found := true; Player.mpv_exit := Player.Close 0;
       Player.progressFile :=
         MpvProgress.session true MpvProgress.Garbled []
           (Sample.props (Some (1451 # 2)%Q) (Some 1440%Q), 9);
       Player.elapsed := 9000 |}
  = {| Player.progress := 50; Player.timePos := 725; Player.duration := 1440 |}.
Proof.
  refine (eq_trans
            (X11_live_values_reach_the_controller "url" Sample.no_options
               0 9000 MpvProgress.Garbled []
               (Sample.props (Some (1451 # 2)%Q) (Some 1440%Q)) 9 _ _) _).
  - vm_compute. discriminate.
  - vm_compute. discriminate.
  - vm_compute. reflexivity.
Defined.

Lemma X12_witness :
  Player.playVideo "url" Sample.no_options
    {| Player.mpv_found := false; Player.mpv_exit := Player.Close 0;
       Player.progressFile :=
         MpvProgress.Snapshot (Sample.snapshot "finished" 720 1440 50);
       Player.elapsed := 0 |}
  = Player.zero ∧
  Player.playVideo "url" Sample.no_options (Sample.mpv 300 0 20)
  = {| Player.progress := 20; Player.timePos := 300; Player.duration := 0 |}.
Proof.
  split.
  - apply (X12_playVideo_degrades_to_what_it_can_read "url" Sample.no_options).
    left. reflexivity.
  - apply (proj2 (X12_playVideo_degrades_to_what_it_can_read "url"
                    Sample.no_options (Sample.mpv 300 0 20))
             0 (Sample.snapshot "finished" 300 0 20)
             eq_refl eq_refl eq_refl).
    right. simpl. lia.
Defined.

Lemma X13_witness :
  Player.progress
    (Player.playVideo "url" Sample.no_options (Sample.mpv 720 1440 0))
  ≤ Player.progress
      (Player.playVideo "url" Sample.no_options
         {| Player.mpv_found := true; Player.mpv_exit := Player.Close 0;
            Player.progressFile :=
              MpvProgress.Snapshot (Sample.snapshot "finished" 1000 1440 0);
            Player.elapsed := 1000 * 720 |}).
Proof.
  apply (X13_progress_is_a_percentage "url" Sample.no_options 0 (1000 * 720)
           (Sample.snapshot "finished" 720 1440 0)
           (Sample.snapshot "finished" 1000 1440 0)); simpl; lia.
Defined.

Lemma X14_witness :
  ∃ l' entry,
    update_history Demo.opts true (Holds (JsonEntries Demo.two))
                   600 1440 (125 # 3) 77
    = Some (Holds (JsonEntries l')) ∧
    filter (λ h, key h = opts_key Demo.opts) l' = [entry] ∧
    length l' = 2%nat ∧
    progress entry = 41 ∧ timePos entry = 600 ∧ duration entry = 1440.
Proof.
  destruct (proj2 (X14_update_history_touches_one_record Demo.opts
                     (Holds (JsonEntries Demo.two)) Demo.two
                     600 1440 (125 # 3) 77))
    as (l' & entry & Hup & _ & Hone & _ & Hlen & Hp & Ht & Hd & _).
  - vm_compute. discriminate.
  - vm_compute. discriminate.
  - reflexivity.
  - apply (bool_decide_unpack _). vm_compute. exact I.
  - exists l', entry. repeat split; assumption.
Defined.

Lemma X15_witness :
  ∃ f', updates Demo.opts true (Holds (JsonEntries Demo.two))
          [(300%Q, 1440%Q, (125 # 6)%Q, 70); (600%Q, 1440%Q, (125 # 3)%Q, 75)]
        = Some f' ∧
        HISTORY_FILE
          (after (saveWatchHistory (Sample.entry "a1" 1 80000 50 720 1440))
                 (script_left f' (Sample.holding Demo.two)))
        = HISTORY_FILE
            (after (saveWatchHistory (Sample.entry "a1" 1 80000 50 720 1440))
                   (Sample.holding Demo.two)).
Proof.
  apply (X15_script_updates_do_not_change_the_upsert Demo.opts
           (Sample.entry "a1" 1 80000 50 720 1440)
           [(300%Q, 1440%Q, (125 # 6)%Q, 70); (600%Q, 1440%Q, (125 # 3)%Q, 75)]
           (Sample.holding Demo.two) Demo.two).
  - vm_compute. discriminate.
  - vm_compute. discriminate.
  - reflexivity.
  - reflexivity.
  - apply (bool_decide_unpack _). vm_compute. exact I.
Defined.

Lemma X16_witness :
  ∃ e, list_find (λ e, Api.episodeNumber e = 2)
                 (Api.getAnimeEpisodes (Sample.catalog true) "frieren" 1)
       = Some (1%nat, e) ∧
       Api.seasonNumber e = 1 ∧ Api.number e = 2.
Proof.
  apply (proj1 (X16_episode_listing (Sample.catalog true) "frieren" 1)
           Demo.frieren 0%nat
           {| Api.season_number := 1; Api.episode_count := 12;
              Api.season_name := "Season 1"; Api.hasEpisode := true |}
           eq_refl eq_refl eq_refl).
  simpl. lia.
Defined.

Lemma X17_witness :
  ∃ best,
    best ∈ Api.files (Api.episodeData Demo.frieren_episode) ∧
    Api.resolution best = 1080 ∧
    Api.getVideoUrl (Sample.catalog true) "frieren" 1 1 "f1"
    = Some Demo.frieren_url.
Proof.
  destruct (proj2 (X17_video_url_picks_the_best_file (Sample.catalog true)
                     "frieren" 1 1 "f1")
              Demo.frieren_url Demo.frieren_episode)
    as (best & Hin & Hmax & Hurl).
  - vm_compute. reflexivity.
  - vm_compute. reflexivity.
  - exists best. split; [exact Hin|]. split; [|vm_compute; reflexivity].
    assert (H1080 : {| Api.resolution := 1080 |}
                    ∈ Api.files (Api.episodeData Demo.frieren_episode))
      by (simpl; right; left).
    pose proof (Hmax _ H1080) as Hle. simpl in Hle.
    simpl in Hin. apply elem_of_cons in Hin as [->|Hin]; [simpl in Hle; lia|].
    apply elem_of_cons in Hin as [->|Hin]; [done|].
    by apply elem_of_nil in Hin.
Defined.

Lemma X18_witness :
  sanitizeFilename Demo.messy_name = Demo.clean_name ∧
  Forall plain Demo.clean_name ∧
  sanitizeFilename Demo.clean_name = Demo.clean_name.
Proof.
  destruct (X18_sanitized_file_names Demo.messy_name)
    as (Hplain & _ & _ & Hidem & _).
  assert (E : sanitizeFilename Demo.messy_name = Demo.clean_name)
    by (vm_compute; reflexivity).
  rewrite E in Hplain, Hidem.
  split; [exact E|]. split; [exact Hplain | exact Hidem].
Defined.

Lemma X19_witness :
  HISTORY_FILE
    (after (handleVideoPlayback (Sample.catalog true) "frieren"
              (Sample.episode 1) "f1" None (Some browser) (Sample.mpv 0 0 0))
           (Sample.holding Demo.two))
  = Holds (JsonEntries Demo.two) ∧
  returns (handleVideoPlayback (Sample.catalog true) "unknown"
             (Sample.episode 1) "f1" None (Some play) (Sample.mpv 0 0 0))
          (Sample.holding Demo.two) Returns.
Proof.
  split.
  - apply (proj1 (X19_without_play_or_copy_nothing_is_written Config.getConfig
                    (Sample.catalog true) "frieren" (Sample.episode 1) "f1"
                    None (Some browser) (Sample.mpv 0 0 0)
                    (Sample.holding Demo.two))).
    right. right. reflexivity.
  - apply (proj2 (X19_without_play_or_copy_nothing_is_written Config.getConfig
                    (Sample.catalog true) "unknown" (Sample.episode 1) "f1"
                    None (Some play) (Sample.mpv 0 0 0)
                    (Sample.holding Demo.two))).
    left. vm_compute. reflexivity.
Defined.

Lemma X20_witness :
  saveToHistory (Sample.catalog true) "unknown" (Sample.episode 1) "f1"
                150 (-5) 1440 (Sample.holding Demo.two)
  = (Js.Normal tt, Sample.holding Demo.two) ∧
  ∃ entry,
    head (stored (after (saveToHistory (Sample.catalog true) "frieren"
                           (Sample.episode 1) "f1" 150 (-5) 1440)
                        (Sample.holding Demo.two)))
    = Some entry ∧
    0 ≤ progress entry ≤ 100 ∧ 0 ≤ timePos entry ∧ duration entry = 1440.
Proof.
  split.
  - apply (proj1 (X20_saveToHistory_stores_values_in_range (Sample.catalog true)
                    "unknown" (Sample.episode 1) "f1" 150 (-5) 1440
                    (Sample.holding Demo.two))).
    left. vm_compute. reflexivity.
  - destruct (proj2 (X20_saveToHistory_stores_values_in_range
                       (Sample.catalog true) "frieren" (Sample.episode 1) "f1"
                       150 (-5) 1440 (Sample.holding Demo.two))
                Demo.frieren Demo.frieren_episode eq_refl eq_refl)
      as (entry & Hhead & _ & _ & _ & Hp & Ht & _ & _ & _ & Hd).
    exists entry. split; [exact Hhead|]. split; [exact Hp|].
    split; [exact Ht|]. apply Hd. lia.
Defined.


Lemma X24_witness :
  returns (handleVideoPlayback (Sample.catalog true) "frieren"
             (Sample.episode 1) "f1" None (Some play) (Sample.mpv 1296 1440 0))
          (Sample.world Absent) (EpisodeSelection (Sample.episode 2)) ∧
  ¬ returns (handleVideoPlayback (Sample.catalog true) "frieren"
               (Sample.episode 12) "f1" None (Some play)
               (Sample.mpv 1296 1440 0))
            (Sample.world Absent) (EpisodeSelection (Sample.episode 13)).
Proof.
  split.
  - apply (X24_goes_on_below_the_episode_count Config.getConfig
             (Sample.catalog true) "frieren" (Sample.episode 1) "f1" None
             (Sample.mpv 1296 1440 0) (Sample.world Absent)
             Demo.frieren_url Demo.frieren_episode Demo.frieren 0%nat
             {| Api.season_number := 1; Api.episode_count := 12;
                Api.season_name := "Season 1"; Api.hasEpisode := true |}
             (Sample.episode 2)).
    + vm_compute. reflexivity.
    + vm_compute. reflexivity.
    + vm_compute. reflexivity.
    + vm_compute. reflexivity.
    + reflexivity.
    + split; [reflexivity|]. split; [vm_compute; discriminate|].
      split; [reflexivity|]. split; [simpl; lia|]. vm_compute. reflexivity.
  - intros H.
    apply (X24_goes_on_below_the_episode_count Config.getConfig
             (Sample.catalog true) "frieren" (Sample.episode 12) "f1" None
             (Sample.mpv 1296 1440 0) (Sample.world Absent)
             "https://do7---ha-k8y3jyfa-8gcx.zyapbot.eu.org/animes/frieren/1/12-f1-1080p.mp4?big=1"
             Demo.frieren_episode Demo.frieren 0%nat
             {| Api.season_number := 1; Api.episode_count := 12;
                Api.season_name := "Season 1"; Api.hasEpisode := true |}
             (Sample.episode 13)) in H.
    + destruct H as (_ & _ & _ & Hk & _). simpl in Hk. lia.
    + vm_compute. reflexivity.
    + vm_compute. reflexivity.
    + vm_compute. reflexivity.
    + vm_compute. reflexivity.
    + reflexivity.
Defined.

Lemma X25_witness :
  ∃ data l' entry,
    write_progress_both Demo.opts true true
      (MpvProgress.Missing, Holds (JsonEntries Demo.two)) "playing"
      (Sample.props (Some 300%Q) None) 70 70
    = (MpvProgress.Snapshot data, Some (Holds (JsonEntries l'))) ∧
    filter (λ h, key h = opts_key Demo.opts) l' = [entry] ∧
    MpvProgress.percent_pos data = 20 ∧ progress entry = 20 ∧
    timePos entry = 300.
Proof.
  destruct (X25_history_record_agrees_with_snapshot Demo.opts
              MpvProgress.Missing (Holds (JsonEntries Demo.two)) Demo.two
              "playing" (Sample.props (Some 300%Q) None) 70 70)
    as (data & l' & entry & Hrun & _ & Hone & Ht & _ & Hp).
  - vm_compute. discriminate.
  - vm_compute. discriminate.
  - reflexivity.
  - apply (bool_decide_unpack _). vm_compute. exact I.
  - exists data, l', entry. split; [exact Hrun|]. split; [exact Hone|].
    assert (Hdata : data = MpvProgress.write_progress_data "playing"
                             (Sample.props (Some 300%Q) None) 70).
    { unfold write_progress_both in Hrun. cbn in Hrun.
      by injection Hrun as <- _. }
    rewrite Hp, Ht, Hdata. vm_compute. repeat split.
Defined.
